(** * Groth16 prover core (rapidsnark, [src/groth16.cpp]): a shallow embedding

    The development follows the source file top to bottom:
    - raw 256-bit elements as four 64-bit limbs, their byte image, and the
      GMP limb comparison used by the rejection sampler;
    - the field backend [E.fr] (Montgomery arithmetic modulo the BN254 scalar
      modulus) and the multi-scalar multiplication, written from the spec
      since their code is not in the source file; the curve operations and
      the FFT engine as an interface ([Engine]), the prover being a template
      over it;
    - [Prover::prove], phase by phase, with arrays as lists accessed through
      bounds-checked [load]/[store] (an access outside the buffer is
      undefined behaviour in C++, rendered as [None]);
    - [Proof::toJsonStr] and [Proof::toJson].

    Unsigned 32-bit arithmetic is written with its wrap-around ([wrap32]).
    The [tbb::parallel_for] loops are rendered as sequential loops in index
    order; the order independence of the one racy loop (the coefficient
    scatter) is a theorem below rather than an assumption. *)

From Stdlib Require Import ZArith Lia String Ascii.
From Stdlib Require Import DecimalString.
From coqutil Require Import Byte.
From stdpp Require Import base option list.

Local Open Scope Z_scope.

(** ** Machine integers and bytes *)

Definition wrap32 (z : Z) : Z := z mod 2 ^ 32.
Definition wrap64 (z : Z) : Z := z mod 2 ^ 64.

(** The integer held by a run of bytes, least significant byte first. *)
Fixpoint le_decode (bs : list byte) : Z :=
  match bs with
  | [] => 0
  | b :: rest => byte.unsigned b + 256 * le_decode rest
  end.

(** The [n] low bytes of [z], least significant byte first. *)
Fixpoint le_encode (n : nat) (z : Z) : list byte :=
  match n with
  | O => []
  | S k => byte.of_Z z :: le_encode k (z / 256)
  end.

(** ** Raw field elements

    [FrRawElement] is [uint64_t[Fr_N64]] with [Fr_N64 = 4], least significant
    limb first; [FrElement] wraps it in the field [v]. The base field of the
    curve uses the same layout ([F1Element]). *)

Definition Fr_N64 : nat := 4.

Record FrRawElement := mkRaw { limb0 : Z; limb1 : Z; limb2 : Z; limb3 : Z }.

Record FrElement := mkFr { v : FrRawElement }.

Definition limbs (x : FrRawElement) : list Z :=
  [limb0 x; limb1 x; limb2 x; limb3 x].

(** [sizeof(FrElement)]: four 8-byte limbs. *)
Definition sizeof_FrElement : Z := 32.

(** The 32 bytes of an element as they lie in memory (little-endian host). *)
Definition raw_bytes (x : FrRawElement) : list byte :=
  le_encode 8 (limb0 x) ++ le_encode 8 (limb1 x) ++
  le_encode 8 (limb2 x) ++ le_encode 8 (limb3 x).

Definition Fr_bytes (x : FrElement) : list byte := raw_bytes (v x).

(** The integer those 32 bytes encode: what a consumer of
    [(uint8_t* )&x, sizeof(x)] reads. *)
Definition raw_val (x : FrRawElement) : Z :=
  wrap64 (limb0 x) + 2 ^ 64 * wrap64 (limb1 x) +
  2 ^ 128 * wrap64 (limb2 x) + 2 ^ 192 * wrap64 (limb3 x).

Definition Fr_val (x : FrElement) : Z := raw_val (v x).

(** Storing a 256-bit integer into four limbs. *)
Definition raw_of_Z (z : Z) : FrRawElement :=
  mkRaw (wrap64 z) (wrap64 (z / 2 ^ 64)) (wrap64 (z / 2 ^ 128))
        (wrap64 (z / 2 ^ 192)).

Definition Fr_of_Z (z : Z) : FrElement := mkFr (raw_of_Z z).

(** Filling an element from 32 bytes of memory, as [randombytes_buf(&r, 32)]
    does: limb [k] is bytes [8k .. 8k+7]. *)
Definition raw_of_bytes (bs : list byte) : FrRawElement :=
  mkRaw (le_decode (take 8 bs))
        (le_decode (take 8 (drop 8 bs)))
        (le_decode (take 8 (drop 16 bs)))
        (le_decode (take 8 (drop 24 bs))).

(** A buffer of elements seen through a [uint8_t*]. *)
Definition Fr_buf_bytes (buf : list FrElement) : list byte :=
  concat (map Fr_bytes buf).

(** An element whose limbs all fit 64 bits. *)
Definition limbs_ok (x : FrRawElement) : Prop :=
  0 <= limb0 x < 2 ^ 64 /\ 0 <= limb1 x < 2 ^ 64 /\
  0 <= limb2 x < 2 ^ 64 /\ 0 <= limb3 x < 2 ^ 64.

(** ** GMP's limb comparison

    [mpn_cmp (s1, s2, n)] compares the [n]-limb numbers at [s1] and [s2] and
    returns a positive value, zero or a negative value. It walks from the
    most significant limb down and stops at the first difference. *)

Fixpoint mpn_cmp_down (hi1 hi2 : list Z) : Z :=
  match hi1, hi2 with
  | x :: r1, y :: r2 =>
      if x =? y then mpn_cmp_down r1 r2
      else if x <? y then -1 else 1
  | _, _ => 0
  end.

Definition mpn_cmp (s1 s2 : list Z) (n : nat) : Z :=
  mpn_cmp_down (rev (take n s1)) (rev (take n s2)).

(** ** The field backend [E.fr]

    The scalar-field library ([alt_bn128.hpp] and the generated field code)
    is not part of the source file, so its operations are written from what
    the spec says of them: elements are 256-bit, four little-endian limbs,
    kept in Montgomery form ("representation of field elements as x·R mod
    q"), with field addition, subtraction and multiplication and the two
    conversions between the natural and the Montgomery form. *)

Module Fr.

(** Modelled from the spec: the BN254 scalar modulus [q] (section 4.1,
    Phase 5). *)
Definition q : Z :=
  0x30644E72E131A029B85045B68181585D2833E84879B9709143E1F593F0000001.

(** Modelled from the spec: the Montgomery radix of a 256-bit element,
    [R = 2^256]. *)
Definition R : Z := 2 ^ 256.

(** Modelled from the spec: the inverse of [R] modulo [q]. *)
Definition Rinv : Z :=
  9915499612839321149637521777990102151350674507940716049588462388200839649614.

(** Modelled from the spec: [E.fr.zero()], the zero of the field. *)
Definition zero : FrElement := Fr_of_Z 0.

(** Modelled from the spec: [E.fr.copy(r, a)] stores [a]. *)
Definition copy (x : FrElement) : FrElement := x.

(** Modelled from the spec: [E.fr.add], field addition. *)
Definition add (x y : FrElement) : FrElement :=
  Fr_of_Z ((Fr_val x + Fr_val y) mod q).

(** Modelled from the spec: [E.fr.sub], field subtraction. *)
Definition sub (x y : FrElement) : FrElement :=
  Fr_of_Z ((Fr_val x - Fr_val y) mod q).

(** Modelled from the spec: [E.fr.mul], "field multiplication in Montgomery
    form": on stored values, [x · y · R⁻¹ mod q]. *)
Definition mul (x y : FrElement) : FrElement :=
  Fr_of_Z ((Fr_val x * Fr_val y * Rinv) mod q).

(** Modelled from the spec: [E.fr.toMontgomery], from the natural to the
    Montgomery form: [x · R mod q]. *)
Definition toMontgomery (x : FrElement) : FrElement :=
  Fr_of_Z ((Fr_val x * R) mod q).

(** Modelled from the spec: [E.fr.fromMontgomery], from the Montgomery to
    the natural form: [x · R⁻¹ mod q]. *)
Definition fromMontgomery (x : FrElement) : FrElement :=
  Fr_of_Z ((Fr_val x * Rinv) mod q).

End Fr.

(** ** The base field [E.f1], for printing coordinates

    [E.f1.toString] is not part of the source file either. The spec's words:
    "Coordinates are decimal strings of the natural-form integer
    representatives"; elements are stored in Montgomery form. *)

Definition F1Element := FrRawElement.

Module F1.

(** Modelled from the spec: the BN254 base-field modulus. *)
Definition p : Z :=
  0x30644E72E131A029B85045B68181585D97816A916871CA8D3C208C16D87CFD47.

(** Modelled from the spec: the inverse of [2^256] modulo [p]. *)
Definition Rinv : Z :=
  20988524275117001072002809824448087578619730785600314334253784976379291040311.

(** Modelled from the spec: the natural-form representative of a stored
    (Montgomery-form) element. *)
Definition natural (x : F1Element) : Z := (raw_val x * Rinv) mod p.

(** Modelled from the spec: the decimal string of a non-negative integer. *)
Definition decimal (z : Z) : string :=
  NilZero.string_of_uint (N.to_uint (Z.to_N z)).

(** Modelled from the spec: [E.f1.toString], "decimal strings of the
    natural-form integer representatives". *)
Definition toString (x : F1Element) : string := decimal (natural x).

End F1.

(** ** Curve points

    Affine points are the records of the key tables and of the proof; their
    coordinates are what [Proof::toJson] prints. *)

Record F2Element := mkF2 { f2_a : F1Element; f2_b : F1Element }.

Record G1PointAffine := mkG1A { g1_x : F1Element; g1_y : F1Element }.

Record G2PointAffine := mkG2A { g2_x : F2Element; g2_y : F2Element }.

(** ** The engine: curve arithmetic and FFT

    [Prover] is a template over [Engine]; the curve group laws and the FFT are
    consumed through this interface. [G1Point]/[G2Point] are the projective
    accumulators, each standing for the group element it denotes; [g1_addA]
    and [g1_mulByScalarA] are the overloads that take an affine operand and
    [g1_copy] is the copy into an affine point. A scalar is handed over as a
    byte pointer and a size, here the list of those bytes. The FFT transforms
    an array in place, so it returns an array of the same length; [fft_log2]
    is the logarithm of a 64-bit argument. *)

Class Engine := {
  G1Point : Type;
  G2Point : Type;
  g1_zero : G1Point;
  g1_add : G1Point -> G1Point -> G1Point;
  g1_addA : G1Point -> G1PointAffine -> G1Point;
  g1_sub : G1Point -> G1Point -> G1Point;
  g1_mulByScalar : G1Point -> list byte -> G1Point;
  g1_mulByScalarA : G1PointAffine -> list byte -> G1Point;
  g1_copy : G1Point -> G1PointAffine;
  g2_zero : G2Point;
  g2_add : G2Point -> G2Point -> G2Point;
  g2_addA : G2Point -> G2PointAffine -> G2Point;
  g2_mulByScalarA : G2PointAffine -> list byte -> G2Point;
  g2_copy : G2Point -> G2PointAffine;
  fft_log2 : Z -> Z;
  fft_root : Z -> Z -> FrElement;
  fft_fft : list FrElement -> Z -> list FrElement;
  fft_ifft : list FrElement -> Z -> list FrElement;
  fft_fft_length : forall a n, length (fft_fft a n) = length a;
  fft_ifft_length : forall a n, length (fft_ifft a n) = length a;
  fft_log2_range : forall n, 0 <= fft_log2 n <= 64
}.

(** ** Arrays and loops

    The loop counters of the source are [int]s running up to an unsigned
    bound ([for (int i = range.begin(); i < range.end(); ++i)] over a
    [uint32_t] or [uint64_t] range); the model counts in [nat], which is the
    same for bounds below 2^31. From 2^31 on the counter of the source
    overflows, which the model does not show: a theorem that says a loop
    runs to its end carries the bound as a hypothesis. *)

(** [a[i]] as an rvalue and [a[i] = x]; [None] outside the array. *)
Definition load {A : Type} (a : list A) (i : nat) : option A := a !! i.

Definition store {A : Type} (a : list A) (i : nat) (x : A) : option (list A) :=
  if (i <? length a)%nat then Some (<[i := x]> a) else None.

(** [for (i = from; i < from + count; ++i) body]. *)
Fixpoint for_loop {S : Type} (body : nat -> S -> option S)
    (from count : nat) (s : S) : option S :=
  match count with
  | O => Some s
  | Datatypes.S k => s' ← body from s; for_loop body (Datatypes.S from) k s'
  end.

Definition for_range {S : Type} (body : nat -> S -> option S) (n : Z) (s : S)
    : option S :=
  for_loop body 0 (Z.to_nat n) s.

(** [new FrElement[n]]: [n] elements with whatever the heap holds. *)
Definition new_array (heap : nat -> FrElement) (n : Z) : list FrElement :=
  map heap (seq 0 (Z.to_nat n)).

(** [len] bytes at byte offset [off] of a buffer. *)
Definition read_bytes (buf : list byte) (off len : nat) : option (list byte) :=
  if (off + len <=? length buf)%nat then Some (take len (drop off buf))
  else None.

(** ** Multi-scalar multiplication

    [multiMulByScalar] belongs to the curve library, which is not part of
    the source file. The spec's words: "MSM: multi-scalar multiplication,
    ∑ sᵢ·Pᵢ over a group". *)

(** Modelled from the spec: one term of the sum. The call
    [multiMulByScalar(r, bases, scalars, scalarSize, n)] reads base [i] and
    the [scalarSize] bytes at offset [i * scalarSize] of [scalars]. *)
Definition msm_body {P A : Type} (add : P -> P -> P) (mul : A -> list byte -> P)
    (bases : list A) (scalars : list byte) (scalarSize : nat)
    (i : nat) (acc : P) : option P :=
  base ← load bases i;
  k ← read_bytes scalars (i * scalarSize) scalarSize;
  Some (add acc (mul base k)).

(** Modelled from the spec: [multiMulByScalar], the sum of the terms
    [i < n]. *)
Definition multiMulByScalar {P A : Type} (zero : P) (add : P -> P -> P)
    (mul : A -> list byte -> P)
    (bases : list A) (scalars : list byte) (scalarSize n : Z) : option P :=
  for_range (msm_body add mul bases scalars (Z.to_nat scalarSize)) n zero.

(** The sum [∑ kᵢ·Pᵢ] over two lists, in the spec's notation
    [MSM(points, scalars)]; each scalar is the byte image of one element. *)
Definition MSM {P A : Type} (zero : P) (add : P -> P -> P)
    (mul : A -> list byte -> P) (points : list A) (scalars : list FrElement) : P :=
  foldl (fun acc pk => add acc (mul pk.1 (Fr_bytes pk.2))) zero
        (zip points scalars).

(** ** The proving key and the proof *)

Record Coef := mkCoef {
  coef_m : Z;
  coef_c : Z;
  coef_s : Z;
  coef_coef : FrElement
}.

Record Prover := mkProver {
  nVars : Z;
  nPublic : Z;
  domainSize : Z;
  nCoefs : Z;
  vk_alpha1 : G1PointAffine;
  vk_beta1 : G1PointAffine;
  vk_beta2 : G2PointAffine;
  vk_delta1 : G1PointAffine;
  vk_delta2 : G2PointAffine;
  coefs : list Coef;
  pointsA : list G1PointAffine;
  pointsB1 : list G1PointAffine;
  pointsB2 : list G2PointAffine;
  pointsC : list G1PointAffine;
  pointsH : list G1PointAffine
}.

Record Proof := mkProof {
  proof_A : G1PointAffine;
  proof_B : G2PointAffine;
  proof_C : G1PointAffine
}.

(** The three work arrays of [prove]. *)
Record Arrays := mkArrays {
  arr_a : list FrElement;
  arr_b : list FrElement;
  arr_c : list FrElement
}.

(** What the heap and the stack hold before [prove] writes them: the content
    of the three fresh arrays and of the locals [r] and [s]. *)
Record Uninit := mkUninit {
  heap_a : nat -> FrElement;
  heap_b : nat -> FrElement;
  heap_c : nat -> FrElement;
  stack_r : FrElement;
  stack_s : FrElement
}.

(** ** The randomness source

    [randombytes_buf(buf, n)] fills [n] bytes from a byte stream. *)

Record Rng := mkRng { rng_src : nat -> byte; rng_pos : nat }.

Definition randombytes_buf (g : Rng) (n : nat) : list byte * Rng :=
  (map (rng_src g) (seq (rng_pos g) n), mkRng (rng_src g) (rng_pos g + n)).

(** What a call of [prove] comes to: it returns, or it touches memory outside
    a buffer (undefined behaviour), or its rejection loop is still running
    when the fuel of the model is spent. *)
Inductive outcome (A : Type) : Type :=
| Returns (x : A)
| Undefined
| OutOfFuel.

Arguments Returns {A} x.
Arguments Undefined {A}.
Arguments OutOfFuel {A}.

(** * [Prover::prove]

    The argument [wtns] is a bare [FrElement*]; the model takes the buffer
    behind the pointer, a list of any length, so that a read past its end
    shows as [None]. The tables of the key are lists in the same way. *)

Section Prove.

Context {E : Engine}.

Definition g1_multiMulByScalar :=
  multiMulByScalar g1_zero g1_add g1_mulByScalarA.

Definition g2_multiMulByScalar :=
  multiMulByScalar g2_zero g2_add g2_mulByScalarA.

(** ** Phase 1: the four witness MSMs (lines 85-112)

    [sW], [nVars] and [nPublic] are [uint32_t]: the byte offset
    [(nPublic + 1) * sW] and the count [nVars - nPublic - 1] are computed
    modulo 2^32 before the offset is added to the 64-bit address. The futures
    only read [wtns] and are joined before the results are used, so they are
    evaluated here in program order. *)

Definition pi_c_offset (pk : Prover) (sW : Z) : Z :=
  wrap32 (wrap32 (nPublic pk + 1) * sW).

Definition pi_c_count (pk : Prover) : Z :=
  wrap32 (wrap32 (nVars pk - nPublic pk) - 1).

Definition witness_msms (pk : Prover) (wtns : list FrElement)
    : option (G1Point * G1Point * G2Point * G1Point) :=
  let sW := sizeof_FrElement in
  let scalars := Fr_buf_bytes wtns in
  pi_a ← g1_multiMulByScalar (pointsA pk) scalars sW (nVars pk);
  pib1 ← g1_multiMulByScalar (pointsB1 pk) scalars sW (nVars pk);
  pi_b ← g2_multiMulByScalar (pointsB2 pk) scalars sW (nVars pk);
  pi_c ← g1_multiMulByScalar (pointsC pk)
           (drop (Z.to_nat (pi_c_offset pk sW)) scalars) sW (pi_c_count pk);
  Some (pi_a, pib1, pi_b, pi_c).

(** ** Phase 2: allocation, zeroing and the coefficient scatter
    (lines 115-156) *)

Definition allocate (U : Uninit) (pk : Prover) : Arrays :=
  mkArrays (new_array (heap_a U) (domainSize pk))
           (new_array (heap_b U) (domainSize pk))
           (new_array (heap_c U) (domainSize pk)).

(** Lines 130-131: only [a[i]] and [b[i]] are written. *)
Definition zero_body (i : nat) (st : Arrays) : option Arrays :=
  a' ← store (arr_a st) i (Fr.copy Fr.zero);
  b' ← store (arr_b st) i (Fr.copy Fr.zero);
  Some (mkArrays a' b' (arr_c st)).

(** Lines 147-154 for one record. The lock taken around the addition makes
    the read-modify-write of [ab[c]] one step. *)
Definition scatter_step (wtns : list FrElement) (cf : Coef) (st : Arrays)
    : option Arrays :=
  w ← load wtns (Z.to_nat (coef_s cf));
  let aux := Fr.mul w (coef_coef cf) in
  let ci := Z.to_nat (coef_c cf) in
  if coef_m cf =? 0 then
    old ← load (arr_a st) ci;
    a' ← store (arr_a st) ci (Fr.add old aux);
    Some (mkArrays a' (arr_b st) (arr_c st))
  else
    old ← load (arr_b st) ci;
    b' ← store (arr_b st) ci (Fr.add old aux);
    Some (mkArrays (arr_a st) b' (arr_c st)).

Definition scatter_body (cs : list Coef) (wtns : list FrElement)
    (i : nat) (st : Arrays) : option Arrays :=
  cf ← load cs i;
  scatter_step wtns cf st.

Definition scatter (cs : list Coef) (n : Z) (wtns : list FrElement)
    (st : Arrays) : option Arrays :=
  for_range (scatter_body cs wtns) n st.

(** ** Phase 3: [c = a·b] and the three coset chains (lines 158-262) *)

(** Line 165. *)
Definition product_body (i : nat) (st : Arrays) : option Arrays :=
  x ← load (arr_a st) i;
  y ← load (arr_b st) i;
  c' ← store (arr_c st) i (Fr.mul x y);
  Some (mkArrays (arr_a st) (arr_b st) c').

(** Lines 188, 218, 247; [domainPower + 1] is a [uint32_t] sum. *)
Definition shift_body (domainPower : Z) (i : nat) (x : list FrElement)
    : option (list FrElement) :=
  e ← load x i;
  store x i (Fr.mul e (fft_root (wrap32 (domainPower + 1)) (Z.of_nat i))).

(** One of the three futures: [ifft], shift, [fft]. Between the steps the
    source logs the first two elements ([LOG_DEBUG] of [a[0]] and [a[1]],
    lines 178-179, 192-193, 197-198, the same for [b] and [c], and lines
    278-279 after the reduction). The logging macros are not part of the
    source file; the reads change nothing and are inside the array for
    [domainSize >= 2], so they are left out here, and a theorem that says
    [prove] returns carries [2 <= domainSize] as a hypothesis. *)
Definition coset_chain (pk : Prover) (domainPower : Z) (x : list FrElement)
    : option (list FrElement) :=
  let x := fft_ifft x (domainSize pk) in
  x ← for_range (shift_body domainPower) (domainSize pk) x;
  Some (fft_fft x (domainSize pk)).

Definition coset_chains (pk : Prover) (st : Arrays) : option Arrays :=
  let domainPower := fft_log2 (domainSize pk) in
  a' ← coset_chain pk domainPower (arr_a st);
  b' ← coset_chain pk domainPower (arr_b st);
  c' ← coset_chain pk domainPower (arr_c st);
  Some (mkArrays a' b' c').

(** ** Phase 4: the quotient evaluations and their MSM (lines 264-286) *)

(** Lines 271-273. *)
Definition abc_body (i : nat) (st : Arrays) : option Arrays :=
  x ← load (arr_a st) i;
  y ← load (arr_b st) i;
  a1 ← store (arr_a st) i (Fr.mul x y);
  x ← load a1 i;
  z ← load (arr_c st) i;
  a2 ← store a1 i (Fr.sub x z);
  x ← load a2 i;
  a3 ← store a2 i (Fr.fromMontgomery x);
  Some (mkArrays a3 (arr_b st) (arr_c st)).

Definition h_msm (pk : Prover) (st : Arrays) : option G1Point :=
  g1_multiMulByScalar (pointsH pk) (Fr_buf_bytes (arr_a st))
                      sizeof_FrElement (domainSize pk).

(** Phase 2 and line 165, over a given zeroing loop body: the arrays as they
    stand when the three futures start. *)
Definition accumulate (init_body : nat -> Arrays -> option Arrays)
    (U : Uninit) (pk : Prover) (wtns : list FrElement) : option Arrays :=
  let st := allocate U pk in
  st ← for_range init_body (domainSize pk) st;
  st ← scatter (coefs pk) (nCoefs pk) wtns st;
  for_range product_body (domainSize pk) st.

(** Lines 169-286: the chains, the pointwise reduction and the MSM over
    [pointsH]. *)
Definition quotient (pk : Prover) (st : Arrays) : option (Arrays * G1Point) :=
  st ← coset_chains pk st;
  st ← for_range abc_body (domainSize pk) st;
  pih ← h_msm pk st;
  Some (st, pih).

(** Phases 2 to 4 in program order. *)
Definition evaluate (init_body : nat -> Arrays -> option Arrays)
    (U : Uninit) (pk : Prover) (wtns : list FrElement)
    : option (Arrays * G1Point) :=
  st ← accumulate init_body U pk wtns;
  quotient pk st.

End Prove.

(** ** Phase 5: the blinding scalars (lines 288-316) *)

(** Lines 296-297: the modulus, least significant limb first. *)
Definition fr_modulus : FrRawElement :=
  mkRaw 0x43E1F593F0000001 0x2833E84879B97091
        0xB85045B68181585D 0x30644E72E131A029.

(** Lines 303, 312: [r.v[3] &= 0x3FFFFFFFFFFFFFFF]. *)
Definition mask_top (r : FrElement) : FrElement :=
  mkFr (mkRaw (limb0 (v r)) (limb1 (v r)) (limb2 (v r))
              (Z.land (limb3 (v r)) 0x3FFFFFFFFFFFFFFF)).

(** One pass through the loop body: the candidate, the comparison result and
    the advanced generator. *)
Definition sample_once (g : Rng) : FrElement * Z * Rng :=
  let '(bs, g') := randombytes_buf g (Z.to_nat sizeof_FrElement) in
  let r := mask_top (mkFr (raw_of_bytes bs)) in
  (r, mpn_cmp (limbs (v r)) (limbs fr_modulus) Fr_N64, g').

(** [for (int cmp = 0; cmp >= 0;) { ... cmp = mpn_cmp(...); }] with the
    number of passes bounded by [fuel]. *)
Fixpoint sample_loop (fuel : nat) (cmp : Z) (r : FrElement) (g : Rng)
    : option (FrElement * Rng) :=
  if 0 <=? cmp then
    match fuel with
    | O => None
    | Datatypes.S k =>
        let '(r', cmp', g') := sample_once g in
        sample_loop k cmp' r' g'
    end
  else Some (r, g).

Definition sample_scalar (fuel : nat) (r0 : FrElement) (g : Rng)
    : option (FrElement * Rng) :=
  sample_loop fuel 0 r0 g.

(** The candidate of pass [k] (counting from 0) of a loop started at [g]. *)
Definition candidate (g : Rng) (k : nat) : FrElement :=
  (sample_once (mkRng (rng_src g)
                      (rng_pos g + k * Z.to_nat sizeof_FrElement))).1.1.

Section Assemble.

Context {E : Engine}.

(** ** Phase 6: the proof (lines 325-359)

    Each [let] is one statement; a rebinding is the in-place update of the
    variable of that name. *)

Definition assemble (pk : Prover)
    (pi_a pib1 : G1Point) (pi_b : G2Point) (pi_c pih : G1Point)
    (r s : FrElement) : Proof :=
  let pi_a := g1_addA pi_a (vk_alpha1 pk) in
  let p1 := g1_mulByScalarA (vk_delta1 pk) (Fr_bytes r) in
  let pi_a := g1_add pi_a p1 in
  let pi_b := g2_addA pi_b (vk_beta2 pk) in
  let p2 := g2_mulByScalarA (vk_delta2 pk) (Fr_bytes s) in
  let pi_b := g2_add pi_b p2 in
  let pib1 := g1_addA pib1 (vk_beta1 pk) in
  let p1 := g1_mulByScalarA (vk_delta1 pk) (Fr_bytes s) in
  let pib1 := g1_add pib1 p1 in
  let pi_c := g1_add pi_c pih in
  let p1 := g1_mulByScalar pi_a (Fr_bytes s) in
  let pi_c := g1_add pi_c p1 in
  let p1 := g1_mulByScalar pib1 (Fr_bytes r) in
  let pi_c := g1_add pi_c p1 in
  let rs := Fr.mul r s in
  let rs := Fr.toMontgomery rs in
  let p1 := g1_mulByScalarA (vk_delta1 pk) (Fr_bytes rs) in
  let pi_c := g1_sub pi_c p1 in
  mkProof (g1_copy pi_a) (g2_copy pi_b) (g1_copy pi_c).

(** The scalar bytes of the last [mulByScalar] (lines 348-351). *)
Definition rs_bytes (r s : FrElement) : list byte :=
  Fr_bytes (Fr.toMontgomery (Fr.mul r s)).

(** The whole function over a given zeroing loop body. The MSM futures are
    started first and joined at line 319; nothing else writes what they read,
    so their position in the sequence does not matter. *)
Definition prove_with (init_body : nat -> Arrays -> option Arrays)
    (U : Uninit) (fuel : nat) (pk : Prover) (wtns : list FrElement) (g : Rng)
    : outcome (Proof * Rng) :=
  match witness_msms pk wtns with
  | None => Undefined
  | Some (pi_a, pib1, pi_b, pi_c) =>
      match evaluate init_body U pk wtns with
      | None => Undefined
      | Some (_, pih) =>
          match sample_scalar fuel (stack_r U) g with
          | None => OutOfFuel
          | Some (r, g1) =>
              match sample_scalar fuel (stack_s U) g1 with
              | None => OutOfFuel
              | Some (s, g2) =>
                  Returns (assemble pk pi_a pib1 pi_b pi_c pih r s, g2)
              end
          end
      end
  end.

Definition prove := prove_with zero_body.

(** The spec's reading of the start of Phase 2, "a, b, c zero-initialised":
    the loop body that also clears [c[i]], and the prover built on it. *)
Definition zero_all_body (i : nat) (st : Arrays) : option Arrays :=
  a' ← store (arr_a st) i (Fr.copy Fr.zero);
  b' ← store (arr_b st) i (Fr.copy Fr.zero);
  c' ← store (arr_c st) i (Fr.copy Fr.zero);
  Some (mkArrays a' b' c').

Definition prove_zero_all := prove_with zero_all_body.

End Assemble.

(** * [Proof::toJsonStr] and [Proof::toJson] *)

(** ** JSON values

    The part of the JSON library's value type the source uses. An object is
    an ordered map: its fields are kept sorted by key. *)

Local Unset Elimination Schemes.

Inductive json : Type :=
| JNull
| JString (s : string)
| JArray (items : list json)
| JObject (fields : list (string * json)).

Local Set Elimination Schemes.

(** [j.push_back(x)]: a null value becomes a one-element array, an array
    grows at the end, anything else is a type error. *)
Definition push_back (j x : json) : option json :=
  match j with
  | JNull => Some (JArray [x])
  | JArray items => Some (JArray (items ++ [x]))
  | _ => None
  end.

Fixpoint obj_lookup (k : string) (fields : list (string * json)) : option json :=
  match fields with
  | [] => None
  | (k', x) :: rest => if String.eqb k k' then Some x else obj_lookup k rest
  end.

Fixpoint obj_insert (k : string) (x : json) (fields : list (string * json))
    : list (string * json) :=
  match fields with
  | [] => [(k, x)]
  | (k', x') :: rest =>
      match String.compare k k' with
      | Lt => (k, x) :: (k', x') :: rest
      | Eq => (k, x) :: rest
      | Gt => (k', x') :: obj_insert k x rest
      end
  end.

(** The fields of a value used as an object: [operator[]] with a string key
    turns a null value into an empty object and rejects other non-objects. *)
Definition as_object (j : json) : option (list (string * json)) :=
  match j with
  | JNull => Some []
  | JObject fields => Some fields
  | _ => None
  end.

(** [j[k] = x]. *)
Definition set_field (j : json) (k : string) (x : json) : option json :=
  fields ← as_object j;
  Some (JObject (obj_insert k x fields)).

(** [j[k].push_back(x)]; a key not yet present starts as null. *)
Definition push_back_field (j : json) (k : string) (x : json) : option json :=
  fields ← as_object j;
  cur' ← push_back (default JNull (obj_lookup k fields)) x;
  Some (JObject (obj_insert k cur' fields)).

Local Open Scope string_scope.

(** The double-quote character, and a string between two of them. *)
Definition dquote : string := String (ascii_of_nat 34) EmptyString.

Definition quoted (s : string) : string := dquote ++ s ++ dquote.

(** Lines 378-410. *)
Definition toJson (pf : Proof) : option json :=
  let p := JNull in
  p ← set_field p "pi_a" JNull;
  p ← push_back_field p "pi_a" (JString (F1.toString (g1_x (proof_A pf))));
  p ← push_back_field p "pi_a" (JString (F1.toString (g1_y (proof_A pf))));
  p ← push_back_field p "pi_a" (JString "1");
  let x2 := JNull in
  x2 ← push_back x2 (JString (F1.toString (f2_a (g2_x (proof_B pf)))));
  x2 ← push_back x2 (JString (F1.toString (f2_b (g2_x (proof_B pf)))));
  let y2 := JNull in
  y2 ← push_back y2 (JString (F1.toString (f2_a (g2_y (proof_B pf)))));
  y2 ← push_back y2 (JString (F1.toString (f2_b (g2_y (proof_B pf)))));
  let z2 := JNull in
  z2 ← push_back z2 (JString "1");
  z2 ← push_back z2 (JString "0");
  p ← set_field p "pi_b" JNull;
  p ← push_back_field p "pi_b" x2;
  p ← push_back_field p "pi_b" y2;
  p ← push_back_field p "pi_b" z2;
  p ← set_field p "pi_c" JNull;
  p ← push_back_field p "pi_c" (JString (F1.toString (g1_x (proof_C pf))));
  p ← push_back_field p "pi_c" (JString (F1.toString (g1_y (proof_C pf))));
  p ← push_back_field p "pi_c" (JString "1");
  p ← set_field p "protocol" (JString "groth16");
  Some p.

(** Lines 362-376: one line per [ss << ...] statement. *)
Definition toJsonStr (pf : Proof) : string :=
  ("{ " ++ quoted "pi_a" ++ ":[" ++ quoted (F1.toString (g1_x (proof_A pf)))
    ++ "," ++ quoted (F1.toString (g1_y (proof_A pf)))
    ++ "," ++ quoted "1" ++ "], ")
  ++ (" " ++ quoted "pi_b" ++ ": [["
    ++ quoted (F1.toString (f2_a (g2_x (proof_B pf))))
    ++ "," ++ quoted (F1.toString (f2_b (g2_x (proof_B pf))))
    ++ "],[" ++ quoted (F1.toString (f2_a (g2_y (proof_B pf))))
    ++ "," ++ quoted (F1.toString (f2_b (g2_y (proof_B pf))))
    ++ "], [" ++ quoted "1" ++ "," ++ quoted "0" ++ "]], ")
  ++ (" " ++ quoted "pi_c" ++ ": [" ++ quoted (F1.toString (g1_x (proof_C pf)))
    ++ "," ++ quoted (F1.toString (g1_y (proof_C pf)))
    ++ "," ++ quoted "1" ++ "], ")
  ++ (" " ++ quoted "protocol" ++ ":" ++ quoted "groth16" ++ " }").

(** ** The object of the spec (section 4.2)

    [{ "pi_a": [X, Y, "1"], "pi_b": [[X.a, X.b], [Y.a, Y.b], ["1","0"]],
       "pi_c": [X, Y, "1"], "protocol": "groth16" }], every coordinate the
    decimal string of the natural-form representative. *)

Definition coordinate (x : F1Element) : json :=
  JString (F1.decimal (F1.natural x)).

Definition spec_json (pf : Proof) : json :=
  JObject
    [ ("pi_a", JArray [coordinate (g1_x (proof_A pf));
                       coordinate (g1_y (proof_A pf)); JString "1"]);
      ("pi_b", JArray [JArray [coordinate (f2_a (g2_x (proof_B pf)));
                               coordinate (f2_b (g2_x (proof_B pf)))];
                       JArray [coordinate (f2_a (g2_y (proof_B pf)));
                               coordinate (f2_b (g2_y (proof_B pf)))];
                       JArray [JString "1"; JString "0"]]);
      ("pi_c", JArray [coordinate (g1_x (proof_C pf));
                       coordinate (g1_y (proof_C pf)); JString "1"]);
      ("protocol", JString "groth16") ].

(** The compact text of a JSON value: no white space, fields and items in
    order, separated by commas. *)
Fixpoint dump (j : json) : string :=
  match j with
  | JNull => "null"
  | JString s => quoted s
  | JArray items =>
      "[" ++ (fix go (xs : list json) : string :=
                match xs with
                | [] => EmptyString
                | x :: rest =>
                    dump x ++ match rest with [] => EmptyString
                                            | _ => "," ++ go rest end
                end) items ++ "]"
  | JObject fields =>
      "{" ++ (fix go (fs : list (string * json)) : string :=
                match fs with
                | [] => EmptyString
                | (k, x) :: rest =>
                    quoted k ++ ":" ++ dump x ++
                    match rest with [] => EmptyString | _ => "," ++ go rest end
                end) fields ++ "}"
  end.

(** Where a scan of a JSON text stands: between tokens, inside a string, or
    inside a string right after a backslash. *)
Inductive scan_state : Type := Between | InString | AfterBackslash.

(** The white space JSON allows between tokens: space, tab, line feed,
    carriage return. *)
Definition json_space (ch : ascii) : bool :=
  Ascii.eqb ch (ascii_of_nat 32) || Ascii.eqb ch (ascii_of_nat 9) ||
  Ascii.eqb ch (ascii_of_nat 10) || Ascii.eqb ch (ascii_of_nat 13).

(** A JSON text with the white space between its tokens removed. What stands
    inside a string literal is kept as it is, blanks included. *)
Fixpoint json_compact_from (st : scan_state) (s : string) : string :=
  match s with
  | EmptyString => EmptyString
  | String ch rest =>
      match st with
      | Between =>
          if json_space ch then json_compact_from Between rest
          else String ch (json_compact_from
                            (if Ascii.eqb ch (ascii_of_nat 34) then InString
                             else Between) rest)
      | InString =>
          String ch (json_compact_from
                       (if Ascii.eqb ch (ascii_of_nat 34) then Between
                        else if Ascii.eqb ch (ascii_of_nat 92)
                             then AfterBackslash else InString) rest)
      | AfterBackslash => String ch (json_compact_from InString rest)
      end
  end.

Definition json_compact (s : string) : string := json_compact_from Between s.

(** A string without double quote and without backslash: the content of a
    string literal that needs no escape. *)
Fixpoint plain_text (s : string) : Prop :=
  match s with
  | EmptyString => True
  | String ch rest =>
      (ch <> ascii_of_nat 34 /\ ch <> ascii_of_nat 92) /\ plain_text rest
  end.

Local Close Scope string_scope.

(** * Specification-side definitions *)

(** ** A well-formed key (spec section 3)

    [valid_key] holds the invariants of the data model that Phases 1 and 2
    index with: [nVars > nPublic], every coefficient index in range, the
    tables as long as their index ranges, the sizes as the 32-bit and 64-bit
    fields hold them. It adds one bound that is no invariant of the spec,
    [valid_offset]: the byte offset of the fourth MSM is a 32-bit product in
    the source, and this bound keeps it from wrapping. The invariant
    "domainSize is a power of two" and the bounds of the [int] loop counters
    are not part of it; the theorems that need them state them as
    hypotheses of their own. *)

(** "domainSize is a power of two". *)
Definition power_of_two (n : Z) : Prop := exists k : Z, 0 <= k /\ n = 2 ^ k.

Definition coef_in_range (pk : Prover) (cf : Coef) : Prop :=
  0 <= coef_s cf < nVars pk /\ 0 <= coef_c cf < domainSize pk.

Record valid_key (pk : Prover) : Prop := mkValid {
  valid_public : 0 <= nPublic pk < nVars pk;
  valid_offset : (nPublic pk + 1) * sizeof_FrElement < 2 ^ 32;
  valid_vars : nVars pk < 2 ^ 32;
  valid_domain : 0 <= domainSize pk < 2 ^ 32;
  valid_ncoefs : 0 <= nCoefs pk < 2 ^ 64;
  valid_coefs : nCoefs pk <= Z.of_nat (length (coefs pk));
  valid_range : Forall (coef_in_range pk) (take (Z.to_nat (nCoefs pk)) (coefs pk));
  valid_pointsA : nVars pk <= Z.of_nat (length (pointsA pk));
  valid_pointsB1 : nVars pk <= Z.of_nat (length (pointsB1 pk));
  valid_pointsB2 : nVars pk <= Z.of_nat (length (pointsB2 pk));
  valid_pointsC : nVars pk - nPublic pk - 1 <= Z.of_nat (length (pointsC pk));
  valid_pointsH : domainSize pk <= Z.of_nat (length (pointsH pk))
}.

(** A key as the data model of the spec has it and as the source can
    process it: the invariants of section 3 ([nVars > nPublic], domainSize a
    power of two, every coefficient index in range, the tables as long as
    their index ranges), the counts within their 32-bit fields, and domainSize
    and nCoefs within what the [int] loop counters and the logging reads of
    the elements 0 and 1 allow. Nothing bounds the byte offset of the fourth
    MSM here. *)
Record well_formed_key (pk : Prover) : Prop := mkWellFormed {
  wf_public : 0 <= nPublic pk < nVars pk;
  wf_vars : nVars pk < 2 ^ 32;
  wf_domain : 2 <= domainSize pk < 2 ^ 31;
  wf_power : power_of_two (domainSize pk);
  wf_ncoefs : 0 <= nCoefs pk < 2 ^ 31;
  wf_coefs : nCoefs pk <= Z.of_nat (length (coefs pk));
  wf_range : Forall (coef_in_range pk) (take (Z.to_nat (nCoefs pk)) (coefs pk));
  wf_pointsA : nVars pk <= Z.of_nat (length (pointsA pk));
  wf_pointsB1 : nVars pk <= Z.of_nat (length (pointsB1 pk));
  wf_pointsB2 : nVars pk <= Z.of_nat (length (pointsB2 pk));
  wf_pointsC : nVars pk - nPublic pk - 1 <= Z.of_nat (length (pointsC pk));
  wf_pointsH : domainSize pk <= Z.of_nat (length (pointsH pk))
}.

(** ** The coefficient stream as a list *)

(** The scatter over a stream given as a list, record by record. *)
Fixpoint scatter_list (wtns : list FrElement) (cs : list Coef) (st : Arrays)
    : option Arrays :=
  match cs with
  | [] => Some st
  | cf :: rest => st' ← scatter_step wtns cf st; scatter_list wtns rest st'
  end.

(** [aux = wtns[s] · coef] of a record. *)
Definition aux_of (wtns : list FrElement) (cf : Coef) : FrElement :=
  Fr.mul (default Fr.zero (wtns !! Z.to_nat (coef_s cf))) (coef_coef cf).

(** A record targets bucket [j] of the A polynomial ([to_b = false], [m = 0])
    or of the B polynomial ([to_b = true], any other [m]). *)
Definition targets (to_b : bool) (j : nat) (cf : Coef) : bool :=
  (if coef_m cf =? 0 then negb to_b else to_b) &&
  (Z.to_nat (coef_c cf) =? j)%nat.

(** The serial sum [Σ wtns[s_k]·coef_k] over the records of a bucket, in
    stream order. *)
Definition bucket_sum (wtns : list FrElement) (to_b : bool) (j : nat)
    (cs : list Coef) : FrElement :=
  foldl Fr.add Fr.zero (map (aux_of wtns) (filter (fun cf => targets to_b j cf = true) cs)).

(** ** The coset chain and the quotient evaluations, as the spec words them *)

Section SpecSide.

Context {E : Engine}.

(** "iFFT of length domainSize, multiply element i by
    root(log2(domainSize)+1, i), FFT of length domainSize". *)
Definition coset_eval (pk : Prover) (x : list FrElement) : list FrElement :=
  fft_fft
    (imap (fun i e =>
             Fr.mul e (fft_root (fft_log2 (domainSize pk) + 1) (Z.of_nat i)))
          (fft_ifft x (domainSize pk)))
    (domainSize pk).

(** "a[i]·b[i] − c[i], then convert from Montgomery to natural form". *)
Definition h_eval (x y z : FrElement) : FrElement :=
  Fr.fromMontgomery (Fr.sub (Fr.mul x y) z).

Definition h_evals (a b c : list FrElement) : list FrElement :=
  zip_with (fun xy z => h_eval xy.1 xy.2 z) (zip a b) c.

Definition MSM_G1 := MSM g1_zero g1_add g1_mulByScalarA.

Definition MSM_G2 := MSM g2_zero g2_add g2_mulByScalarA.

End SpecSide.

(** ** A small engine to run the prover on

    The integers under addition stand in for both groups: an affine point
    counts as the value of its first coordinate, a scalar multiplication
    multiplies by the integer the scalar bytes encode. The transforms are the
    two-point transform on each pair of neighbours, which is the discrete
    Fourier transform of a domain of two points, and the roots are the roots
    of unity of the scalar field, all in Montgomery form. *)

Definition toy_g1_value (pt : G1PointAffine) : Z := raw_val (g1_x pt).

Definition toy_g2_value (pt : G2PointAffine) : Z := raw_val (f2_a (g2_x pt)).

(** A generator of the roots of unity of order 2^28 of the scalar field. *)
Definition toy_omega : Z :=
  0x2a3c09f0a58a7e8500e0a7eb8ef62abc402d111e41112ed49bd61b6e725b19f0.

(** The [i]-th power of the root of unity of order [2^k]. *)
Definition toy_root (k i : Z) : FrElement :=
  let w := Nat.iter (Z.to_nat (28 - k)) (fun x => x * x mod Fr.q) toy_omega in
  Fr_of_Z ((w ^ i mod Fr.q * Fr.R) mod Fr.q).

(** One half. *)
Definition toy_half : FrElement :=
  Fr_of_Z (((Fr.q + 1) / 2 * Fr.R) mod Fr.q).

(** [(x, y)] to [(x + y, x - y)] on each pair of neighbours. *)
Definition toy_butterfly (l : list FrElement) : list FrElement :=
  imap (fun i x =>
          if Nat.even i then Fr.add x (default Fr.zero (l !! Datatypes.S i))
          else Fr.sub (default Fr.zero (l !! Nat.pred i)) x) l.

Definition toy_fft (l : list FrElement) : list FrElement := toy_butterfly l.

Definition toy_ifft (l : list FrElement) : list FrElement :=
  map (Fr.mul toy_half) (toy_butterfly l).

#[local] Instance toy_engine : Engine := {|
  G1Point := Z;
  G2Point := Z;
  g1_zero := 0;
  g1_add := Z.add;
  g1_addA := fun pt q => pt + toy_g1_value q;
  g1_sub := Z.sub;
  g1_mulByScalar := fun pt k => le_decode k * pt;
  g1_mulByScalarA := fun q k => le_decode k * toy_g1_value q;
  g1_copy := fun pt => mkG1A (raw_of_Z pt) (raw_of_Z 1);
  g2_zero := 0;
  g2_add := Z.add;
  g2_addA := fun pt q => pt + toy_g2_value q;
  g2_mulByScalarA := fun q k => le_decode k * toy_g2_value q;
  g2_copy := fun pt => mkG2A (mkF2 (raw_of_Z pt) (raw_of_Z 0))
                             (mkF2 (raw_of_Z 1) (raw_of_Z 0));
  fft_log2 := fun n => Z.max 0 (Z.min 64 (Z.log2 n));
  fft_root := toy_root;
  fft_fft := fun a _ => toy_fft a;
  fft_ifft := fun a _ => toy_ifft a;
  fft_fft_length := fun a _ => length_imap _ a;
  fft_ifft_length := fun a _ =>
    eq_trans (length_map (Fr.mul toy_half) (toy_butterfly a))
             (length_imap _ a);
  fft_log2_range := fun n =>
    conj (Z.le_max_l 0 (Z.min 64 (Z.log2 n)))
         (Z.max_lub 0 (Z.min 64 (Z.log2 n)) 64
            (Z.lt_le_incl 0 64 eq_refl) (Z.le_min_l 64 (Z.log2 n)))
|}.

(** ** Auxiliary definitions for the proofs *)

(** An array whose first [j] cells already hold their final values. *)
Definition splice {A : Type} (j : nat) (new old : list A) : list A :=
  take j new ++ drop j old.

(** [ab[c] += aux] on one array. *)
Definition bump (l : list FrElement) (i : nat) (aux : FrElement)
    : option (list FrElement) :=
  old ← load l i; store l i (Fr.add old aux).

(** The effect of one record once its addend is known. *)
Definition apply_record (to_a : bool) (i : nat) (aux : FrElement) (st : Arrays)
    : option Arrays :=
  if to_a then
    (fun a' => mkArrays a' (arr_b st) (arr_c st)) <$> bump (arr_a st) i aux
  else
    (fun b' => mkArrays (arr_a st) b' (arr_c st)) <$> bump (arr_b st) i aux.

(** The array of the A polynomial or of the B polynomial. *)
Definition bucket_array (to_b : bool) (st : Arrays) : list FrElement :=
  if to_b then arr_b st else arr_a st.

(** A key with another coefficient stream. *)
Definition with_coefs (pk : Prover) (cs : list Coef) : Prover :=
  mkProver (nVars pk) (nPublic pk) (domainSize pk) (Z.of_nat (length cs))
           (vk_alpha1 pk) (vk_beta1 pk) (vk_beta2 pk) (vk_delta1 pk)
           (vk_delta2 pk) cs (pointsA pk) (pointsB1 pk) (pointsB2 pk)
           (pointsC pk) (pointsH pk).

(** ** A small instance to run on

    Three signals (the constant, one public input, one private), a domain of
    two points and three coefficient records; a byte source whose first 32
    bytes give a candidate that the sampler rejects. *)

Definition demo_g1 (k : Z) : G1PointAffine :=
  mkG1A (raw_of_Z k) (raw_of_Z (k + 1)).

Definition demo_g2 (k : Z) : G2PointAffine :=
  mkG2A (mkF2 (raw_of_Z k) (raw_of_Z (k + 1)))
        (mkF2 (raw_of_Z (k + 2)) (raw_of_Z (k + 3))).

Definition demo_coefs : list Coef :=
  [mkCoef 0 0 1 (Fr_of_Z 5); mkCoef 1 0 2 (Fr_of_Z 6); mkCoef 0 1 0 (Fr_of_Z 7)].

(** A stream in which records meet: two for a[0], two for b[0], two for
    a[1], one for b[1]. *)
Definition demo_coefs_meet : list Coef :=
  [mkCoef 0 0 1 (Fr_of_Z 5); mkCoef 1 0 2 (Fr_of_Z 6);
   mkCoef 0 0 2 (Fr_of_Z 8); mkCoef 1 0 0 (Fr_of_Z 9);
   mkCoef 0 1 0 (Fr_of_Z 7); mkCoef 0 1 1 (Fr_of_Z 2);
   mkCoef 1 1 1 (Fr_of_Z 4)].

Definition demo_key : Prover :=
  mkProver 3 1 2 3 (demo_g1 2) (demo_g1 3) (demo_g2 5) (demo_g1 7) (demo_g2 11)
    demo_coefs
    [demo_g1 13; demo_g1 17; demo_g1 19] [demo_g1 23; demo_g1 29; demo_g1 31]
    [demo_g2 37; demo_g2 41; demo_g2 43] [demo_g1 47] [demo_g1 53; demo_g1 59].

Definition demo_wtns : list FrElement := [Fr_of_Z 1; Fr_of_Z 3; Fr_of_Z 5].

(** The same witness followed by one more element. *)
Definition demo_wtns_long : list FrElement := demo_wtns ++ [Fr_of_Z 9].

Definition demo_uninit : Uninit :=
  mkUninit (fun i => Fr_of_Z (Z.of_nat i + 100)) (fun _ => Fr_of_Z 200)
           (fun _ => Fr_of_Z 7) (Fr_of_Z 300) (Fr_of_Z 400).

Definition demo_src (i : nat) : byte :=
  if (i <? 32)%nat then Byte.xff
  else if (i mod 32 =? 31)%nat then Byte.x1f else Byte.x07.

Definition demo_rng : Rng := mkRng demo_src 0.

(** The arrays of the run when the three chains start. *)
Definition demo_st0 : Arrays :=
  Eval vm_compute in
    default (mkArrays [] [] [])
            (accumulate zero_body demo_uninit demo_key demo_wtns).

(** The proof of the run. *)
Definition demo_proof : Proof :=
  Eval vm_compute in
    match prove demo_uninit 4 demo_key demo_wtns demo_rng with
    | Returns (pf, _) => pf
    | _ => mkProof (demo_g1 0) (demo_g2 0) (demo_g1 0)
    end.

(** * [makeProver] (lines 18-39)

    The factory receives untyped pointers. The key tables and the five
    verifying-key points are taken here at the types they are cast to; the
    coefficient table is taken as the bytes of the caller's buffer, because
    the source moves that pointer four bytes forward before the cast. *)

(** [sizeof(Coef<Engine>)]: the record is packed, three [uint32_t] and one
    element. *)
Definition sizeof_Coef : nat := 44.

(** The bytes of a record as they lie in memory. *)
Definition coef_bytes (cf : Coef) : list byte :=
  le_encode 4 (coef_m cf) ++ le_encode 4 (coef_c cf) ++
  le_encode 4 (coef_s cf) ++ Fr_bytes (coef_coef cf).

(** The record read from 44 bytes of memory. *)
Definition coef_of_bytes (bs : list byte) : Coef :=
  mkCoef (le_decode (take 4 bs))
         (le_decode (take 4 (drop 4 bs)))
         (le_decode (take 4 (drop 8 bs)))
         (mkFr (raw_of_bytes (drop 12 bs))).

(** The array a [Coef*] designates inside a buffer: record [i] is the 44
    bytes at offset [44 i], for as many whole records as the buffer holds. *)
Definition coefs_at (buf : list byte) : list Coef :=
  map (fun i => coef_of_bytes (take sizeof_Coef (drop (i * sizeof_Coef) buf)))
      (seq 0 (length buf / sizeof_Coef)).

(** A stream of records behind a four-byte header, as a buffer. *)
Definition coefs_buffer (header : list byte) (cs : list Coef) : list byte :=
  header ++ concat (map coef_bytes cs).

(** Lines 26-38. The constructor stores its arguments in the order given. *)
Definition makeProver (nVars nPublic domainSize nCoeffs : Z)
    (vk_alpha1 vk_beta_1 : G1PointAffine) (vk_beta_2 : G2PointAffine)
    (vk_delta_1 : G1PointAffine) (vk_delta_2 : G2PointAffine)
    (coefs : list byte)
    (pointsA pointsB1 : list G1PointAffine) (pointsB2 : list G2PointAffine)
    (pointsC pointsH : list G1PointAffine) : Prover :=
  mkProver nVars nPublic domainSize nCoeffs
           vk_alpha1 vk_beta_1 vk_beta_2 vk_delta_1 vk_delta_2
           (coefs_at (drop 4 coefs))
           pointsA pointsB1 pointsB2 pointsC pointsH.

(** A record whose fields fit their C types. *)
Definition coef_wf (cf : Coef) : Prop :=
  0 <= coef_m cf < 2 ^ 32 /\ 0 <= coef_c cf < 2 ^ 32 /\
  0 <= coef_s cf < 2 ^ 32 /\ limbs_ok (v (coef_coef cf)).

(** ** Further definitions for the properties of [prove] *)

(** A record is within the buffers it indexes: [s] in the witness buffer,
    [c] in arrays of [n] elements. *)
Definition record_in_bounds (wtns : list FrElement) (n : nat) (cf : Coef) : Prop :=
  (Z.to_nat (coef_s cf) < length wtns)%nat /\ (Z.to_nat (coef_c cf) < n)%nat.


(** A record with its selector brought to 0 or 1. *)
Definition normalize_m (cf : Coef) : Coef :=
  mkCoef (if coef_m cf =? 0 then 0 else 1) (coef_c cf) (coef_s cf)
         (coef_coef cf).

(** A byte source that plays the given bytes first. *)
Definition tape (bs : list byte) : Rng :=
  mkRng (fun i => nth i bs Byte.x00) 0.

(** The eight coordinate strings a proof is printed with. *)
Definition coordinate_strings (pf : Proof) : list string :=
  [F1.toString (g1_x (proof_A pf)); F1.toString (g1_y (proof_A pf));
   F1.toString (f2_a (g2_x (proof_B pf))); F1.toString (f2_b (g2_x (proof_B pf)));
   F1.toString (f2_a (g2_y (proof_B pf))); F1.toString (f2_b (g2_y (proof_B pf)));
   F1.toString (g1_x (proof_C pf)); F1.toString (g1_y (proof_C pf))].

(** A string without the double-quote character. *)
Fixpoint quote_free (s : string) : Prop :=
  match s with
  | EmptyString => True
  | String ch rest => ch <> ascii_of_nat 34 /\ quote_free rest
  end.

(** A key with a function applied to every record of its table. *)
Definition map_coefs (f : Coef -> Coef) (pk : Prover) : Prover :=
  mkProver (nVars pk) (nPublic pk) (domainSize pk) (nCoefs pk)
           (vk_alpha1 pk) (vk_beta1 pk) (vk_beta2 pk) (vk_delta1 pk)
           (vk_delta2 pk) (map f (coefs pk)) (pointsA pk) (pointsB1 pk)
           (pointsB2 pk) (pointsC pk) (pointsH pk).

(** ** Further small instances *)

(** The four bytes in front of the records of the small table: its count. *)
Definition demo_header : list byte := le_encode 4 3.

(** A key of the size at which the 32-bit byte offset of the fourth MSM
    wraps: 2^27 - 1 public inputs and one private signal. *)
Definition wrap_key : Prover :=
  mkProver (2 ^ 27 + 1) (2 ^ 27 - 1) 2 3
    (demo_g1 2) (demo_g1 3) (demo_g2 5) (demo_g1 7) (demo_g2 11)
    demo_coefs
    (replicate (Z.to_nat (2 ^ 27 + 1)) (demo_g1 13))
    (replicate (Z.to_nat (2 ^ 27 + 1)) (demo_g1 23))
    (replicate (Z.to_nat (2 ^ 27 + 1)) (demo_g2 37))
    [demo_g1 47] [demo_g1 53; demo_g1 59].

(** Its witness: the constant 1, the public inputs (all 2), the private
    signal 3. *)
Definition wrap_wtns : list FrElement :=
  Fr_of_Z 1 :: replicate (Z.to_nat (2 ^ 27 - 1)) (Fr_of_Z 2) ++ [Fr_of_Z 3].

(** A key with other variable counts. *)
Definition with_counts (pk : Prover) (nV nP : Z) : Prover :=
  mkProver nV nP (domainSize pk) (nCoefs pk)
           (vk_alpha1 pk) (vk_beta1 pk) (vk_beta2 pk) (vk_delta1 pk)
           (vk_delta2 pk) (coefs pk) (pointsA pk) (pointsB1 pk) (pointsB2 pk)
           (pointsC pk) (pointsH pk).

(** A key with another H table. *)
Definition with_pointsH (pk : Prover) (pH : list G1PointAffine) : Prover :=
  mkProver (nVars pk) (nPublic pk) (domainSize pk) (nCoefs pk)
           (vk_alpha1 pk) (vk_beta1 pk) (vk_beta2 pk) (vk_delta1 pk)
           (vk_delta2 pk) (coefs pk) (pointsA pk) (pointsB1 pk) (pointsB2 pk)
           (pointsC pk) pH.

(** * Basic facts *)

Lemma le_decode_bound (bs : list byte) :
  0 <= le_decode bs < 256 ^ Z.of_nat (length bs).
Proof.
  induction bs as [|b bs IH]; cbn [le_decode length].
  - simpl. lia.
  - pose proof (byte.unsigned_range b) as Hb.
    rewrite Nat2Z.inj_succ, Z.pow_succ_r by lia.
    change (2 ^ 8) with 256 in Hb. lia.
Qed.

Lemma le_decode_encode (n : nat) (z : Z) :
  le_decode (le_encode n z) = z mod 256 ^ Z.of_nat n.
Proof.
  revert z; induction n as [|n IH]; intro z; cbn [le_encode le_decode].
  - simpl. now rewrite Z.mod_1_r.
  - rewrite IH, byte.unsigned_of_Z. unfold byte.wrap.
    rewrite Nat2Z.inj_succ, Z.pow_succ_r by lia.
    change (2 ^ 8) with 256.
    rewrite Z.rem_mul_r by lia. reflexivity.
Qed.

Lemma le_encode_length (n : nat) (z : Z) : length (le_encode n z) = n.
Proof. revert z; induction n; intro z; simpl; auto. Qed.

Lemma le_decode_app (xs ys : list byte) :
  le_decode (xs ++ ys) = le_decode xs + 256 ^ Z.of_nat (length xs) * le_decode ys.
Proof.
  induction xs as [|b xs IH]; cbn [app le_decode length].
  - simpl. lia.
  - rewrite IH, Nat2Z.inj_succ, Z.pow_succ_r by lia. ring.
Qed.

Lemma wrap64_range (z : Z) : 0 <= wrap64 z < 2 ^ 64.
Proof. unfold wrap64. apply Z.mod_pos_bound. reflexivity. Qed.

Lemma wrap64_small (z : Z) : 0 <= z < 2 ^ 64 -> wrap64 z = z.
Proof. intro H. unfold wrap64. now apply Z.mod_small. Qed.

Lemma raw_val_range (x : FrRawElement) : 0 <= raw_val x < 2 ^ 256.
Proof.
  unfold raw_val.
  pose proof (wrap64_range (limb0 x)). pose proof (wrap64_range (limb1 x)).
  pose proof (wrap64_range (limb2 x)). pose proof (wrap64_range (limb3 x)).
  change (2 ^ 64) with 18446744073709551616 in *.
  change (2 ^ 128) with (18446744073709551616 * 18446744073709551616).
  change (2 ^ 192) with
    (18446744073709551616 * 18446744073709551616 * 18446744073709551616).
  change (2 ^ 256) with
    (18446744073709551616 * 18446744073709551616 *
     18446744073709551616 * 18446744073709551616).
  nia.
Qed.

Lemma raw_val_of_Z (z : Z) : raw_val (raw_of_Z z) = z mod 2 ^ 256.
Proof.
  unfold raw_val, raw_of_Z; cbn [limb0 limb1 limb2 limb3].
  unfold wrap64.
  rewrite !Z.mod_mod by (vm_compute; discriminate).
  change (2 ^ 256) with (2 ^ 64 * (2 ^ 64 * (2 ^ 64 * 2 ^ 64))).
  change (2 ^ 128) with (2 ^ 64 * 2 ^ 64).
  change (2 ^ 192) with (2 ^ 64 * 2 ^ 64 * 2 ^ 64).
  rewrite <- !Z.div_div by (vm_compute; first [discriminate | reflexivity]).
  rewrite !Z.rem_mul_r by (vm_compute; first [discriminate | reflexivity]).
  ring.
Qed.

Lemma raw_bytes_length (x : FrRawElement) : length (raw_bytes x) = 32%nat.
Proof. unfold raw_bytes. now rewrite !length_app, !le_encode_length. Qed.

Lemma Fr_bytes_length (x : FrElement) : length (Fr_bytes x) = 32%nat.
Proof. apply raw_bytes_length. Qed.

Lemma le_decode_raw_bytes (x : FrRawElement) : le_decode (raw_bytes x) = raw_val x.
Proof.
  unfold raw_bytes, raw_val, wrap64.
  rewrite !le_decode_app, !le_decode_encode, !le_encode_length.
  change (256 ^ Z.of_nat 8) with (2 ^ 64).
  change (2 ^ 128) with (2 ^ 64 * 2 ^ 64).
  change (2 ^ 192) with (2 ^ 64 * 2 ^ 64 * 2 ^ 64).
  ring.
Qed.

(** The bytes of an element encode its value. *)
Lemma le_decode_Fr_bytes (x : FrElement) : le_decode (Fr_bytes x) = Fr_val x.
Proof. apply le_decode_raw_bytes. Qed.

Lemma Fr_val_range (x : FrElement) : 0 <= Fr_val x < 2 ^ 256.
Proof. apply raw_val_range. Qed.

Lemma Fr_val_of_Z_mod (z : Z) : Fr_val (Fr_of_Z (z mod Fr.q)) = z mod Fr.q.
Proof.
  unfold Fr_val, Fr_of_Z; cbn [v]. rewrite raw_val_of_Z.
  apply Z.mod_small.
  pose proof (Z.mod_pos_bound z Fr.q eq_refl) as H.
  split; [lia|]. eapply Z.lt_trans; [apply H|]. reflexivity.
Qed.

(** ** Field arithmetic *)

Lemma Fr_add_val (x y : FrElement) :
  Fr_val (Fr.add x y) = (Fr_val x + Fr_val y) mod Fr.q.
Proof. unfold Fr.add. apply Fr_val_of_Z_mod. Qed.

(** Two addends reach a bucket in either order with the same result. *)
Lemma Fr_add_swap (o x y : FrElement) :
  Fr.add (Fr.add o x) y = Fr.add (Fr.add o y) x.
Proof.
  unfold Fr.add at 1 3. rewrite !Fr_add_val, !Zplus_mod_idemp_l.
  do 2 f_equal. ring.
Qed.

Lemma Fr_R_Rinv : (Fr.Rinv * Fr.R) mod Fr.q = 1.
Proof. reflexivity. Qed.

(** The Montgomery product followed by [toMontgomery] is the plain product
    of the two raw values modulo [q]. *)
Lemma Fr_toMontgomery_mul (r s : FrElement) :
  Fr_val (Fr.toMontgomery (Fr.mul r s)) = (Fr_val r * Fr_val s) mod Fr.q.
Proof.
  unfold Fr.toMontgomery, Fr.mul.
  rewrite !Fr_val_of_Z_mod, Z.mul_mod_idemp_l by discriminate.
  rewrite <- Z.mul_assoc, <- Z.mul_mod_idemp_r by discriminate.
  rewrite Fr_R_Rinv. now rewrite Z.mul_1_r.
Qed.

(** ** The limb comparison against the modulus *)

Lemma raw_val_fr_modulus : raw_val fr_modulus = Fr.q.
Proof. reflexivity. Qed.

Lemma limbs_ok_fr_modulus : limbs_ok fr_modulus.
Proof. unfold limbs_ok; cbn. lia. Qed.

Lemma raw_val_limbs_ok (x : FrRawElement) :
  limbs_ok x ->
  raw_val x = limb0 x + 2 ^ 64 * limb1 x + 2 ^ 128 * limb2 x + 2 ^ 192 * limb3 x.
Proof.
  intros (H0 & H1 & H2 & H3). unfold raw_val.
  now rewrite !wrap64_small.
Qed.

Lemma mpn_cmp_sign (x y : FrRawElement) :
  limbs_ok x -> limbs_ok y ->
  (0 <=? mpn_cmp (limbs x) (limbs y) Fr_N64) = (raw_val y <=? raw_val x).
Proof.
  intros Hx Hy.
  rewrite (raw_val_limbs_ok x Hx), (raw_val_limbs_ok y Hy).
  destruct Hx as (X0 & X1 & X2 & X3), Hy as (Y0 & Y1 & Y2 & Y3).
  unfold mpn_cmp, limbs, Fr_N64; cbn [take rev app mpn_cmp_down].
  change (2 ^ 64) with 18446744073709551616 in *.
  change (2 ^ 128) with (18446744073709551616 * 18446744073709551616).
  change (2 ^ 192) with
    (18446744073709551616 * 18446744073709551616 * 18446744073709551616).
  repeat match goal with
         | |- context [?a =? ?b] => destruct (Z.eqb_spec a b)
         | |- context [?a <? ?b] => destruct (Z.ltb_spec a b)
         end; cbn [Z.leb Z.compare]; symmetry;
    first [ apply Z.leb_le | apply Z.leb_gt ]; nia.
Qed.

Lemma limbs_ok_raw_of_bytes (bs : list byte) : limbs_ok (raw_of_bytes bs).
Proof.
  assert (H : forall l : list byte, 0 <= le_decode (take 8 l) < 2 ^ 64).
  { intro l. pose proof (le_decode_bound (take 8 l)) as [Hlo Hhi].
    split; [exact Hlo|]. eapply Z.lt_le_trans; [exact Hhi|].
    change (2 ^ 64) with (256 ^ 8).
    apply Z.pow_le_mono_r; [lia|]. rewrite length_take. lia. }
  unfold limbs_ok, raw_of_bytes; cbn [limb0 limb1 limb2 limb3]. auto.
Qed.

Lemma mask_top_limb3 (r : FrElement) :
  limb3 (v (mask_top r)) = limb3 (v r) mod 2 ^ 62.
Proof.
  unfold mask_top; cbn [v limb3].
  change 0x3FFFFFFFFFFFFFFF with (Z.ones 62). apply Z.land_ones. lia.
Qed.

Lemma limbs_ok_mask_top (r : FrElement) :
  limbs_ok (v r) -> limbs_ok (v (mask_top r)).
Proof.
  intros (H0 & H1 & H2 & H3). unfold limbs_ok.
  rewrite mask_top_limb3. unfold mask_top; cbn [v limb0 limb1 limb2].
  pose proof (Z.mod_pos_bound (limb3 (v r)) (2 ^ 62) eq_refl).
  change (2 ^ 62) with 4611686018427387904 in *.
  change (2 ^ 64) with 18446744073709551616 in *. lia.
Qed.

(** ** The rejection loop *)

Lemma sample_once_unfold (g : Rng) :
  sample_once g =
  (candidate g 0,
   mpn_cmp (limbs (v (candidate g 0))) (limbs fr_modulus) Fr_N64,
   mkRng (rng_src g) (rng_pos g + 32)).
Proof.
  destruct g as [src pos]. unfold candidate, sample_once, randombytes_buf.
  cbn [rng_src rng_pos fst snd]. now rewrite Nat.add_0_r.
Qed.

Lemma candidate_shift (g : Rng) (k : nat) :
  candidate (mkRng (rng_src g) (rng_pos g + 32)) k = candidate g (S k).
Proof.
  unfold candidate; cbn [rng_src rng_pos].
  do 4 f_equal. change (Z.to_nat sizeof_FrElement) with 32%nat. lia.
Qed.

Lemma limbs_ok_candidate (g : Rng) (k : nat) : limbs_ok (v (candidate g k)).
Proof.
  unfold candidate, sample_once, randombytes_buf; cbn [fst snd].
  apply limbs_ok_mask_top; cbn [v]. apply limbs_ok_raw_of_bytes.
Qed.

(** The loop goes round again exactly when the candidate is not below [q]. *)
Lemma candidate_cmp (g : Rng) (k : nat) :
  (0 <=? mpn_cmp (limbs (v (candidate g k))) (limbs fr_modulus) Fr_N64) =
  (Fr.q <=? Fr_val (candidate g k)).
Proof.
  rewrite mpn_cmp_sign by
    (apply limbs_ok_candidate || apply limbs_ok_fr_modulus).
  now rewrite raw_val_fr_modulus.
Qed.

Lemma sample_loop_done (fuel : nat) (cmp : Z) (r : FrElement) (g : Rng) :
  (0 <=? cmp) = false -> sample_loop fuel cmp r g = Some (r, g).
Proof. intro H. destruct fuel; cbn [sample_loop]; now rewrite H. Qed.

Lemma sample_loop_spec (fuel : nat) :
  forall (cmp : Z) (r : FrElement) (g : Rng),
    (0 <=? cmp) = true ->
    match sample_loop fuel cmp r g with
    | Some (r', g') =>
        exists k : nat,
          (k < fuel)%nat /\ r' = candidate g k /\
          g' = mkRng (rng_src g) (rng_pos g + (k + 1) * 32) /\
          (forall j : nat, (j < k)%nat -> Fr.q <= Fr_val (candidate g j)) /\
          0 <= Fr_val r' < Fr.q
    | None =>
        forall j : nat, (j < fuel)%nat -> Fr.q <= Fr_val (candidate g j)
    end.
Proof.
  induction fuel as [|fuel IH]; intros cmp r g Hcmp; cbn [sample_loop];
    rewrite Hcmp.
  - intros j Hj. lia.
  - rewrite sample_once_unfold.
    pose proof (candidate_cmp g 0) as Hc.
    destruct (0 <=? mpn_cmp (limbs (v (candidate g 0))) (limbs fr_modulus) Fr_N64)
      eqn:Hgo.
    + symmetry in Hc. apply Z.leb_le in Hc.
      specialize (IH _ (candidate g 0) (mkRng (rng_src g) (rng_pos g + 32)) Hgo).
      destruct (sample_loop fuel _ (candidate g 0) _) as [[r' g']|].
      * destruct IH as (k & Hk & Hr & Hg & Hrej & Hacc).
        cbn [rng_src rng_pos] in Hg.
        exists (S k). rewrite <- candidate_shift.
        split; [lia|]. split; [exact Hr|]. split; [|split; [|exact Hacc]].
        -- rewrite Hg. f_equal. lia.
        -- intros [|j] Hj; [exact Hc|].
           rewrite <- candidate_shift. apply Hrej. lia.
      * intros [|j] Hj; [exact Hc|].
        rewrite <- candidate_shift. apply IH. lia.
    + rewrite sample_loop_done by exact Hgo.
      symmetry in Hc. apply Z.leb_gt in Hc.
      exists 0%nat.
      split; [lia|]. split; [reflexivity|]. split; [reflexivity|].
      split; [intros j Hj; lia|].
      split; [apply Fr_val_range | exact Hc].
Qed.


(** ** Loops and arrays *)

(** A loop whose every pass takes the state [P j] to [P (j + 1)]. *)
Lemma for_loop_invariant {S : Type} (body : nat -> S -> option S) (P : nat -> S) :
  forall (cnt i : nat),
    (forall j : nat, (i <= j < i + cnt)%nat -> body j (P j) = Some (P (Datatypes.S j))) ->
    for_loop body i cnt (P i) = Some (P (i + cnt)%nat).
Proof.
  induction cnt as [|cnt IH]; intros i Hstep; cbn [for_loop].
  - now rewrite Nat.add_0_r.
  - rewrite Hstep by lia. cbn.
    rewrite IH by (intros j Hj; apply Hstep; lia).
    f_equal. f_equal. lia.
Qed.

Lemma store_Some {A : Type} (a : list A) (i : nat) (x : A) :
  (i < length a)%nat -> store a i x = Some (<[i := x]> a).
Proof.
  intro H. unfold store.
  destruct (Nat.ltb_spec i (length a)); [reflexivity | lia].
Qed.

Lemma store_None {A : Type} (a : list A) (i : nat) (x : A) :
  (length a <= i)%nat -> store a i x = None.
Proof.
  intro H. unfold store.
  destruct (Nat.ltb_spec i (length a)); [lia | reflexivity].
Qed.

Lemma store_length {A : Type} (a a' : list A) (i : nat) (x : A) :
  store a i x = Some a' -> length a' = length a.
Proof.
  unfold store. destruct (i <? length a)%nat; [|discriminate].
  intros [= <-]. apply length_insert.
Qed.

Lemma splice_length {A : Type} (j : nat) (new old : list A) :
  length new = length old -> length (splice j new old) = length old.
Proof.
  intro H. unfold splice. rewrite length_app, length_take, length_drop. lia.
Qed.

Lemma splice_0 {A : Type} (new old : list A) : splice 0 new old = old.
Proof. reflexivity. Qed.

Lemma splice_all {A : Type} (j : nat) (new old : list A) :
  length new = length old -> (length old <= j)%nat -> splice j new old = new.
Proof.
  intros H Hj. unfold splice.
  rewrite take_ge, drop_ge by lia. apply app_nil_r.
Qed.

Lemma load_splice {A : Type} (j : nat) (new old : list A) :
  length new = length old -> load (splice j new old) j = old !! j.
Proof.
  intro H. unfold load, splice.
  destruct (Nat.le_gt_cases j (length old)) as [Hle|Hgt].
  - rewrite lookup_app_r by (rewrite length_take; lia).
    rewrite length_take, lookup_drop. f_equal. lia.
  - rewrite take_ge, drop_ge, app_nil_r by lia.
    rewrite !lookup_ge_None_2 by lia. reflexivity.
Qed.

Lemma insert_splice {A : Type} (j : nat) (new old : list A) (x : A) :
  length new = length old -> new !! j = Some x ->
  <[j := x]> (splice j new old) = splice (Datatypes.S j) new old.
Proof.
  intros H Hx. pose proof (lookup_lt_Some _ _ _ Hx) as Hj.
  destruct (lookup_lt_is_Some_2 old j ltac:(lia)) as [y Hy].
  unfold splice.
  rewrite insert_app_r_alt by (rewrite length_take; lia).
  rewrite length_take, Nat.min_l, Nat.sub_diag by lia.
  rewrite (drop_S old y j Hy). cbn [list_insert insert].
  rewrite (take_S_r new j x Hx), <- app_assoc. reflexivity.
Qed.

Lemma store_splice {A : Type} (j : nat) (new old : list A) (x : A) :
  length new = length old -> new !! j = Some x ->
  store (splice j new old) j x = Some (splice (Datatypes.S j) new old).
Proof.
  intros H Hx. pose proof (lookup_lt_Some _ _ _ Hx) as Hj.
  rewrite store_Some by (rewrite splice_length; lia).
  now rewrite insert_splice.
Qed.

Lemma new_array_length (heap : nat -> FrElement) (n : Z) :
  length (new_array heap n) = Z.to_nat n.
Proof. unfold new_array. now rewrite length_map, length_seq. Qed.

(** *** The zeroing loop *)

Lemma zero_loop (n : nat) (a b c : list FrElement) :
  length a = n -> length b = n ->
  for_loop zero_body 0 n (mkArrays a b c) =
  Some (mkArrays (replicate n Fr.zero) (replicate n Fr.zero) c).
Proof.
  intros Ha Hb.
  pose (P := fun j => mkArrays (splice j (replicate n Fr.zero) a)
                               (splice j (replicate n Fr.zero) b) c).
  change (mkArrays a b c) with (P 0%nat).
  rewrite (for_loop_invariant zero_body P).
  - unfold P. cbn [Nat.add].
    rewrite !splice_all by (rewrite ?length_replicate; lia). reflexivity.
  - intros j Hj. unfold P, zero_body; cbn [arr_a arr_b arr_c].
    rewrite !store_splice
      by (rewrite ?length_replicate; try lia; apply lookup_replicate_2; lia).
    reflexivity.
Qed.

Lemma zero_all_loop (n : nat) (a b c : list FrElement) :
  length a = n -> length b = n -> length c = n ->
  for_loop zero_all_body 0 n (mkArrays a b c) =
  Some (mkArrays (replicate n Fr.zero) (replicate n Fr.zero)
                 (replicate n Fr.zero)).
Proof.
  intros Ha Hb Hc.
  pose (P := fun j => mkArrays (splice j (replicate n Fr.zero) a)
                               (splice j (replicate n Fr.zero) b)
                               (splice j (replicate n Fr.zero) c)).
  change (mkArrays a b c) with (P 0%nat).
  rewrite (for_loop_invariant zero_all_body P).
  - unfold P. cbn [Nat.add].
    rewrite !splice_all by (rewrite ?length_replicate; lia). reflexivity.
  - intros j Hj. unfold P, zero_all_body; cbn [arr_a arr_b arr_c].
    rewrite !store_splice
      by (rewrite ?length_replicate; try lia; apply lookup_replicate_2; lia).
    reflexivity.
Qed.

(** *** The pointwise product [c = a·b] *)

Lemma product_loop (n : nat) (a b c : list FrElement) :
  length a = n -> length b = n -> length c = n ->
  for_loop product_body 0 n (mkArrays a b c) =
  Some (mkArrays a b (zip_with Fr.mul a b)).
Proof.
  intros Ha Hb Hc.
  pose (P := fun j => mkArrays a b (splice j (zip_with Fr.mul a b) c)).
  assert (Hlen : length (zip_with Fr.mul a b) = length c)
    by (rewrite length_zip_with; lia).
  change (mkArrays a b c) with (P 0%nat).
  rewrite (for_loop_invariant product_body P).
  - unfold P. cbn [Nat.add]. rewrite splice_all by lia. reflexivity.
  - intros j Hj. unfold P, product_body, load; cbn [arr_a arr_b arr_c].
    destruct (lookup_lt_is_Some_2 a j ltac:(lia)) as [x Hx].
    destruct (lookup_lt_is_Some_2 b j ltac:(lia)) as [y Hy].
    rewrite Hx, Hy; cbn.
    rewrite store_splice; [reflexivity | exact Hlen |].
    rewrite lookup_zip_with, Hx, Hy. reflexivity.
Qed.

(** *** The coset shift *)

Lemma shift_loop {E : Engine} (domainPower : Z) (x : list FrElement) :
  for_loop (shift_body domainPower) 0 (length x) x =
  Some (imap (fun i e =>
                Fr.mul e (fft_root (wrap32 (domainPower + 1)) (Z.of_nat i))) x).
Proof.
  set (f := fun i e => Fr.mul e (fft_root (wrap32 (domainPower + 1)) (Z.of_nat i))).
  pose (P := fun j => splice j (imap f x) x).
  change x with (P 0%nat) at 2.
  rewrite (for_loop_invariant (shift_body domainPower) P).
  - unfold P. cbn [Nat.add]. rewrite splice_all; [reflexivity | | lia].
    apply length_imap.
  - intros j Hj. unfold P, shift_body.
    rewrite load_splice by apply length_imap.
    destruct (lookup_lt_is_Some_2 x j ltac:(lia)) as [e He].
    rewrite He; cbn.
    apply store_splice; [apply length_imap|].
    rewrite list_lookup_imap, He. reflexivity.
Qed.

(** *** The pointwise reduction [a = fromMontgomery (a·b − c)] *)

Lemma h_evals_length {E : Engine} (n : nat) (a b c : list FrElement) :
  length a = n -> length b = n -> length c = n -> length (h_evals a b c) = n.
Proof.
  intros Ha Hb Hc. unfold h_evals.
  rewrite length_zip_with, length_zip. lia.
Qed.

Lemma h_evals_lookup {E : Engine} (a b c : list FrElement) (j : nat) (x y z : FrElement) :
  a !! j = Some x -> b !! j = Some y -> c !! j = Some z ->
  h_evals a b c !! j = Some (h_eval x y z).
Proof.
  intros Hx Hy Hz. unfold h_evals.
  rewrite !lookup_zip_with, Hx, Hy, Hz.
  reflexivity.
Qed.

Lemma abc_loop {E : Engine} (n : nat) (a b c : list FrElement) :
  length a = n -> length b = n -> length c = n ->
  for_loop abc_body 0 n (mkArrays a b c) =
  Some (mkArrays (h_evals a b c) b c).
Proof.
  intros Ha Hb Hc.
  pose (P := fun j => mkArrays (splice j (h_evals a b c) a) b c).
  assert (Hlen : length (h_evals a b c) = length a)
    by (rewrite (h_evals_length n); lia).
  change (mkArrays a b c) with (P 0%nat).
  rewrite (for_loop_invariant abc_body P).
  - unfold P. cbn [Nat.add]. rewrite splice_all by lia. reflexivity.
  - intros j Hj. unfold P, abc_body; cbn [arr_a arr_b arr_c].
    destruct (lookup_lt_is_Some_2 a j ltac:(lia)) as [x Hx].
    destruct (lookup_lt_is_Some_2 b j ltac:(lia)) as [y Hy].
    destruct (lookup_lt_is_Some_2 c j ltac:(lia)) as [z Hz].
    assert (Hj' : (j < length (splice j (h_evals a b c) a))%nat)
      by (rewrite splice_length; lia).
    rewrite load_splice by exact Hlen.
    unfold load. rewrite Hx, Hy, Hz; cbn.
    rewrite store_Some by exact Hj'. cbn.
    rewrite list_lookup_insert_eq by exact Hj'. cbn.
    rewrite store_Some by (rewrite length_insert; exact Hj'). cbn.
    rewrite list_lookup_insert_eq by (rewrite length_insert; exact Hj'). cbn.
    rewrite store_Some by (rewrite !length_insert; exact Hj'). cbn.
    rewrite !list_insert_insert_eq.
    rewrite insert_splice; [reflexivity | exact Hlen |].
    now apply h_evals_lookup.
Qed.

(** ** Buffers of elements seen as bytes *)

Lemma Fr_buf_bytes_cons (e : FrElement) (w : list FrElement) :
  Fr_buf_bytes (e :: w) = Fr_bytes e ++ Fr_buf_bytes w.
Proof. reflexivity. Qed.

Lemma Fr_buf_bytes_length (w : list FrElement) :
  length (Fr_buf_bytes w) = (length w * 32)%nat.
Proof.
  induction w as [|e w IH]; [reflexivity|].
  rewrite Fr_buf_bytes_cons, length_app, Fr_bytes_length, IH. cbn. lia.
Qed.

(** Advancing the byte pointer by [k] elements. *)
Lemma Fr_buf_bytes_drop (w : list FrElement) :
  forall k : nat, drop (k * 32) (Fr_buf_bytes w) = Fr_buf_bytes (drop k w).
Proof.
  induction w as [|e w IH]; intros [|k]; try reflexivity.
  rewrite Fr_buf_bytes_cons.
  replace (Datatypes.S k * 32)%nat with (length (Fr_bytes e) + k * 32)%nat
    by (rewrite Fr_bytes_length; lia).
  rewrite drop_app_add. cbn [drop]. apply IH.
Qed.

(** Reading the [i]-th 32-byte scalar of a buffer of elements. *)
Lemma read_bytes_element (w : list FrElement) (i : nat) (e : FrElement) :
  w !! i = Some e ->
  read_bytes (Fr_buf_bytes w) (i * 32) 32 = Some (Fr_bytes e).
Proof.
  intro He. unfold read_bytes.
  pose proof (lookup_lt_Some _ _ _ He) as Hi.
  rewrite Fr_buf_bytes_length.
  destruct (Nat.leb_spec (i * 32 + 32) (length w * 32)); [|lia].
  rewrite Fr_buf_bytes_drop, (drop_S w e i He), Fr_buf_bytes_cons.
  apply (f_equal Some). apply take_app_length'. exact (Fr_bytes_length e).
Qed.

(** ** The MSM loop computes the sum of the spec *)

Lemma msm_loop {P A : Type} (zero : P) (add : P -> P -> P)
    (mul : A -> list byte -> P) (bases : list A) (w : list FrElement) (n : nat) :
  (n <= length bases)%nat -> (n <= length w)%nat ->
  for_loop (msm_body add mul bases (Fr_buf_bytes w) 32) 0 n zero =
  Some (MSM zero add mul (take n bases) (take n w)).
Proof.
  intros Hb Hw.
  pose (Q := fun j => MSM zero add mul (take j bases) (take j w)).
  change zero with (Q 0%nat) at 1.
  rewrite (for_loop_invariant _ Q); [reflexivity|].
  intros j Hj. unfold Q, msm_body, load, MSM.
  destruct (lookup_lt_is_Some_2 bases j ltac:(lia)) as [b Hbj].
  destruct (lookup_lt_is_Some_2 w j ltac:(lia)) as [e Hej].
  rewrite Hbj, (read_bytes_element w j e Hej); cbn.
  rewrite (take_S_r bases j b Hbj), (take_S_r w j e Hej).
  rewrite zip_with_app by (rewrite !length_take; lia).
  cbn [zip_with]. rewrite foldl_snoc. reflexivity.
Qed.

Lemma multiMulByScalar_spec {P A : Type} (zero : P) (add : P -> P -> P)
    (mul : A -> list byte -> P) (bases : list A) (w : list FrElement) (n : Z) :
  (Z.to_nat n <= length bases)%nat -> (Z.to_nat n <= length w)%nat ->
  multiMulByScalar zero add mul bases (Fr_buf_bytes w) sizeof_FrElement n =
  Some (MSM zero add mul (take (Z.to_nat n) bases) (take (Z.to_nat n) w)).
Proof.
  intros Hb Hw. unfold multiMulByScalar, for_range.
  change (Z.to_nat sizeof_FrElement) with 32%nat.
  now apply msm_loop.
Qed.

(** ** Phase 1 *)

Lemma wrap32_small (z : Z) : 0 <= z < 2 ^ 32 -> wrap32 z = z.
Proof. intro H. unfold wrap32. now apply Z.mod_small. Qed.

Lemma pi_c_offset_valid (pk : Prover) :
  valid_key pk ->
  Z.to_nat (pi_c_offset pk sizeof_FrElement) = (Z.to_nat (nPublic pk + 1) * 32)%nat.
Proof.
  intros [Hpub Hoff Hvars _ _ _ _ _ _ _ _ _]. unfold pi_c_offset.
  unfold sizeof_FrElement in *.
  rewrite (wrap32_small (nPublic pk + 1)) by lia.
  rewrite wrap32_small by lia. lia.
Qed.

Lemma pi_c_count_valid (pk : Prover) :
  valid_key pk -> pi_c_count pk = nVars pk - nPublic pk - 1.
Proof.
  intros [Hpub Hoff Hvars _ _ _ _ _ _ _ _ _]. unfold pi_c_count.
  rewrite (wrap32_small (nVars pk - nPublic pk)) by lia.
  apply wrap32_small. lia.
Qed.

(** The closed form of Phase 1 on a well-formed key. *)
Lemma witness_msms_closed {E : Engine} (pk : Prover) (wtns : list FrElement) :
  valid_key pk ->
  nVars pk <= Z.of_nat (length wtns) ->
  witness_msms pk wtns =
  Some (MSM_G1 (take (Z.to_nat (nVars pk)) (pointsA pk))
               (take (Z.to_nat (nVars pk)) wtns),
        MSM_G1 (take (Z.to_nat (nVars pk)) (pointsB1 pk))
               (take (Z.to_nat (nVars pk)) wtns),
        MSM_G2 (take (Z.to_nat (nVars pk)) (pointsB2 pk))
               (take (Z.to_nat (nVars pk)) wtns),
        MSM_G1 (take (Z.to_nat (nVars pk - nPublic pk - 1)) (pointsC pk))
               (take (Z.to_nat (nVars pk - nPublic pk - 1))
                     (drop (Z.to_nat (nPublic pk + 1)) wtns))).
Proof.
  intros Hk Hw. pose proof Hk as [Hpub Hoff Hvars _ _ _ _ HA HB1 HB2 HC _].
  unfold witness_msms, g1_multiMulByScalar, g2_multiMulByScalar.
  rewrite !multiMulByScalar_spec by lia. cbn.
  rewrite pi_c_offset_valid, Fr_buf_bytes_drop, pi_c_count_valid by exact Hk.
  rewrite multiMulByScalar_spec by (rewrite ?length_drop; lia).
  reflexivity.
Qed.

(** Phase 1 where the byte offset of the fourth MSM does not wrap
    ([valid_offset]), on a witness buffer of at least nVars elements: pi_a,
    pib1 (G1) and pi_b (G2) are the MSMs of pointsA, pointsB1, pointsB2
    against the nVars witness scalars; pi_c is the G1 MSM of the first
    nVars-nPublic-1 points of pointsC against wtns[nPublic+1..nVars]. Every
    scalar is the 32-byte image of one element (the width passed is
    sizeof(FrElement)), and pi_c does not depend on wtns[0..=nPublic]. *)
Lemma witness_msms_spec {E : Engine} (pk : Prover) (wtns : list FrElement) :
  valid_key pk ->
  nVars pk <= Z.of_nat (length wtns) ->
  let nV := Z.to_nat (nVars pk) in
  let nC := Z.to_nat (nVars pk - nPublic pk - 1) in
  let tail := take nC (drop (Z.to_nat (nPublic pk + 1)) wtns) in
  witness_msms pk wtns =
    Some (MSM_G1 (take nV (pointsA pk)) (take nV wtns),
          MSM_G1 (take nV (pointsB1 pk)) (take nV wtns),
          MSM_G2 (take nV (pointsB2 pk)) (take nV wtns),
          MSM_G1 (take nC (pointsC pk)) tail) /\
  (forall e : FrElement, Z.of_nat (length (Fr_bytes e)) = sizeof_FrElement) /\
  (forall wtns' : list FrElement,
     length wtns' = length wtns ->
     drop (Z.to_nat (nPublic pk + 1)) wtns' =
       drop (Z.to_nat (nPublic pk + 1)) wtns ->
     snd <$> witness_msms pk wtns' = snd <$> witness_msms pk wtns).
Proof.
  intros Hk Hw nV nC tail. split; [|split].
  - now apply witness_msms_closed.
  - intro e. now rewrite Fr_bytes_length.
  - intros wtns' Hlen Htail.
    rewrite !witness_msms_closed by (try exact Hk; lia).
    cbn. now rewrite Htail.
Qed.

(** The 32-bit offset of the fourth MSM wraps to zero once [nPublic + 1]
    reaches 2^27; [valid_key] keeps the key below that size. *)
Remark pi_c_offset_wraps (pk : Prover) :
  nPublic pk = 2 ^ 27 - 1 -> pi_c_offset pk sizeof_FrElement = 0.
Proof. intro H. unfold pi_c_offset. rewrite H. reflexivity. Qed.

(** The offset in elements: [nPublic + 1] modulo 2^27. *)
Lemma pi_c_offset_elements (pk : Prover) :
  0 <= nPublic pk < 2 ^ 32 ->
  pi_c_offset pk sizeof_FrElement =
  sizeof_FrElement * ((nPublic pk + 1) mod 2 ^ 27).
Proof.
  intro Hpub. unfold pi_c_offset, wrap32, sizeof_FrElement.
  Z.div_mod_to_equations. lia.
Qed.

(** Phase 1 in closed form, with the offset as the source computes it. *)
Lemma witness_msms_wrapped {E : Engine} (pk : Prover) (wtns : list FrElement) :
  0 <= nPublic pk < nVars pk ->
  nVars pk < 2 ^ 32 ->
  (Z.to_nat (nVars pk) <= length wtns)%nat ->
  (Z.to_nat (nVars pk) <= length (pointsA pk))%nat ->
  (Z.to_nat (nVars pk) <= length (pointsB1 pk))%nat ->
  (Z.to_nat (nVars pk) <= length (pointsB2 pk))%nat ->
  (Z.to_nat (nVars pk - nPublic pk - 1) <= length (pointsC pk))%nat ->
  witness_msms pk wtns =
    Some (MSM_G1 (take (Z.to_nat (nVars pk)) (pointsA pk))
                 (take (Z.to_nat (nVars pk)) wtns),
          MSM_G1 (take (Z.to_nat (nVars pk)) (pointsB1 pk))
                 (take (Z.to_nat (nVars pk)) wtns),
          MSM_G2 (take (Z.to_nat (nVars pk)) (pointsB2 pk))
                 (take (Z.to_nat (nVars pk)) wtns),
          MSM_G1 (take (Z.to_nat (nVars pk - nPublic pk - 1)) (pointsC pk))
                 (take (Z.to_nat (nVars pk - nPublic pk - 1))
                       (drop (Z.to_nat ((nPublic pk + 1) mod 2 ^ 27)) wtns))).
Proof.
  intros Hpub Hvars Hw HA HB1 HB2 HC.
  assert (Hcount : pi_c_count pk = nVars pk - nPublic pk - 1).
  { unfold pi_c_count.
    rewrite (wrap32_small (nVars pk - nPublic pk)) by lia.
    apply wrap32_small. lia. }
  assert (Hm : 0 <= (nPublic pk + 1) mod 2 ^ 27 <= nPublic pk + 1).
  { split; [apply Z.mod_pos_bound; lia | apply Z.mod_le; lia]. }
  unfold witness_msms, g1_multiMulByScalar, g2_multiMulByScalar.
  rewrite !multiMulByScalar_spec by assumption. cbn [mbind option_bind].
  rewrite pi_c_offset_elements, Hcount by lia.
  replace (Z.to_nat (sizeof_FrElement * ((nPublic pk + 1) mod 2 ^ 27)))
    with (Z.to_nat ((nPublic pk + 1) mod 2 ^ 27) * 32)%nat
    by (unfold sizeof_FrElement; lia).
  rewrite Fr_buf_bytes_drop.
  rewrite multiMulByScalar_spec
    by first [assumption | rewrite length_drop; lia].
  reflexivity.
Qed.

(** C3. Phase 1 for every key whose counts are 32-bit values with
    nPublic < nVars, on buffers as long as the counts: pi_a, pib1 (G1) and
    pi_b (G2) are the MSMs of pointsA, pointsB1, pointsB2 against the nVars
    witness scalars, each scalar the 32-byte image of one element. pi_c is
    the G1 MSM of the first nVars-nPublic-1 points of pointsC against the
    witness elements from index (nPublic + 1) mod 2^27 on, because the byte
    offset (nPublic + 1)·32 is a 32-bit product: this is the tail
    wtns[nPublic+1..] as long as the product stays below 2^32, and from
    then on it starts inside the public prefix wtns[0..=nPublic]. *)
Theorem witness_msms_offset_wraps {E : Engine} (pk : Prover)
    (wtns : list FrElement) :
  0 <= nPublic pk < nVars pk ->
  nVars pk < 2 ^ 32 ->
  (Z.to_nat (nVars pk) <= length wtns)%nat ->
  (Z.to_nat (nVars pk) <= length (pointsA pk))%nat ->
  (Z.to_nat (nVars pk) <= length (pointsB1 pk))%nat ->
  (Z.to_nat (nVars pk) <= length (pointsB2 pk))%nat ->
  (Z.to_nat (nVars pk - nPublic pk - 1) <= length (pointsC pk))%nat ->
  let nV := Z.to_nat (nVars pk) in
  let nC := Z.to_nat (nVars pk - nPublic pk - 1) in
  let first := Z.to_nat ((nPublic pk + 1) mod 2 ^ 27) in
  pi_c_offset pk sizeof_FrElement =
    sizeof_FrElement * ((nPublic pk + 1) mod 2 ^ 27) /\
  witness_msms pk wtns =
    Some (MSM_G1 (take nV (pointsA pk)) (take nV wtns),
          MSM_G1 (take nV (pointsB1 pk)) (take nV wtns),
          MSM_G2 (take nV (pointsB2 pk)) (take nV wtns),
          MSM_G1 (take nC (pointsC pk)) (take nC (drop first wtns))) /\
  ((nPublic pk + 1) * sizeof_FrElement < 2 ^ 32 ->
   first = Z.to_nat (nPublic pk + 1)) /\
  (2 ^ 32 <= (nPublic pk + 1) * sizeof_FrElement ->
   (first <= Z.to_nat (nPublic pk))%nat).
Proof.
  intros Hpub Hvars Hw HA HB1 HB2 HC nV nC first.
  split; [apply pi_c_offset_elements; lia|]. split; [|split].
  - now apply witness_msms_wrapped.
  - intro Hsmall. unfold first. f_equal. apply Z.mod_small.
    unfold sizeof_FrElement in Hsmall. lia.
  - intro Hbig. unfold first. unfold sizeof_FrElement in Hbig.
    assert ((nPublic pk + 1) mod 2 ^ 27 <= nPublic pk); [|lia].
    Z.div_mod_to_equations. lia.
Qed.

(** ** Phase 2 *)

Lemma for_loop_preserves {S : Type} (body : nat -> S -> option S) (I : S -> Prop) :
  (forall (j : nat) (s s' : S), I s -> body j s = Some s' -> I s') ->
  forall (cnt i : nat) (s s' : S),
    I s -> for_loop body i cnt s = Some s' -> I s'.
Proof.
  intros Hbody. induction cnt as [|cnt IH]; intros i s s' Hs; cbn [for_loop].
  - now intros [= <-].
  - destruct (body i s) as [s1|] eqn:Hb; cbn; [|discriminate].
    apply IH. eapply Hbody; eassumption.
Qed.

(** The arrays after one record: only one cell of [a] or of [b] changes. *)
Lemma scatter_step_shape (wtns : list FrElement) (cf : Coef) (st st' : Arrays) :
  scatter_step wtns cf st = Some st' ->
  length (arr_a st') = length (arr_a st) /\
  length (arr_b st') = length (arr_b st) /\
  arr_c st' = arr_c st.
Proof.
  unfold scatter_step, load.
  destruct (wtns !! Z.to_nat (coef_s cf)) as [w|]; cbn; [|discriminate].
  destruct (coef_m cf =? 0).
  - destruct (arr_a st !! Z.to_nat (coef_c cf)) as [old|]; cbn; [|discriminate].
    destruct (store (arr_a st) _ _) as [a'|] eqn:Hst; cbn; [|discriminate].
    intros [= <-]; cbn. apply store_length in Hst. auto.
  - destruct (arr_b st !! Z.to_nat (coef_c cf)) as [old|]; cbn; [|discriminate].
    destruct (store (arr_b st) _ _) as [b'|] eqn:Hst; cbn; [|discriminate].
    intros [= <-]; cbn. apply store_length in Hst. auto.
Qed.

Lemma scatter_shape (cs : list Coef) (n : Z) (wtns : list FrElement)
    (st st' : Arrays) :
  scatter cs n wtns st = Some st' ->
  length (arr_a st') = length (arr_a st) /\
  length (arr_b st') = length (arr_b st) /\
  arr_c st' = arr_c st.
Proof.
  unfold scatter, for_range.
  apply (for_loop_preserves (scatter_body cs wtns)
           (fun s => length (arr_a s) = length (arr_a st) /\
                     length (arr_b s) = length (arr_b st) /\
                     arr_c s = arr_c st)); [|auto].
  intros j s s' (Ha & Hb & Hc). unfold scatter_body, load.
  destruct (cs !! j) as [cf|]; cbn; [|discriminate].
  intro Hstep. apply scatter_step_shape in Hstep as (Ha' & Hb' & Hc').
  repeat split; congruence.
Qed.

(** The scatter neither reads nor writes [c]. *)
Lemma scatter_step_frame (wtns : list FrElement) (cf : Coef)
    (a b c c' : list FrElement) :
  scatter_step wtns cf (mkArrays a b c') =
  (fun st => mkArrays (arr_a st) (arr_b st) c') <$>
    scatter_step wtns cf (mkArrays a b c).
Proof.
  unfold scatter_step, load; cbn [arr_a arr_b arr_c].
  destruct (wtns !! Z.to_nat (coef_s cf)) as [w|]; cbn; [|reflexivity].
  destruct (coef_m cf =? 0).
  - destruct (a !! Z.to_nat (coef_c cf)) as [old|]; cbn; [|reflexivity].
    destruct (store a _ _) as [a'|]; reflexivity.
  - destruct (b !! Z.to_nat (coef_c cf)) as [old|]; cbn; [|reflexivity].
    destruct (store b _ _) as [b'|]; reflexivity.
Qed.

Lemma scatter_body_frame (cs : list Coef) (wtns : list FrElement) (i : nat)
    (a b c c' : list FrElement) :
  scatter_body cs wtns i (mkArrays a b c') =
  (fun st => mkArrays (arr_a st) (arr_b st) c') <$>
    scatter_body cs wtns i (mkArrays a b c).
Proof.
  unfold scatter_body, load.
  destruct (cs !! i) as [cf|]; cbn; [|reflexivity].
  apply scatter_step_frame.
Qed.

Lemma scatter_body_shape (cs : list Coef) (wtns : list FrElement) (i : nat)
    (st st' : Arrays) :
  scatter_body cs wtns i st = Some st' ->
  length (arr_a st') = length (arr_a st) /\
  length (arr_b st') = length (arr_b st) /\
  arr_c st' = arr_c st.
Proof.
  unfold scatter_body, load.
  destruct (cs !! i) as [cf|]; cbn; [|discriminate].
  apply scatter_step_shape.
Qed.

Lemma scatter_loop_frame (cs : list Coef) (wtns : list FrElement) :
  forall (cnt i : nat) (a b c c' : list FrElement),
    for_loop (scatter_body cs wtns) i cnt (mkArrays a b c') =
    (fun st => mkArrays (arr_a st) (arr_b st) c') <$>
      for_loop (scatter_body cs wtns) i cnt (mkArrays a b c).
Proof.
  induction cnt as [|cnt IH]; intros i a b c c'; cbn [for_loop];
    [reflexivity|].
  rewrite (scatter_body_frame cs wtns i a b c c').
  destruct (scatter_body cs wtns i (mkArrays a b c)) as [[a1 b1 c1]|] eqn:Hs;
    cbn; [|reflexivity].
  apply scatter_body_shape in Hs as (_ & _ & Hc); cbn in Hc. subst c1.
  apply IH.
Qed.

(** Phase 2 and the product, in closed form: the scatter runs on two zeroed
    arrays and [c] is the pointwise product whatever it held before. *)
Lemma accumulate_closed (init_body : nat -> Arrays -> option Arrays)
    (U : Uninit) (pk : Prover) (wtns : list FrElement) :
  init_body = zero_body \/ init_body = zero_all_body ->
  let n := Z.to_nat (domainSize pk) in
  accumulate init_body U pk wtns =
  (st ← scatter (coefs pk) (nCoefs pk) wtns
         (mkArrays (replicate n Fr.zero) (replicate n Fr.zero) []);
   Some (mkArrays (arr_a st) (arr_b st) (zip_with Fr.mul (arr_a st) (arr_b st)))).
Proof.
  intros Hinit n. unfold accumulate, allocate, for_range. fold n.
  assert (Hzero : exists c0, length c0 = n /\
             for_loop init_body 0 n
               (mkArrays (new_array (heap_a U) (domainSize pk))
                         (new_array (heap_b U) (domainSize pk))
                         (new_array (heap_c U) (domainSize pk))) =
             Some (mkArrays (replicate n Fr.zero) (replicate n Fr.zero) c0)).
  { destruct Hinit as [-> | ->].
    - exists (new_array (heap_c U) (domainSize pk)).
      split; [apply new_array_length|].
      apply zero_loop; apply new_array_length.
    - exists (replicate n Fr.zero). split; [apply length_replicate|].
      apply zero_all_loop; apply new_array_length. }
  destruct Hzero as (c0 & Hc0 & ->). cbn.
  unfold scatter, for_range.
  rewrite (scatter_loop_frame _ _ _ _ _ _ [] c0).
  destruct (for_loop (scatter_body (coefs pk) wtns) 0 _
              (mkArrays (replicate n Fr.zero) (replicate n Fr.zero) []))
    as [[a b c]|] eqn:Hs; cbn; [|reflexivity].
  apply (scatter_shape (coefs pk) (nCoefs pk)) in Hs as (Ha & Hb & _).
  cbn in Ha, Hb. rewrite length_replicate in Ha, Hb.
  now rewrite (product_loop n).
Qed.

(** The arrays handed to the three chains all have [domainSize] elements. *)
Lemma accumulate_lengths (U : Uninit) (pk : Prover) (wtns : list FrElement)
    (st : Arrays) :
  accumulate zero_body U pk wtns = Some st ->
  length (arr_a st) = Z.to_nat (domainSize pk) /\
  length (arr_b st) = Z.to_nat (domainSize pk) /\
  length (arr_c st) = Z.to_nat (domainSize pk).
Proof.
  rewrite accumulate_closed by now left. cbn zeta.
  destruct (scatter _ _ _ _) as [[a b c]|] eqn:Hs; cbn; [|discriminate].
  apply scatter_shape in Hs as (Ha & Hb & _).
  cbn in Ha, Hb. rewrite length_replicate in Ha, Hb.
  intros [= <-]; cbn. rewrite length_zip_with. lia.
Qed.

(** ** Phases 3 and 4 *)

Lemma domainPower_succ {E : Engine} (n : Z) :
  wrap32 (fft_log2 n + 1) = fft_log2 n + 1.
Proof. apply wrap32_small. pose proof (fft_log2_range n). lia. Qed.

Lemma coset_chain_closed {E : Engine} (pk : Prover) (x : list FrElement) :
  length x = Z.to_nat (domainSize pk) ->
  coset_chain pk (fft_log2 (domainSize pk)) x = Some (coset_eval pk x).
Proof.
  intro Hx. unfold coset_chain, coset_eval, for_range.
  rewrite <- Hx, <- (fft_ifft_length x (domainSize pk)), shift_loop. cbn.
  now rewrite domainPower_succ.
Qed.

Lemma coset_eval_length {E : Engine} (pk : Prover) (x : list FrElement) :
  length (coset_eval pk x) = length x.
Proof.
  unfold coset_eval. now rewrite fft_fft_length, length_imap, fft_ifft_length.
Qed.

(** Phases 3 and 4 in closed form, for arrays of [domainSize] elements. *)
Lemma quotient_closed {E : Engine} (pk : Prover) (st0 : Arrays) :
  length (arr_a st0) = Z.to_nat (domainSize pk) ->
  length (arr_b st0) = Z.to_nat (domainSize pk) ->
  length (arr_c st0) = Z.to_nat (domainSize pk) ->
  domainSize pk <= Z.of_nat (length (pointsH pk)) ->
  let a' := coset_eval pk (arr_a st0) in
  let b' := coset_eval pk (arr_b st0) in
  let c' := coset_eval pk (arr_c st0) in
  let h := h_evals a' b' c' in
  coset_chains pk st0 = Some (mkArrays a' b' c') /\
  for_range abc_body (domainSize pk) (mkArrays a' b' c') =
    Some (mkArrays h b' c') /\
  (forall i : nat, (i < Z.to_nat (domainSize pk))%nat ->
     exists x y z : FrElement,
       a' !! i = Some x /\ b' !! i = Some y /\ c' !! i = Some z /\
       h !! i = Some (Fr.fromMontgomery (Fr.sub (Fr.mul x y) z))) /\
  quotient pk st0 =
    Some (mkArrays h b' c',
          MSM_G1 (take (Z.to_nat (domainSize pk)) (pointsH pk)) h).
Proof.
  intros Ha Hb Hc HH a' b' c' h.
  assert (Ha' : length a' = Z.to_nat (domainSize pk))
    by (unfold a'; now rewrite coset_eval_length).
  assert (Hb' : length b' = Z.to_nat (domainSize pk))
    by (unfold b'; now rewrite coset_eval_length).
  assert (Hc' : length c' = Z.to_nat (domainSize pk))
    by (unfold c'; now rewrite coset_eval_length).
  assert (Hchains : coset_chains pk st0 = Some (mkArrays a' b' c')).
  { unfold coset_chains. now rewrite !coset_chain_closed. }
  assert (Habc : for_range abc_body (domainSize pk) (mkArrays a' b' c') =
                 Some (mkArrays h b' c')).
  { unfold for_range. now apply abc_loop. }
  clearbody a' b' c'.
  split; [exact Hchains|]. split; [exact Habc|]. split.
  - intros i Hi.
    destruct (lookup_lt_is_Some_2 a' i) as [x Hx]; [now rewrite Ha'|].
    destruct (lookup_lt_is_Some_2 b' i) as [y Hy]; [now rewrite Hb'|].
    destruct (lookup_lt_is_Some_2 c' i) as [z Hz]; [now rewrite Hc'|].
    exists x, y, z. repeat split; try assumption.
    unfold h. now apply h_evals_lookup.
  - unfold quotient. rewrite Hchains; cbn. rewrite Habc; cbn.
    unfold h_msm, g1_multiMulByScalar; cbn [arr_a].
    assert (Hh : length h = Z.to_nat (domainSize pk))
      by (unfold h; now apply h_evals_length).
    rewrite multiMulByScalar_spec by lia.
    cbn. rewrite (take_ge h) by lia. reflexivity.
Qed.


(** C2. In prove, each of a, b, c goes through the coset chain (inverse FFT
    of length domainSize, element i times root(log2(domainSize)+1, i),
    forward FFT of length domainSize); then a[i] becomes the natural form of
    a[i]·b[i] − c[i] for every i below domainSize, and pih is the G1 MSM of
    pointsH[0..domainSize] against that vector: this is what Phases 2 to 4
    hand over, and the pih that prove assembles the proof from. The domain
    is as the spec has it, a power of two, and within what the int loop
    counters and the logging reads of the elements 0 and 1 allow. *)
Theorem quotient_spec {E : Engine} (U : Uninit) (pk : Prover)
    (wtns : list FrElement) (st0 : Arrays) :
  accumulate zero_body U pk wtns = Some st0 ->
  domainSize pk <= Z.of_nat (length (pointsH pk)) ->
  2 <= domainSize pk < 2 ^ 31 ->
  power_of_two (domainSize pk) ->
  let a' := coset_eval pk (arr_a st0) in
  let b' := coset_eval pk (arr_b st0) in
  let c' := coset_eval pk (arr_c st0) in
  let h := h_evals a' b' c' in
  let pih := MSM_G1 (take (Z.to_nat (domainSize pk)) (pointsH pk)) h in
  coset_chains pk st0 = Some (mkArrays a' b' c') /\
  for_range abc_body (domainSize pk) (mkArrays a' b' c') =
    Some (mkArrays h b' c') /\
  (forall i : nat, (i < Z.to_nat (domainSize pk))%nat ->
     exists x y z : FrElement,
       a' !! i = Some x /\ b' !! i = Some y /\ c' !! i = Some z /\
       h !! i = Some (Fr.fromMontgomery (Fr.sub (Fr.mul x y) z))) /\
  quotient pk st0 = Some (mkArrays h b' c', pih) /\
  evaluate zero_body U pk wtns = Some (mkArrays h b' c', pih) /\
  (forall (fuel : nat) (g : Rng),
     prove U fuel pk wtns g =
     match witness_msms pk wtns with
     | None => Undefined
     | Some (pi_a, pib1, pi_b, pi_c) =>
         match sample_scalar fuel (stack_r U) g with
         | None => OutOfFuel
         | Some (r, g1) =>
             match sample_scalar fuel (stack_s U) g1 with
             | None => OutOfFuel
             | Some (s, g2) =>
                 Returns (assemble pk pi_a pib1 pi_b pi_c pih r s, g2)
             end
         end
     end).
Proof.
  intros Hacc HH _ _ a' b' c' h pih.
  pose proof (accumulate_lengths U pk wtns st0 Hacc) as (Ha & Hb & Hc).
  destruct (quotient_closed pk st0 Ha Hb Hc HH) as (H1 & H2 & H3 & H4).
  fold a' b' c' h pih in H1, H2, H3, H4.
  assert (Hev : evaluate zero_body U pk wtns = Some (mkArrays h b' c', pih)).
  { unfold evaluate. rewrite Hacc. exact H4. }
  split; [exact H1|]. split; [exact H2|]. split; [exact H3|].
  split; [exact H4|]. split; [exact Hev|].
  intros fuel g. unfold prove, prove_with. rewrite Hev. reflexivity.
Qed.

(** ** The coefficient scatter *)

(** The loop over the first [cnt] indices is the fold over the stream. *)
Lemma scatter_loop_list (cs : list Coef) (wtns : list FrElement) :
  forall (cnt i : nat) (st : Arrays),
    (i + cnt <= length cs)%nat ->
    for_loop (scatter_body cs wtns) i cnt st =
    scatter_list wtns (take cnt (drop i cs)) st.
Proof.
  induction cnt as [|cnt IH]; intros i st Hlen; cbn [for_loop].
  - reflexivity.
  - destruct (lookup_lt_is_Some_2 cs i ltac:(lia)) as [cf Hcf].
    assert (Hbody : scatter_body cs wtns i st = scatter_step wtns cf st)
      by (unfold scatter_body, load; now rewrite Hcf).
    rewrite Hbody, (drop_S cs cf i Hcf).
    cbn. destruct (scatter_step wtns cf st) as [st1|]; cbn; [|reflexivity].
    apply IH. lia.
Qed.

Lemma scatter_whole_list (cs : list Coef) (wtns : list FrElement) (st : Arrays) :
  scatter cs (Z.of_nat (length cs)) wtns st = scatter_list wtns cs st.
Proof.
  unfold scatter, for_range. rewrite Nat2Z.id, scatter_loop_list by lia.
  now rewrite drop_0, firstn_all.
Qed.

Lemma bump_lookup (l : list FrElement) (i : nat) (aux : FrElement) :
  bump l i aux = (fun old => <[i := Fr.add old aux]> l) <$> l !! i.
Proof.
  unfold bump, load. destruct (l !! i) as [old|] eqn:Hi; cbn; [|reflexivity].
  apply store_Some. eapply lookup_lt_Some, Hi.
Qed.

Lemma bump_comm (l : list FrElement) (i j : nat) (x y : FrElement) :
  (l1 ← bump l i x; bump l1 j y) = (l1 ← bump l j y; bump l1 i x).
Proof.
  rewrite (bump_lookup l i x), (bump_lookup l j y).
  destruct (l !! i) as [oi|] eqn:Hi, (l !! j) as [oj|] eqn:Hj; cbn;
    rewrite ?bump_lookup.
  - pose proof (lookup_lt_Some _ _ _ Hi). pose proof (lookup_lt_Some _ _ _ Hj).
    destruct (decide (i = j)) as [->|Hne].
    + rewrite !list_lookup_insert_eq by assumption. cbn.
      rewrite !list_insert_insert_eq.
      assert (oi = oj) as -> by congruence.
      now rewrite Fr_add_swap.
    + rewrite !list_lookup_insert_ne by congruence. rewrite Hi, Hj. cbn.
      now rewrite list_insert_insert_ne by congruence.
  - destruct (decide (i = j)) as [->|Hne]; [congruence|].
    rewrite list_lookup_insert_ne by congruence. now rewrite Hj.
  - destruct (decide (i = j)) as [->|Hne]; [congruence|].
    rewrite list_lookup_insert_ne by congruence. now rewrite Hi.
  - reflexivity.
Qed.

Lemma scatter_step_apply (wtns : list FrElement) (cf : Coef) (st : Arrays) :
  scatter_step wtns cf st =
  (w ← wtns !! Z.to_nat (coef_s cf);
   apply_record (coef_m cf =? 0) (Z.to_nat (coef_c cf))
                (Fr.mul w (coef_coef cf)) st).
Proof.
  unfold scatter_step, apply_record, bump, load.
  destruct (wtns !! Z.to_nat (coef_s cf)) as [w|]; cbn; [|reflexivity].
  destruct (coef_m cf =? 0).
  - destruct (arr_a st !! _); cbn; [|reflexivity].
    destruct (store _ _ _); reflexivity.
  - destruct (arr_b st !! _); cbn; [|reflexivity].
    destruct (store _ _ _); reflexivity.
Qed.

Lemma apply_record_comm (m1 m2 : bool) (i j : nat) (x y : FrElement)
    (st : Arrays) :
  (st1 ← apply_record m1 i x st; apply_record m2 j y st1) =
  (st1 ← apply_record m2 j y st; apply_record m1 i x st1).
Proof.
  destruct st as [a b c].
  destruct m1, m2; unfold apply_record; cbn [arr_a arr_b arr_c].
  - pose proof (bump_comm a i j x y) as Hc.
    destruct (bump a i x) as [a1|], (bump a j y) as [a2|];
      cbn in *; first [rewrite Hc | rewrite <- Hc | idtac]; reflexivity.
  - destruct (bump a i x) as [a1|] eqn:Ha, (bump b j y) as [b2|] eqn:Hb; cbn;
      rewrite ?Ha, ?Hb; reflexivity.
  - destruct (bump b i x) as [b1|] eqn:Hb, (bump a j y) as [a2|] eqn:Ha; cbn;
      rewrite ?Ha, ?Hb; reflexivity.
  - pose proof (bump_comm b i j x y) as Hc.
    destruct (bump b i x) as [b1|], (bump b j y) as [b2|];
      cbn in *; first [rewrite Hc | rewrite <- Hc | idtac]; reflexivity.
Qed.

(** Two records can be applied in either order. *)
Lemma scatter_step_comm (wtns : list FrElement) (x y : Coef) (st : Arrays) :
  (st1 ← scatter_step wtns x st; scatter_step wtns y st1) =
  (st1 ← scatter_step wtns y st; scatter_step wtns x st1).
Proof.
  rewrite (scatter_step_apply wtns x st), (scatter_step_apply wtns y st).
  destruct (wtns !! Z.to_nat (coef_s x)) as [wx|] eqn:Hx,
           (wtns !! Z.to_nat (coef_s y)) as [wy|] eqn:Hy; cbn.
  - pose proof (apply_record_comm (coef_m x =? 0) (coef_m y =? 0)
                  (Z.to_nat (coef_c x)) (Z.to_nat (coef_c y))
                  (Fr.mul wx (coef_coef x)) (Fr.mul wy (coef_coef y)) st) as Hc.
    destruct (apply_record (coef_m x =? 0) _ _ st) as [s1|],
             (apply_record (coef_m y =? 0) _ _ st) as [s2|]; cbn in *;
      rewrite ?scatter_step_apply, ?Hx, ?Hy; cbn; auto.
  - destruct (apply_record _ _ _ st) as [s1|]; cbn; [|reflexivity].
    now rewrite scatter_step_apply, Hy.
  - destruct (apply_record _ _ _ st) as [s1|]; cbn; [|reflexivity].
    now rewrite scatter_step_apply, Hx.
  - reflexivity.
Qed.

(** The result of the scatter does not depend on the order of the stream;
    this covers the case where some record is out of range, which is
    undefined in every order. *)
Lemma scatter_list_perm (wtns : list FrElement) (cs cs' : list Coef) :
  cs ≡ₚ cs' ->
  forall st : Arrays, scatter_list wtns cs st = scatter_list wtns cs' st.
Proof.
  induction 1 as [|x l l' _ IH|x y l|l l' l'' _ IH1 _ IH2]; intro st.
  - reflexivity.
  - cbn [scatter_list].
    destruct (scatter_step wtns x st) as [st1|]; cbn; [apply IH|reflexivity].
  - cbn [scatter_list].
    pose proof (scatter_step_comm wtns y x st) as Hc.
    destruct (scatter_step wtns y st) as [s1|], (scatter_step wtns x st) as [s2|];
      cbn in *.
    + now rewrite Hc.
    + now rewrite Hc.
    + now rewrite <- Hc.
    + reflexivity.
  - now rewrite IH1.
Qed.

Lemma scatter_step_bucket (wtns : list FrElement) (cf : Coef) (st st1 : Arrays)
    (to_b : bool) (j : nat) :
  scatter_step wtns cf st = Some st1 ->
  bucket_array to_b st1 !! j =
  if targets to_b j cf
  then (fun o => Fr.add o (aux_of wtns cf)) <$> bucket_array to_b st !! j
  else bucket_array to_b st !! j.
Proof.
  rewrite scatter_step_apply. unfold aux_of, targets, apply_record.
  destruct (wtns !! Z.to_nat (coef_s cf)) as [w|]; cbn; [|discriminate].
  rewrite !bump_lookup.
  destruct (coef_m cf =? 0), to_b; cbn.
  - destruct (arr_a st !! _); cbn; [|discriminate]. now intros [= <-].
  - destruct (arr_a st !! Z.to_nat (coef_c cf)) as [old|] eqn:Ho; cbn;
      [|discriminate].
    intros [= <-]; cbn.
    destruct (Nat.eqb_spec (Z.to_nat (coef_c cf)) j) as [<-|Hne].
    + rewrite list_lookup_insert_eq by (eapply lookup_lt_Some, Ho).
      now rewrite Ho.
    + now rewrite list_lookup_insert_ne.
  - destruct (arr_b st !! Z.to_nat (coef_c cf)) as [old|] eqn:Ho; cbn;
      [|discriminate].
    intros [= <-]; cbn.
    destruct (Nat.eqb_spec (Z.to_nat (coef_c cf)) j) as [<-|Hne].
    + rewrite list_lookup_insert_eq by (eapply lookup_lt_Some, Ho).
      now rewrite Ho.
    + now rewrite list_lookup_insert_ne.
  - destruct (arr_b st !! _); cbn; [|discriminate]. now intros [= <-].
Qed.

(** After the scatter, a cell holds what it held before plus the addends of
    its records, added in stream order. *)
Lemma scatter_list_bucket (wtns : list FrElement) (to_b : bool) (j : nat)
    (cs : list Coef) :
  forall st st' : Arrays,
    scatter_list wtns cs st = Some st' ->
    bucket_array to_b st' !! j =
    (fun o => foldl Fr.add o
                (map (aux_of wtns)
                     (filter (fun cf => targets to_b j cf = true) cs))) <$>
      bucket_array to_b st !! j.
Proof.
  induction cs as [|cf cs IH]; intros st st'; cbn [scatter_list].
  - intros [= <-]. now destruct (bucket_array to_b st !! j).
  - intro Hrest.
    destruct (scatter_step wtns cf st) as [st1|] eqn:Hstep; cbn in Hrest;
      [|discriminate].
    rewrite (IH _ _ Hrest).
    rewrite (scatter_step_bucket wtns cf st st1 to_b j Hstep).
    rewrite filter_cons.
    destruct (targets to_b j cf); cbn.
    + now destruct (bucket_array to_b st !! j).
    + reflexivity.
Qed.

Lemma scatter_perm (wtns : list FrElement) (cs cs' : list Coef) (st : Arrays) :
  cs ≡ₚ cs' ->
  scatter cs (Z.of_nat (length cs)) wtns st =
  scatter cs' (Z.of_nat (length cs')) wtns st.
Proof.
  intro Hp. rewrite !scatter_whole_list. now apply scatter_list_perm.
Qed.

Lemma bucket_sum_after_scatter (wtns : list FrElement) (cs : list Coef)
    (n : nat) (c : list FrElement) (st : Arrays) (to_b : bool) (j : nat) :
  scatter cs (Z.of_nat (length cs)) wtns
          (mkArrays (replicate n Fr.zero) (replicate n Fr.zero) c) = Some st ->
  (j < n)%nat ->
  bucket_array to_b st !! j = Some (bucket_sum wtns to_b j cs).
Proof.
  rewrite scatter_whole_list. intros Hs Hj.
  rewrite (scatter_list_bucket wtns to_b j cs _ _ Hs).
  destruct to_b; cbn [bucket_array arr_a arr_b];
    now rewrite lookup_replicate_2.
Qed.

(** Permuted streams: the same arrays from any start state, and after the
    zeroing the serial bucket sums, whenever the scatter is defined. *)
Lemma scatter_perm_buckets (U : Uninit) (pk : Prover)
    (wtns : list FrElement) (cs cs' : list Coef) :
  cs ≡ₚ cs' ->
  (forall st : Arrays,
     scatter cs (Z.of_nat (length cs)) wtns st =
     scatter cs' (Z.of_nat (length cs')) wtns st) /\
  accumulate zero_body U (with_coefs pk cs) wtns =
    accumulate zero_body U (with_coefs pk cs') wtns /\
  (forall st : Arrays,
     accumulate zero_body U (with_coefs pk cs) wtns = Some st ->
     forall j : nat, (j < Z.to_nat (domainSize pk))%nat ->
       arr_a st !! j = Some (bucket_sum wtns false j cs) /\
       arr_b st !! j = Some (bucket_sum wtns true j cs) /\
       arr_c st !! j = Some (Fr.mul (bucket_sum wtns false j cs)
                                    (bucket_sum wtns true j cs)) /\
       bucket_sum wtns false j cs' = bucket_sum wtns false j cs /\
       bucket_sum wtns true j cs' = bucket_sum wtns true j cs).
Proof.
  intro Hp.
  assert (Hscatter : forall st : Arrays,
            scatter cs (Z.of_nat (length cs)) wtns st =
            scatter cs' (Z.of_nat (length cs')) wtns st)
    by (intro st; now apply scatter_perm).
  assert (Hacc : accumulate zero_body U (with_coefs pk cs) wtns =
                 accumulate zero_body U (with_coefs pk cs') wtns).
  { rewrite !accumulate_closed by now left.
    cbn [with_coefs coefs nCoefs domainSize]. now rewrite Hscatter. }
  split; [exact Hscatter|]. split; [exact Hacc|].
  intros st Hst j Hj.
  assert (Hsums : forall l : list Coef,
            accumulate zero_body U (with_coefs pk l) wtns = Some st ->
            arr_a st !! j = Some (bucket_sum wtns false j l) /\
            arr_b st !! j = Some (bucket_sum wtns true j l) /\
            arr_c st !! j = Some (Fr.mul (bucket_sum wtns false j l)
                                         (bucket_sum wtns true j l))).
  { intros l. rewrite accumulate_closed by now left.
    cbn [with_coefs coefs nCoefs domainSize].
    destruct (scatter l _ wtns _) as [st1|] eqn:Hs; cbn; [|discriminate].
    intros [= <-]; cbn [arr_a arr_b arr_c].
    pose proof (bucket_sum_after_scatter wtns l _ _ st1 false j Hs Hj) as Ha.
    pose proof (bucket_sum_after_scatter wtns l _ _ st1 true j Hs Hj) as Hb.
    cbn [bucket_array] in Ha, Hb.
    rewrite lookup_zip_with, Ha, Hb. auto. }
  destruct (Hsums cs Hst) as (Ha & Hb & Hc).
  rewrite Hacc in Hst. destruct (Hsums cs' Hst) as (Ha' & Hb' & _).
  repeat split; try assumption; congruence.
Qed.

(** ** The start of Phase 2 *)


(** ** Uninitialised memory *)

Lemma sample_scalar_start (fuel : nat) (r0 r0' : FrElement) (g : Rng) :
  sample_scalar fuel r0 g = sample_scalar fuel r0' g.
Proof. unfold sample_scalar. destruct fuel; reflexivity. Qed.

Lemma accumulate_init (U U' : Uninit) (pk : Prover) (wtns : list FrElement) :
  accumulate zero_body U pk wtns = accumulate zero_all_body U' pk wtns.
Proof.
  rewrite (accumulate_closed zero_body) by now left.
  rewrite (accumulate_closed zero_all_body) by now right.
  reflexivity.
Qed.

(** C10. Leaving c without zeroes is unobservable: the product loop writes
    every c[i] before anything reads c, so prove as written equals prove
    with all three arrays zeroed; c after Phase 2 is a·b pointwise, and the
    result does not depend on what the fresh arrays (or the locals r, s)
    held. *)
Theorem zero_init_c_unobservable {E : Engine} (U : Uninit) (fuel : nat)
    (pk : Prover) (wtns : list FrElement) (g : Rng) :
  prove U fuel pk wtns g = prove_zero_all U fuel pk wtns g /\
  accumulate zero_body U pk wtns = accumulate zero_all_body U pk wtns /\
  (forall st : Arrays,
     accumulate zero_body U pk wtns = Some st ->
     arr_c st = zip_with Fr.mul (arr_a st) (arr_b st)) /\
  (forall U' : Uninit, prove U' fuel pk wtns g = prove U fuel pk wtns g).
Proof.
  split; [|split; [|split]].
  - unfold prove, prove_zero_all, prove_with, evaluate.
    now rewrite (accumulate_init U U).
  - apply accumulate_init.
  - intro st. rewrite accumulate_closed by now left. cbn zeta.
    destruct (scatter _ _ _ _) as [st1|]; cbn; [|discriminate].
    now intros [= <-].
  - intro U'. unfold prove, prove_with, evaluate.
    rewrite (accumulate_init U' U), <- (accumulate_init U U).
    rewrite (sample_scalar_start fuel (stack_r U') (stack_r U)).
    destruct (witness_msms pk wtns) as [[[[pi_a pib1] pi_b] pi_c]|];
      [|reflexivity].
    destruct (st ← accumulate zero_body U pk wtns; quotient pk st)
      as [[st pih]|]; [|reflexivity].
    destruct (sample_scalar fuel (stack_r U) g) as [[r g1]|]; [|reflexivity].
    now rewrite (sample_scalar_start fuel (stack_s U') (stack_s U)).
Qed.

(** ** Phase 6 *)

Lemma sample_scalar_accepted (fuel : nat) (r0 r : FrElement) (g g' : Rng) :
  sample_scalar fuel r0 g = Some (r, g') -> 0 <= Fr_val r < Fr.q.
Proof.
  intro Hs. pose proof (sample_loop_spec fuel 0 r0 g eq_refl) as Hspec.
  unfold sample_scalar in Hs. rewrite Hs in Hspec.
  now destruct Hspec as (k & _ & _ & _ & _ & Hr).
Qed.

(** The bytes handed over for the last scalar encode [r·s mod q]. *)
Lemma rs_bytes_value (r s : FrElement) :
  le_decode (rs_bytes r s) =
  (le_decode (Fr_bytes r) * le_decode (Fr_bytes s)) mod Fr.q.
Proof.
  unfold rs_bytes. rewrite !le_decode_Fr_bytes. apply Fr_toMontgomery_mul.
Qed.

(** C1. The proof returned by prove satisfies the assembly equations:
    A = pi_a + vk_alpha1 + r·D1, B = pi_b + vk_beta2 + s·D2 and
    C = pi_c_partial + pih + s·A + r·B1' − (r·s)·D1 with
    B1' = pib1 + vk_beta1 + s·D1, over the four Phase-1 MSM outputs, the
    H-MSM output pih and the accepted scalars r, s; the s·A term uses the
    final A, and the last scalar encodes r·s mod q. *)
Theorem prove_assembly {E : Engine} (U : Uninit) (fuel : nat) (pk : Prover)
    (wtns : list FrElement) (g g' : Rng) (pf : Proof) :
  prove U fuel pk wtns g = Returns (pf, g') ->
  exists (pi_a pib1 : G1Point) (pi_b : G2Point) (pi_c_partial pih : G1Point)
         (st : Arrays) (r s : FrElement) (g1 : Rng),
    witness_msms pk wtns = Some (pi_a, pib1, pi_b, pi_c_partial) /\
    evaluate zero_body U pk wtns = Some (st, pih) /\
    sample_scalar fuel (stack_r U) g = Some (r, g1) /\
    sample_scalar fuel (stack_s U) g1 = Some (s, g') /\
    0 <= Fr_val r < Fr.q /\ 0 <= Fr_val s < Fr.q /\
    let D1 := vk_delta1 pk in
    let D2 := vk_delta2 pk in
    let A := g1_add (g1_addA pi_a (vk_alpha1 pk))
                    (g1_mulByScalarA D1 (Fr_bytes r)) in
    let B := g2_add (g2_addA pi_b (vk_beta2 pk))
                    (g2_mulByScalarA D2 (Fr_bytes s)) in
    let B1' := g1_add (g1_addA pib1 (vk_beta1 pk))
                      (g1_mulByScalarA D1 (Fr_bytes s)) in
    le_decode (rs_bytes r s) =
      (le_decode (Fr_bytes r) * le_decode (Fr_bytes s)) mod Fr.q /\
    proof_A pf = g1_copy A /\
    proof_B pf = g2_copy B /\
    proof_C pf =
      g1_copy
        (g1_sub
           (g1_add (g1_add (g1_add pi_c_partial pih)
                           (g1_mulByScalar A (Fr_bytes s)))
                   (g1_mulByScalar B1' (Fr_bytes r)))
           (g1_mulByScalarA D1 (rs_bytes r s))).
Proof.
  unfold prove, prove_with.
  destruct (witness_msms pk wtns) as [[[[pi_a pib1] pi_b] pi_c]|];
    [|discriminate].
  destruct (evaluate zero_body U pk wtns) as [[st pih]|]; [|discriminate].
  destruct (sample_scalar fuel (stack_r U) g) as [[r g1]|] eqn:Hr;
    [|discriminate].
  destruct (sample_scalar fuel (stack_s U) g1) as [[s g2]|] eqn:Hs;
    [|discriminate].
  intros [= <- <-].
  exists pi_a, pib1, pi_b, pi_c, pih, st, r, s, g1.
  split; [reflexivity|]. split; [reflexivity|]. split; [reflexivity|].
  split; [exact Hs|].
  split; [eapply sample_scalar_accepted; exact Hr|].
  split; [eapply sample_scalar_accepted; exact Hs|].
  cbv zeta. split; [apply rs_bytes_value|].
  split; [reflexivity|]. split; reflexivity.
Qed.

(** C8. In Phase 6 the scalar of the last mulByScalar is the Montgomery
    product of r and s put through toMontgomery, while r and s go in as
    their raw bytes; read as little-endian integers, the bytes of that
    scalar are exactly r·s mod q for the integers the bytes of r and s
    encode. *)
Theorem rs_scalar_encoding {E : Engine} (pk : Prover)
    (pi_a pib1 : G1Point) (pi_b : G2Point) (pi_c pih : G1Point)
    (r s : FrElement) :
  let A := g1_add (g1_addA pi_a (vk_alpha1 pk))
                  (g1_mulByScalarA (vk_delta1 pk) (Fr_bytes r)) in
  let B1' := g1_add (g1_addA pib1 (vk_beta1 pk))
                    (g1_mulByScalarA (vk_delta1 pk) (Fr_bytes s)) in
  proof_C (assemble pk pi_a pib1 pi_b pi_c pih r s) =
    g1_copy
      (g1_sub
         (g1_add (g1_add (g1_add pi_c pih) (g1_mulByScalar A (Fr_bytes s)))
                 (g1_mulByScalar B1' (Fr_bytes r)))
         (g1_mulByScalarA (vk_delta1 pk) (rs_bytes r s))) /\
  rs_bytes r s = Fr_bytes (Fr.toMontgomery (Fr.mul r s)) /\
  Fr_val (Fr.mul r s) = (Fr_val r * Fr_val s * Fr.Rinv) mod Fr.q /\
  le_decode (Fr_bytes r) = Fr_val r /\
  le_decode (Fr_bytes s) = Fr_val s /\
  le_decode (rs_bytes r s) = (Fr_val r * Fr_val s) mod Fr.q.
Proof.
  intros A B1'. split; [reflexivity|]. split; [reflexivity|].
  split; [apply Fr_val_of_Z_mod|].
  split; [apply le_decode_Fr_bytes|]. split; [apply le_decode_Fr_bytes|].
  rewrite rs_bytes_value. now rewrite !le_decode_Fr_bytes.
Qed.

(** ** The JSON projections *)

Lemma string_app_assoc (s1 s2 s3 : string) :
  ((s1 ++ s2) ++ s3 = s1 ++ (s2 ++ s3))%string.
Proof. induction s1 as [|ch s1 IH]; cbn; [reflexivity | now rewrite IH]. Qed.

Lemma plain_text_digits (d : Decimal.uint) :
  plain_text (NilEmpty.string_of_uint d).
Proof. induction d; cbn; repeat split; try discriminate; assumption. Qed.

(** A coordinate string holds digits only. *)
Lemma plain_text_toString (x : F1Element) : plain_text (F1.toString x).
Proof.
  unfold F1.toString, F1.decimal, NilZero.string_of_uint.
  destruct (N.to_uint (Z.to_N (F1.natural x))); try apply plain_text_digits.
  cbn. repeat split; discriminate.
Qed.

(** Inside a literal the scan copies up to the closing quote. *)
Lemma json_compact_in_string (s t : string) :
  plain_text s ->
  json_compact_from InString (s ++ dquote ++ t) =
  (s ++ dquote ++ json_compact_from Between t)%string.
Proof.
  induction s as [|ch s IH]; cbn [plain_text append].
  - intros _. reflexivity.
  - intros [[Hq Hb] Hs]. cbn [json_compact_from].
    apply Ascii.eqb_neq in Hq, Hb. rewrite Hq, Hb. now rewrite IH.
Qed.

Lemma json_compact_quoted (s t : string) :
  plain_text s ->
  json_compact_from Between (quoted s ++ t) =
  (quoted s ++ json_compact_from Between t)%string.
Proof.
  intro Hs. unfold quoted. rewrite !string_app_assoc.
  change (dquote ++ s ++ dquote ++ t)%string
    with (String (ascii_of_nat 34) (s ++ dquote ++ t)%string).
  cbn [json_compact_from]. change (json_space (ascii_of_nat 34)) with false.
  cbn match. rewrite Ascii.eqb_refl.
  rewrite json_compact_in_string by exact Hs. reflexivity.
Qed.

(** Between tokens the scan goes through a text without quotes piece by
    piece. *)
Lemma json_compact_between (s t : string) :
  quote_free s ->
  json_compact_from Between (s ++ t) =
  (json_compact_from Between s ++ json_compact_from Between t)%string.
Proof.
  induction s as [|ch s IH]; cbn [quote_free append json_compact_from].
  - reflexivity.
  - intros [Hq Hs]. apply Ascii.eqb_neq in Hq. rewrite Hq.
    destruct (json_space ch); cbn [append]; now rewrite IH.
Qed.

(** The text of [toJsonStr], white space between tokens removed, is the
    compact text of the object: the blanks inside a literal would stay. *)
Lemma toJsonStr_compact (pf : Proof) :
  json_compact (toJsonStr pf) = dump (spec_json pf).
Proof.
  unfold json_compact, toJsonStr, spec_json, coordinate.
  pose proof (plain_text_toString (g1_x (proof_A pf))) as Hax.
  pose proof (plain_text_toString (g1_y (proof_A pf))) as Hay.
  pose proof (plain_text_toString (f2_a (g2_x (proof_B pf)))) as Hbxa.
  pose proof (plain_text_toString (f2_b (g2_x (proof_B pf)))) as Hbxb.
  pose proof (plain_text_toString (f2_a (g2_y (proof_B pf)))) as Hbya.
  pose proof (plain_text_toString (f2_b (g2_y (proof_B pf)))) as Hbyb.
  pose proof (plain_text_toString (g1_x (proof_C pf))) as Hcx.
  pose proof (plain_text_toString (g1_y (proof_C pf))) as Hcy.
  change (F1.decimal (F1.natural (g1_x (proof_A pf))))
    with (F1.toString (g1_x (proof_A pf))).
  change (F1.decimal (F1.natural (g1_y (proof_A pf))))
    with (F1.toString (g1_y (proof_A pf))).
  change (F1.decimal (F1.natural (f2_a (g2_x (proof_B pf)))))
    with (F1.toString (f2_a (g2_x (proof_B pf)))).
  change (F1.decimal (F1.natural (f2_b (g2_x (proof_B pf)))))
    with (F1.toString (f2_b (g2_x (proof_B pf)))).
  change (F1.decimal (F1.natural (f2_a (g2_y (proof_B pf)))))
    with (F1.toString (f2_a (g2_y (proof_B pf)))).
  change (F1.decimal (F1.natural (f2_b (g2_y (proof_B pf)))))
    with (F1.toString (f2_b (g2_y (proof_B pf)))).
  change (F1.decimal (F1.natural (g1_x (proof_C pf))))
    with (F1.toString (g1_x (proof_C pf))).
  change (F1.decimal (F1.natural (g1_y (proof_C pf))))
    with (F1.toString (g1_y (proof_C pf))).
  generalize dependent (F1.toString (g1_x (proof_A pf))).
  generalize dependent (F1.toString (g1_y (proof_A pf))).
  generalize dependent (F1.toString (f2_a (g2_x (proof_B pf)))).
  generalize dependent (F1.toString (f2_b (g2_x (proof_B pf)))).
  generalize dependent (F1.toString (f2_a (g2_y (proof_B pf)))).
  generalize dependent (F1.toString (f2_b (g2_y (proof_B pf)))).
  generalize dependent (F1.toString (g1_x (proof_C pf))).
  generalize dependent (F1.toString (g1_y (proof_C pf))).
  intros cy Hcy cx Hcx byb Hbyb bya Hbya bxb Hbxb bxa Hbxa ay Hay ax Hax.
  cbn [dump]. rewrite !string_app_assoc.
  repeat first
    [ rewrite json_compact_quoted
        by first [assumption | cbn; intuition discriminate]
    | rewrite json_compact_between by (cbn; intuition discriminate) ].
  reflexivity.
Qed.

(** C9. For every proof, toJson builds, and toJsonStr spells, the object
    with the fields pi_a, pi_b, pi_c, protocol in this order, where pi_a and
    pi_c are [X, Y, "1"], pi_b is [[X.a, X.b], [Y.a, Y.b], ["1","0"]],
    protocol is "groth16", and each coordinate is the decimal string of the
    natural-form representative. The text of toJsonStr is compared as JSON
    reads it: the white space between its tokens is dropped, every character
    inside a string literal counts. *)
Theorem proof_json_shape (pf : Proof) :
  toJson pf = Some (spec_json pf) /\
  json_compact (toJsonStr pf) = dump (spec_json pf) /\
  (forall x : F1Element,
     F1.toString x = F1.decimal (F1.natural x) /\
     0 <= F1.natural x < F1.p /\
     (F1.natural x * 2 ^ 256) mod F1.p = raw_val x mod F1.p).
Proof.
  split; [reflexivity|]. split; [apply toJsonStr_compact|].
  intro x. split; [reflexivity|]. split.
  - apply Z.mod_pos_bound. reflexivity.
  - unfold F1.natural.
    rewrite Z.mul_mod_idemp_l by discriminate.
    rewrite <- Z.mul_assoc, <- Z.mul_mod_idemp_r by discriminate.
    change ((F1.Rinv * 2 ^ 256) mod F1.p) with 1. now rewrite Z.mul_1_r.
Qed.

(** ** Totality on a well-formed key *)

Lemma scatter_list_total (wtns : list FrElement) (n : nat) (cs : list Coef) :
  Forall (fun cf => (Z.to_nat (coef_s cf) < length wtns)%nat /\
                    (Z.to_nat (coef_c cf) < n)%nat) cs ->
  forall st : Arrays,
    length (arr_a st) = n -> length (arr_b st) = n ->
    is_Some (scatter_list wtns cs st).
Proof.
  induction 1 as [|cf cs [Hs Hc] _ IH]; intros st Ha Hb; cbn [scatter_list].
  - eauto.
  - assert (Hstep : is_Some (scatter_step wtns cf st)).
    { rewrite scatter_step_apply.
      destruct (lookup_lt_is_Some_2 wtns _ Hs) as [w ->]. cbn.
      unfold apply_record. rewrite !bump_lookup.
      destruct (coef_m cf =? 0).
      - destruct (lookup_lt_is_Some_2 (arr_a st) (Z.to_nat (coef_c cf)))
          as [old ->]; [lia | cbn; eauto].
      - destruct (lookup_lt_is_Some_2 (arr_b st) (Z.to_nat (coef_c cf)))
          as [old ->]; [lia | cbn; eauto]. }
    destruct Hstep as [st1 Hst1]. rewrite Hst1; cbn.
    apply scatter_step_shape in Hst1 as (Ha1 & Hb1 & _).
    apply IH; congruence.
Qed.

Lemma accumulate_total (U : Uninit) (pk : Prover) (wtns : list FrElement) :
  valid_key pk ->
  nVars pk <= Z.of_nat (length wtns) ->
  is_Some (accumulate zero_body U pk wtns).
Proof.
  intros Hk Hw. pose proof Hk as [Hpub _ _ Hdom Hn Hcs Hrange _ _ _ _ _].
  rewrite accumulate_closed by now left. cbn zeta.
  unfold scatter, for_range.
  rewrite scatter_loop_list by lia. rewrite drop_0.
  destruct (scatter_list_total wtns (Z.to_nat (domainSize pk))
              (take (Z.to_nat (nCoefs pk)) (coefs pk))) with
    (st := mkArrays (replicate (Z.to_nat (domainSize pk)) Fr.zero)
                    (replicate (Z.to_nat (domainSize pk)) Fr.zero) [])
    as [st Hst].
  - eapply Forall_impl; [exact Hrange|].
    intros cf [Hs Hc]. lia.
  - apply length_replicate.
  - apply length_replicate.
  - rewrite Hst. cbn. eauto.
Qed.

(** C5. For every permutation of the coefficient stream the scatter leaves
    the same a and b (and the same c = a·b after it): every cell a[j], b[j]
    holds the serial sum Σ wtns[s_k]·coef_k over the records with m = 0,
    respectively m ≠ 0, and c_idx = j, whatever the processing order. The
    records index inside the witness buffer and the domain, and the counts
    are below 2^31 as the int loop counters need, so the arrays exist. *)
Theorem scatter_order_independent (U : Uninit) (pk : Prover)
    (wtns : list FrElement) (cs cs' : list Coef) :
  cs ≡ₚ cs' ->
  0 <= domainSize pk < 2 ^ 31 ->
  Z.of_nat (length cs) < 2 ^ 31 ->
  Forall (record_in_bounds wtns (Z.to_nat (domainSize pk))) cs ->
  (forall st : Arrays,
     scatter cs (Z.of_nat (length cs)) wtns st =
     scatter cs' (Z.of_nat (length cs')) wtns st) /\
  exists st : Arrays,
    accumulate zero_body U (with_coefs pk cs) wtns = Some st /\
    accumulate zero_body U (with_coefs pk cs') wtns = Some st /\
    length (arr_a st) = Z.to_nat (domainSize pk) /\
    length (arr_b st) = Z.to_nat (domainSize pk) /\
    length (arr_c st) = Z.to_nat (domainSize pk) /\
    forall j : nat, (j < Z.to_nat (domainSize pk))%nat ->
      arr_a st !! j = Some (bucket_sum wtns false j cs) /\
      arr_b st !! j = Some (bucket_sum wtns true j cs) /\
      arr_c st !! j = Some (Fr.mul (bucket_sum wtns false j cs)
                                   (bucket_sum wtns true j cs)) /\
      bucket_sum wtns false j cs' = bucket_sum wtns false j cs /\
      bucket_sum wtns true j cs' = bucket_sum wtns true j cs.
Proof.
  intros Hp _ _ Hin.
  destruct (scatter_perm_buckets U pk wtns cs cs' Hp) as (Hscatter & Hacc & Hsums).
  split; [exact Hscatter|].
  assert (Hex : is_Some (accumulate zero_body U (with_coefs pk cs) wtns)).
  { rewrite accumulate_closed by now left.
    cbn [with_coefs coefs nCoefs domainSize]. cbn zeta.
    rewrite scatter_whole_list.
    destruct (scatter_list_total wtns (Z.to_nat (domainSize pk)) cs Hin
                (mkArrays (replicate (Z.to_nat (domainSize pk)) Fr.zero)
                          (replicate (Z.to_nat (domainSize pk)) Fr.zero) []))
      as [st1 Hst1]; try apply length_replicate.
    rewrite Hst1. cbn. eauto. }
  destruct Hex as [st Hst]. exists st.
  split; [exact Hst|]. split; [now rewrite <- Hacc|].
  pose proof (accumulate_lengths U (with_coefs pk cs) wtns st Hst)
    as (Ha & Hb & Hc).
  cbn [with_coefs domainSize] in Ha, Hb, Hc.
  split; [exact Ha|]. split; [exact Hb|]. split; [exact Hc|].
  exact (Hsums st Hst).
Qed.

(** A loop in two parts. *)
Lemma for_loop_app {S : Type} (body : nat -> S -> option S) :
  forall (c1 c2 i : nat) (s : S),
    for_loop body i (c1 + c2) s =
    (s1 ← for_loop body i c1 s; for_loop body (i + c1) c2 s1).
Proof.
  induction c1 as [|c1 IH]; intros c2 i s; cbn [for_loop Nat.add].
  - cbn. now rewrite Nat.add_0_r.
  - destruct (body i s) as [s1|]; cbn; [|reflexivity].
    rewrite IH. now rewrite Nat.add_succ_r.
Qed.

(** An MSM over more scalars than the buffer holds reads past its end. *)
Lemma multiMulByScalar_short {P A : Type} (zero : P) (add : P -> P -> P)
    (mul : A -> list byte -> P) (bases : list A) (w : list FrElement) (n : Z) :
  (length w < Z.to_nat n)%nat -> (Z.to_nat n <= length bases)%nat ->
  multiMulByScalar zero add mul bases (Fr_buf_bytes w) sizeof_FrElement n = None.
Proof.
  intros Hw Hb. unfold multiMulByScalar, for_range.
  change (Z.to_nat sizeof_FrElement) with 32%nat.
  replace (Z.to_nat n) with (length w + Datatypes.S (Z.to_nat n - length w - 1))%nat
    by lia.
  rewrite for_loop_app, msm_loop by lia.
  cbn [mbind option_bind for_loop Nat.add].
  assert (Hbody : forall acc : P,
            msm_body add mul bases (Fr_buf_bytes w) 32 (length w) acc = None).
  { intro acc. unfold msm_body, load, read_bytes.
    destruct (lookup_lt_is_Some_2 bases (length w) ltac:(lia)) as [b ->]. cbn.
    rewrite Fr_buf_bytes_length.
    destruct (Nat.leb_spec (length w * 32 + 32) (length w * 32)); [lia|].
    reflexivity. }
  now rewrite Hbody.
Qed.

(** Phase 2 runs to its end when the records index inside the buffers. *)
Lemma accumulate_total_in_bounds (U : Uninit) (pk : Prover)
    (wtns : list FrElement) :
  0 <= nCoefs pk <= Z.of_nat (length (coefs pk)) ->
  Forall (record_in_bounds wtns (Z.to_nat (domainSize pk)))
         (take (Z.to_nat (nCoefs pk)) (coefs pk)) ->
  is_Some (accumulate zero_body U pk wtns).
Proof.
  intros Hn Hin. rewrite accumulate_closed by now left. cbn zeta.
  unfold scatter, for_range.
  rewrite scatter_loop_list by lia. rewrite drop_0.
  destruct (scatter_list_total wtns (Z.to_nat (domainSize pk))
              (take (Z.to_nat (nCoefs pk)) (coefs pk)) Hin
              (mkArrays (replicate (Z.to_nat (domainSize pk)) Fr.zero)
                        (replicate (Z.to_nat (domainSize pk)) Fr.zero) []))
    as [st Hst]; try apply length_replicate.
  rewrite Hst. cbn. eauto.
Qed.

(** C7 (as the code has it). prove takes a bare pointer and never looks at
    the length of the witness: there is no InvalidWitnessLength outcome. On
    a well-formed key, with a randomness source that yields acceptable r and
    s, every internal step succeeds and a proof is returned whenever the
    buffer holds at least nVars elements, a longer buffer included; a
    shorter buffer is read past its end, which is undefined behaviour and
    not a reported error. Well-formed is the data model of the spec together
    with what the loops and the logging statements of the source need:
    domainSize a power of two, at least 2 and below 2^31, nCoefs below
    2^31. *)
Theorem prove_total_on_valid_input {E : Engine} (U : Uninit) (fuel : nat)
    (pk : Prover) (wtns : list FrElement) (g g1 g2 : Rng) (r s : FrElement) :
  well_formed_key pk ->
  sample_scalar fuel (stack_r U) g = Some (r, g1) ->
  sample_scalar fuel (stack_s U) g1 = Some (s, g2) ->
  (nVars pk <= Z.of_nat (length wtns) ->
     exists pf : Proof, prove U fuel pk wtns g = Returns (pf, g2)) /\
  (Z.of_nat (length wtns) < nVars pk ->
     prove U fuel pk wtns g = Undefined).
Proof.
  intros [Hpub Hvars Hdom _ Hn Hcs Hrange HA HB1 HB2 HC HH] Hr Hs.
  split; intro Hw.
  - unfold prove, prove_with, evaluate.
    rewrite witness_msms_wrapped by lia.
    destruct (accumulate_total_in_bounds U pk wtns) as [st0 Hacc]; [lia| |].
    { eapply Forall_impl; [exact Hrange|].
      intros cf [Hcs' Hcc]. split; lia. }
    rewrite Hacc; cbn.
    apply accumulate_lengths in Hacc as (Ha & Hb & Hc).
    destruct (quotient_closed pk st0 Ha Hb Hc HH) as (_ & _ & _ & Hq).
    rewrite Hq, Hr, Hs. eauto.
  - unfold prove, prove_with, witness_msms, g1_multiMulByScalar.
    rewrite (multiMulByScalar_short _ _ _ (pointsA pk));
      [reflexivity | lia | lia].
Qed.

(** * The theorems at the small instance *)

Lemma prove_assembly_witness :
  prove demo_uninit 4 demo_key demo_wtns demo_rng =
    Returns (demo_proof, mkRng demo_src 96) /\
  exists (pi_a pib1 : G1Point) (pi_b : G2Point) (pi_c_partial pih : G1Point)
         (st : Arrays) (r s : FrElement) (g1 : Rng),
    witness_msms demo_key demo_wtns = Some (pi_a, pib1, pi_b, pi_c_partial) /\
    evaluate zero_body demo_uninit demo_key demo_wtns = Some (st, pih) /\
    sample_scalar 4 (stack_r demo_uninit) demo_rng = Some (r, g1) /\
    sample_scalar 4 (stack_s demo_uninit) g1 = Some (s, mkRng demo_src 96) /\
    0 <= Fr_val r < Fr.q /\ 0 <= Fr_val s < Fr.q /\
    let D1 := vk_delta1 demo_key in
    let D2 := vk_delta2 demo_key in
    let A := g1_add (g1_addA pi_a (vk_alpha1 demo_key))
                    (g1_mulByScalarA D1 (Fr_bytes r)) in
    let B := g2_add (g2_addA pi_b (vk_beta2 demo_key))
                    (g2_mulByScalarA D2 (Fr_bytes s)) in
    let B1' := g1_add (g1_addA pib1 (vk_beta1 demo_key))
                      (g1_mulByScalarA D1 (Fr_bytes s)) in
    le_decode (rs_bytes r s) =
      (le_decode (Fr_bytes r) * le_decode (Fr_bytes s)) mod Fr.q /\
    proof_A demo_proof = g1_copy A /\
    proof_B demo_proof = g2_copy B /\
    proof_C demo_proof =
      g1_copy
        (g1_sub
           (g1_add (g1_add (g1_add pi_c_partial pih)
                           (g1_mulByScalar A (Fr_bytes s)))
                   (g1_mulByScalar B1' (Fr_bytes r)))
           (g1_mulByScalarA D1 (rs_bytes r s))).
Proof.
  assert (H : prove demo_uninit 4 demo_key demo_wtns demo_rng =
              Returns (demo_proof, mkRng demo_src 96))
    by (vm_compute; reflexivity).
  split; [exact H|].
  exact (prove_assembly demo_uninit 4 demo_key demo_wtns demo_rng
           (mkRng demo_src 96) demo_proof H).
Defined.

Lemma quotient_spec_witness :
  accumulate zero_body demo_uninit demo_key demo_wtns = Some demo_st0 /\
  domainSize demo_key <= Z.of_nat (length (pointsH demo_key)) /\
  2 <= domainSize demo_key < 2 ^ 31 /\
  power_of_two (domainSize demo_key) /\
  let a' := coset_eval demo_key (arr_a demo_st0) in
  let b' := coset_eval demo_key (arr_b demo_st0) in
  let c' := coset_eval demo_key (arr_c demo_st0) in
  let h := h_evals a' b' c' in
  let pih :=
    MSM_G1 (take (Z.to_nat (domainSize demo_key)) (pointsH demo_key)) h in
  coset_chains demo_key demo_st0 = Some (mkArrays a' b' c') /\
  for_range abc_body (domainSize demo_key) (mkArrays a' b' c') =
    Some (mkArrays h b' c') /\
  (forall i : nat, (i < Z.to_nat (domainSize demo_key))%nat ->
     exists x y z : FrElement,
       a' !! i = Some x /\ b' !! i = Some y /\ c' !! i = Some z /\
       h !! i = Some (Fr.fromMontgomery (Fr.sub (Fr.mul x y) z))) /\
  quotient demo_key demo_st0 = Some (mkArrays h b' c', pih) /\
  evaluate zero_body demo_uninit demo_key demo_wtns =
    Some (mkArrays h b' c', pih) /\
  (forall (fuel : nat) (g : Rng),
     prove demo_uninit fuel demo_key demo_wtns g =
     match witness_msms demo_key demo_wtns with
     | None => Undefined
     | Some (pi_a, pib1, pi_b, pi_c) =>
         match sample_scalar fuel (stack_r demo_uninit) g with
         | None => OutOfFuel
         | Some (r, g1) =>
             match sample_scalar fuel (stack_s demo_uninit) g1 with
             | None => OutOfFuel
             | Some (s, g2) =>
                 Returns (assemble demo_key pi_a pib1 pi_b pi_c pih r s, g2)
             end
         end
     end).
Proof.
  assert (H1 : accumulate zero_body demo_uninit demo_key demo_wtns =
               Some demo_st0) by (vm_compute; reflexivity).
  assert (H2 : domainSize demo_key <= Z.of_nat (length (pointsH demo_key)))
    by (simpl; lia).
  assert (H3 : 2 <= domainSize demo_key < 2 ^ 31) by (simpl; lia).
  assert (H4 : power_of_two (domainSize demo_key))
    by (exists 1; split; [lia | reflexivity]).
  split; [exact H1|]. split; [exact H2|]. split; [exact H3|].
  split; [exact H4|].
  exact (quotient_spec demo_uninit demo_key demo_wtns demo_st0 H1 H2 H3 H4).
Defined.

(** The run behind it is not a degenerate one: the transforms of the small
    engine are the two-point transform and its inverse, the arrays are not
    zero and the quotient vector is not zero. *)
Example demo_quotient_nonzero :
  map Fr_val (arr_a demo_st0) <> [0; 0] /\
  map Fr_val (arr_b demo_st0) <> [0; 0] /\
  coset_eval demo_key (arr_a demo_st0) <> arr_a demo_st0 /\
  map Fr_val (h_evals (coset_eval demo_key (arr_a demo_st0))
                      (coset_eval demo_key (arr_b demo_st0))
                      (coset_eval demo_key (arr_c demo_st0))) =
    [8208478628370975664605788504043200745318227700138524294682292767756335632007;
     8208478628370975664605788504043200745318227700138524294682292767756335632007].
Proof. repeat split; vm_compute; congruence. Qed.

Lemma wrap_wtns_length : length wrap_wtns = Z.to_nat (2 ^ 27 + 1).
Proof.
  unfold wrap_wtns. cbn [length]. rewrite length_app, length_replicate.
  cbn [length]. lia.
Qed.

Lemma witness_msms_offset_wraps_witness :
  0 <= nPublic wrap_key < nVars wrap_key /\
  nVars wrap_key < 2 ^ 32 /\
  (Z.to_nat (nVars wrap_key) <= length wrap_wtns)%nat /\
  (Z.to_nat (nVars wrap_key) <= length (pointsA wrap_key))%nat /\
  (Z.to_nat (nVars wrap_key) <= length (pointsB1 wrap_key))%nat /\
  (Z.to_nat (nVars wrap_key) <= length (pointsB2 wrap_key))%nat /\
  (Z.to_nat (nVars wrap_key - nPublic wrap_key - 1) <=
   length (pointsC wrap_key))%nat /\
  let nV := Z.to_nat (nVars wrap_key) in
  let nC := Z.to_nat (nVars wrap_key - nPublic wrap_key - 1) in
  let first := Z.to_nat ((nPublic wrap_key + 1) mod 2 ^ 27) in
  pi_c_offset wrap_key sizeof_FrElement =
    sizeof_FrElement * ((nPublic wrap_key + 1) mod 2 ^ 27) /\
  witness_msms wrap_key wrap_wtns =
    Some (MSM_G1 (take nV (pointsA wrap_key)) (take nV wrap_wtns),
          MSM_G1 (take nV (pointsB1 wrap_key)) (take nV wrap_wtns),
          MSM_G2 (take nV (pointsB2 wrap_key)) (take nV wrap_wtns),
          MSM_G1 (take nC (pointsC wrap_key))
                 (take nC (drop first wrap_wtns))) /\
  ((nPublic wrap_key + 1) * sizeof_FrElement < 2 ^ 32 ->
   first = Z.to_nat (nPublic wrap_key + 1)) /\
  (2 ^ 32 <= (nPublic wrap_key + 1) * sizeof_FrElement ->
   (first <= Z.to_nat (nPublic wrap_key))%nat).
Proof.
  assert (H1 : 0 <= nPublic wrap_key < nVars wrap_key)
    by (unfold wrap_key; cbn [nPublic nVars]; lia).
  assert (H2 : nVars wrap_key < 2 ^ 32)
    by (unfold wrap_key; cbn [nVars]; lia).
  assert (H3 : (Z.to_nat (nVars wrap_key) <= length wrap_wtns)%nat).
  { rewrite wrap_wtns_length. unfold wrap_key; cbn [nVars]. apply Nat.le_refl. }
  assert (H4 : (Z.to_nat (nVars wrap_key) <= length (pointsA wrap_key))%nat).
  { unfold wrap_key; cbn [nVars pointsA]. rewrite length_replicate.
    apply Nat.le_refl. }
  assert (H5 : (Z.to_nat (nVars wrap_key) <= length (pointsB1 wrap_key))%nat).
  { unfold wrap_key; cbn [nVars pointsB1]. rewrite length_replicate.
    apply Nat.le_refl. }
  assert (H6 : (Z.to_nat (nVars wrap_key) <= length (pointsB2 wrap_key))%nat).
  { unfold wrap_key; cbn [nVars pointsB2]. rewrite length_replicate.
    apply Nat.le_refl. }
  assert (H7 : (Z.to_nat (nVars wrap_key - nPublic wrap_key - 1) <=
                length (pointsC wrap_key))%nat).
  { unfold wrap_key; cbn [nVars nPublic pointsC length]. lia. }
  split; [exact H1|]. split; [exact H2|]. split; [exact H3|].
  split; [exact H4|]. split; [exact H5|]. split; [exact H6|].
  split; [exact H7|].
  exact (witness_msms_offset_wraps wrap_key wrap_wtns H1 H2 H3 H4 H5 H6 H7).
Defined.

(** At this key the byte offset is 2^32, which wraps to 0: the fourth MSM
    multiplies pointsC[0] by wtns[0], the constant 1, where the private
    signal is wtns[2^27] = 3. *)
Example offset_wraps_reads_public_prefix :
  (nPublic wrap_key + 1) * sizeof_FrElement = 2 ^ 32 /\
  pi_c_offset wrap_key sizeof_FrElement = 0 /\
  snd <$> witness_msms wrap_key wrap_wtns =
    Some (MSM_G1 [demo_g1 47] [Fr_of_Z 1]) /\
  take 1 (drop (Z.to_nat (nPublic wrap_key + 1)) wrap_wtns) = [Fr_of_Z 3] /\
  MSM_G1 [demo_g1 47] [Fr_of_Z 1] <> MSM_G1 [demo_g1 47] [Fr_of_Z 3].
Proof.
  split; [reflexivity|]. split; [reflexivity|]. split; [|split].
  - rewrite witness_msms_wrapped.
    + cbn [fmap option_fmap option_map snd].
      unfold wrap_key. cbn [nVars nPublic pointsC].
      replace (Z.to_nat (2 ^ 27 + 1 - (2 ^ 27 - 1) - 1)) with 1%nat by lia.
      replace ((2 ^ 27 - 1 + 1) mod 2 ^ 27) with 0 by reflexivity.
      unfold wrap_wtns. generalize (Z.to_nat (2 ^ 27 - 1)). intro n.
      reflexivity.
    + unfold wrap_key; cbn [nPublic nVars]; lia.
    + unfold wrap_key; cbn [nVars]; lia.
    + rewrite wrap_wtns_length. unfold wrap_key; cbn [nVars].
      apply Nat.le_refl.
    + unfold wrap_key; cbn [nVars pointsA]. rewrite length_replicate.
      apply Nat.le_refl.
    + unfold wrap_key; cbn [nVars pointsB1]. rewrite length_replicate.
      apply Nat.le_refl.
    + unfold wrap_key; cbn [nVars pointsB2]. rewrite length_replicate.
      apply Nat.le_refl.
    + unfold wrap_key; cbn [nVars nPublic pointsC length]. lia.
  - unfold wrap_key, wrap_wtns. cbn [nPublic].
    replace (Z.to_nat (2 ^ 27 - 1 + 1))
      with (Datatypes.S (Z.to_nat (2 ^ 27 - 1))) by lia.
    generalize (Z.to_nat (2 ^ 27 - 1)). intro n.
    cbn [drop]. rewrite drop_app_length' by now rewrite length_replicate.
    reflexivity.
  - vm_compute. discriminate.
Qed.

Lemma scatter_order_independent_witness :
  demo_coefs_meet ≡ₚ rev demo_coefs_meet /\
  0 <= domainSize demo_key < 2 ^ 31 /\
  Z.of_nat (length demo_coefs_meet) < 2 ^ 31 /\
  Forall (record_in_bounds demo_wtns (Z.to_nat (domainSize demo_key)))
         demo_coefs_meet /\
  (forall st : Arrays,
     scatter demo_coefs_meet (Z.of_nat (length demo_coefs_meet)) demo_wtns st =
     scatter (rev demo_coefs_meet) (Z.of_nat (length (rev demo_coefs_meet)))
             demo_wtns st) /\
  exists st : Arrays,
    accumulate zero_body demo_uninit (with_coefs demo_key demo_coefs_meet)
               demo_wtns = Some st /\
    accumulate zero_body demo_uninit
               (with_coefs demo_key (rev demo_coefs_meet)) demo_wtns = Some st /\
    length (arr_a st) = Z.to_nat (domainSize demo_key) /\
    length (arr_b st) = Z.to_nat (domainSize demo_key) /\
    length (arr_c st) = Z.to_nat (domainSize demo_key) /\
    forall j : nat, (j < Z.to_nat (domainSize demo_key))%nat ->
      arr_a st !! j = Some (bucket_sum demo_wtns false j demo_coefs_meet) /\
      arr_b st !! j = Some (bucket_sum demo_wtns true j demo_coefs_meet) /\
      arr_c st !! j =
        Some (Fr.mul (bucket_sum demo_wtns false j demo_coefs_meet)
                     (bucket_sum demo_wtns true j demo_coefs_meet)) /\
      bucket_sum demo_wtns false j (rev demo_coefs_meet) =
        bucket_sum demo_wtns false j demo_coefs_meet /\
      bucket_sum demo_wtns true j (rev demo_coefs_meet) =
        bucket_sum demo_wtns true j demo_coefs_meet.
Proof.
  assert (H1 : demo_coefs_meet ≡ₚ rev demo_coefs_meet)
    by apply Permutation_rev.
  assert (H2 : 0 <= domainSize demo_key < 2 ^ 31) by (simpl; lia).
  assert (H3 : Z.of_nat (length demo_coefs_meet) < 2 ^ 31) by (simpl; lia).
  assert (H4 : Forall (record_in_bounds demo_wtns
                         (Z.to_nat (domainSize demo_key))) demo_coefs_meet).
  { unfold demo_coefs_meet.
    repeat (apply Forall_cons_2; [split; simpl; lia|]). apply Forall_nil_2. }
  split; [exact H1|]. split; [exact H2|]. split; [exact H3|].
  split; [exact H4|].
  exact (scatter_order_independent demo_uninit demo_key demo_wtns
           demo_coefs_meet (rev demo_coefs_meet) H1 H2 H3 H4).
Defined.

(** In this stream two records meet in each of a[0], b[0] and a[1], and the
    run holds their sums, the same in both orders. *)
Example demo_meeting_sums :
  map (fun cf => (coef_m cf, coef_c cf)) demo_coefs_meet =
    [(0, 0); (1, 0); (0, 0); (1, 0); (0, 1); (0, 1); (1, 1)] /\
  (arr_a <$> accumulate zero_body demo_uninit
               (with_coefs demo_key demo_coefs_meet) demo_wtns) =
    Some [Fr.add (Fr.add Fr.zero (Fr.mul (Fr_of_Z 3) (Fr_of_Z 5)))
                 (Fr.mul (Fr_of_Z 5) (Fr_of_Z 8));
          Fr.add (Fr.add Fr.zero (Fr.mul (Fr_of_Z 1) (Fr_of_Z 7)))
                 (Fr.mul (Fr_of_Z 3) (Fr_of_Z 2))] /\
  (arr_a <$> accumulate zero_body demo_uninit
               (with_coefs demo_key (rev demo_coefs_meet)) demo_wtns) =
  (arr_a <$> accumulate zero_body demo_uninit
               (with_coefs demo_key demo_coefs_meet) demo_wtns) /\
  (arr_b <$> accumulate zero_body demo_uninit
               (with_coefs demo_key (rev demo_coefs_meet)) demo_wtns) =
  (arr_b <$> accumulate zero_body demo_uninit
               (with_coefs demo_key demo_coefs_meet) demo_wtns).
Proof. repeat split; vm_compute; reflexivity. Qed.

Lemma prove_total_on_valid_input_witness :
  well_formed_key demo_key /\
  sample_scalar 4 (stack_r demo_uninit) demo_rng =
    Some (candidate demo_rng 1, mkRng demo_src 64) /\
  sample_scalar 4 (stack_s demo_uninit) (mkRng demo_src 64) =
    Some (candidate demo_rng 2, mkRng demo_src 96) /\
  (nVars demo_key <= Z.of_nat (length demo_wtns) ->
     exists pf : Proof,
       prove demo_uninit 4 demo_key demo_wtns demo_rng =
       Returns (pf, mkRng demo_src 96)) /\
  (Z.of_nat (length demo_wtns) < nVars demo_key ->
     prove demo_uninit 4 demo_key demo_wtns demo_rng = Undefined).
Proof.
  assert (H1 : well_formed_key demo_key).
  { constructor; unfold demo_coefs; cbn; try lia.
    - exists 1. split; [lia | reflexivity].
    - repeat constructor; cbn; lia. }
  assert (H2 : sample_scalar 4 (stack_r demo_uninit) demo_rng =
               Some (candidate demo_rng 1, mkRng demo_src 64))
    by (vm_compute; reflexivity).
  assert (H3 : sample_scalar 4 (stack_s demo_uninit) (mkRng demo_src 64) =
               Some (candidate demo_rng 2, mkRng demo_src 96))
    by (vm_compute; reflexivity).
  split; [exact H1|]. split; [exact H2|]. split; [exact H3|].
  exact (prove_total_on_valid_input demo_uninit 4 demo_key demo_wtns demo_rng
           (mkRng demo_src 64) (mkRng demo_src 96)
           (candidate demo_rng 1) (candidate demo_rng 2) H1 H2 H3).
Defined.


(** * Where the code departs from the spec *)


(** C7 as the spec words it fails: a witness buffer of four elements for a
    key with [nVars = 3] is not rejected; prove returns, and returns the
    proof it returns for the first three elements alone. *)
Lemma witness_length_counterexample :
  length demo_wtns_long <> Z.to_nat (nVars demo_key) /\
  prove demo_uninit 4 demo_key demo_wtns_long demo_rng =
    Returns (demo_proof, mkRng demo_src 96) /\
  prove demo_uninit 4 demo_key demo_wtns demo_rng =
    Returns (demo_proof, mkRng demo_src 96).
Proof.
  split; [discriminate|]. split; vm_compute; reflexivity.
Qed.

(** * Further properties of the code *)

(** ** [makeProver] *)

Lemma concat_chunk {A B : Type} (f : B -> list A) (k : nat) (l : list B) :
  (forall y : B, length (f y) = k) ->
  forall (i : nat) (x : B),
    l !! i = Some x -> take k (drop (i * k) (concat (map f l))) = f x.
Proof.
  intro Hk. induction l as [|y l IH]; intros i x Hx; [discriminate|].
  cbn [map concat]. destruct i as [|i].
  - cbn in Hx. injection Hx as ->. change (0 * k)%nat with 0%nat.
    rewrite drop_0. now apply take_app_length'.
  - replace (Datatypes.S i * k)%nat with (length (f y) + i * k)%nat
      by (rewrite Hk; lia).
    rewrite drop_app_add. cbn [drop]. now apply IH.
Qed.

Lemma concat_chunks_length {A B : Type} (f : B -> list A) (k : nat) (l : list B) :
  (forall y : B, length (f y) = k) ->
  length (concat (map f l)) = (length l * k)%nat.
Proof.
  intro Hk. induction l as [|y l IH]; [reflexivity|].
  cbn [map concat length]. rewrite length_app, Hk, IH. lia.
Qed.

Lemma coef_bytes_length (cf : Coef) : length (coef_bytes cf) = sizeof_Coef.
Proof.
  unfold coef_bytes.
  now rewrite !length_app, !le_encode_length, Fr_bytes_length.
Qed.

Lemma le_decode_encode_small (n : nat) (z : Z) :
  0 <= z < 256 ^ Z.of_nat n -> le_decode (le_encode n z) = z.
Proof. intro H. rewrite le_decode_encode. now apply Z.mod_small. Qed.

(** Storing an element with 64-bit limbs and loading it again. *)
Lemma raw_of_bytes_raw_bytes (x : FrRawElement) :
  limbs_ok x -> raw_of_bytes (raw_bytes x) = x.
Proof.
  intros (H0 & H1 & H2 & H3). destruct x as [l0 l1 l2 l3].
  cbn [limb0 limb1 limb2 limb3] in *. unfold raw_of_bytes, raw_bytes.
  cbn [limb0 limb1 limb2 limb3].
  change 24%nat with (8 + (8 + 8))%nat. change 16%nat with (8 + 8)%nat.
  rewrite <- !drop_drop.
  rewrite !(drop_app_length' (le_encode 8 _)) by (now rewrite le_encode_length).
  rewrite !(take_app_length' (le_encode 8 _)) by (now rewrite le_encode_length).
  rewrite take_ge by (rewrite le_encode_length; lia).
  rewrite !le_decode_encode_small by assumption.
  reflexivity.
Qed.

Lemma coef_of_bytes_coef_bytes (cf : Coef) :
  coef_wf cf -> coef_of_bytes (coef_bytes cf) = cf.
Proof.
  intros (Hm & Hc & Hs & Hl). destruct cf as [m c s [x]].
  cbn [coef_m coef_c coef_s coef_coef v] in *.
  unfold coef_of_bytes, coef_bytes, Fr_bytes; cbn [coef_m coef_c coef_s coef_coef v].
  change 12%nat with (4 + (4 + 4))%nat. change 8%nat with (4 + 4)%nat at 1.
  rewrite <- !drop_drop.
  rewrite !(drop_app_length' (le_encode 4 _)) by (now rewrite le_encode_length).
  rewrite !(take_app_length' (le_encode 4 _)) by (now rewrite le_encode_length).
  rewrite !le_decode_encode_small by assumption.
  now rewrite raw_of_bytes_raw_bytes.
Qed.

Lemma coefs_at_stream (cs : list Coef) :
  Forall coef_wf cs -> coefs_at (concat (map coef_bytes cs)) = cs.
Proof.
  intro Hwf. unfold coefs_at.
  rewrite (concat_chunks_length coef_bytes sizeof_Coef) by apply coef_bytes_length.
  rewrite Nat.div_mul by discriminate.
  apply list_eq. intro i. rewrite list_lookup_fmap.
  destruct (cs !! i) as [cf|] eqn:Hi.
  - rewrite lookup_seq_lt by (eapply lookup_lt_Some, Hi).
    cbn [fmap option_fmap option_map Nat.add].
    rewrite (concat_chunk coef_bytes sizeof_Coef cs coef_bytes_length i cf Hi).
    f_equal. apply coef_of_bytes_coef_bytes.
    eapply Forall_lookup_1; eassumption.
  - rewrite lookup_seq_ge by (eapply lookup_ge_None_1, Hi). reflexivity.
Qed.

(** X1. makeProver skips the first four bytes of the coefficient buffer and
    reads the records that follow: on a buffer made of any four-byte header
    and the bytes of a stream of records, the prover it returns holds exactly
    that stream, together with the other arguments unchanged. The header is
    not interpreted and is not compared with nCoeffs. *)
Theorem makeProver_roundtrip (nV nP dS nC : Z)
    (alpha1 beta1 : G1PointAffine) (beta2 : G2PointAffine)
    (delta1 : G1PointAffine) (delta2 : G2PointAffine)
    (header : list byte) (cs : list Coef)
    (pA pB1 : list G1PointAffine) (pB2 : list G2PointAffine)
    (pC pH : list G1PointAffine) :
  length header = 4%nat ->
  Forall coef_wf cs ->
  makeProver nV nP dS nC alpha1 beta1 beta2 delta1 delta2
             (coefs_buffer header cs) pA pB1 pB2 pC pH =
  mkProver nV nP dS nC alpha1 beta1 beta2 delta1 delta2 cs pA pB1 pB2 pC pH.
Proof.
  intros Hh Hwf. unfold makeProver, coefs_buffer.
  rewrite drop_app_length' by (now rewrite Hh). now rewrite coefs_at_stream.
Qed.

(** ** Accesses outside the buffers *)

(** A loop with a pass that fails in every state fails. *)
Lemma for_loop_fails {S : Type} (body : nat -> S -> option S) (j : nat) :
  (forall s : S, body j s = None) ->
  forall (cnt i : nat) (s : S),
    (i <= j < i + cnt)%nat -> for_loop body i cnt s = None.
Proof.
  intro Hj. induction cnt as [|cnt IH]; intros i s Hi; [lia|].
  cbn [for_loop]. destruct (decide (i = j)) as [->|Hne].
  - now rewrite Hj.
  - destruct (body i s) as [s1|]; [|reflexivity]. cbn. apply IH. lia.
Qed.

Lemma scatter_step_in_bounds (wtns : list FrElement) (cf : Coef) (n : nat)
    (st st1 : Arrays) :
  length (arr_a st) = n -> length (arr_b st) = n ->
  scatter_step wtns cf st = Some st1 -> record_in_bounds wtns n cf.
Proof.
  intros Ha Hb. rewrite scatter_step_apply. unfold record_in_bounds.
  destruct (wtns !! Z.to_nat (coef_s cf)) as [w|] eqn:Hw; cbn; [|discriminate].
  apply lookup_lt_Some in Hw. unfold apply_record. rewrite !bump_lookup.
  destruct (coef_m cf =? 0).
  - destruct (arr_a st !! Z.to_nat (coef_c cf)) as [o|] eqn:Ho; cbn;
      [|discriminate].
    apply lookup_lt_Some in Ho. intros _. lia.
  - destruct (arr_b st !! Z.to_nat (coef_c cf)) as [o|] eqn:Ho; cbn;
      [|discriminate].
    apply lookup_lt_Some in Ho. intros _. lia.
Qed.

Lemma scatter_list_defined (wtns : list FrElement) (n : nat) (cs : list Coef) :
  forall st : Arrays,
    length (arr_a st) = n -> length (arr_b st) = n ->
    (is_Some (scatter_list wtns cs st) <->
     Forall (record_in_bounds wtns n) cs).
Proof.
  intros st Ha Hb. split.
  - revert st Ha Hb. induction cs as [|cf cs IH]; intros st Ha Hb Hsome;
      [constructor|].
    cbn [scatter_list] in Hsome.
    destruct (scatter_step wtns cf st) as [st1|] eqn:Hstep; cbn in Hsome;
      [|now destruct Hsome].
    constructor.
    + eapply scatter_step_in_bounds; eassumption.
    + apply scatter_step_shape in Hstep as (Ha1 & Hb1 & _).
      apply (IH st1); congruence.
  - intro Hall. now apply (scatter_list_total wtns n).
Qed.

Lemma scatter_defined (cs : list Coef) (n : Z) (wtns : list FrElement)
    (m : nat) (st : Arrays) :
  length (arr_a st) = m -> length (arr_b st) = m ->
  (is_Some (scatter cs n wtns st) <->
   (Z.to_nat n <= length cs)%nat /\
   Forall (record_in_bounds wtns m) (take (Z.to_nat n) cs)).
Proof.
  intros Ha Hb. unfold scatter, for_range.
  destruct (Nat.le_gt_cases (Z.to_nat n) (length cs)) as [Hle|Hgt].
  - rewrite scatter_loop_list by lia. rewrite drop_0.
    rewrite (scatter_list_defined wtns m) by assumption. tauto.
  - rewrite (for_loop_fails (scatter_body cs wtns) (length cs)).
    + split; [intros [x Hx]; discriminate | lia].
    + intro s. unfold scatter_body, load.
      now rewrite lookup_ge_None_2.
    + lia.
Qed.

Lemma prove_undefined_accumulate {E : Engine} (U : Uninit) (fuel : nat)
    (pk : Prover) (wtns : list FrElement) (g : Rng) :
  accumulate zero_body U pk wtns = None ->
  prove U fuel pk wtns g = Undefined.
Proof.
  intro H. unfold prove, prove_with, evaluate. rewrite H. cbn.
  now destruct (witness_msms pk wtns) as [[[[? ?] ?] ?]|].
Qed.

Lemma accumulate_defined (U : Uninit) (pk : Prover) (wtns : list FrElement) :
  is_Some (accumulate zero_body U pk wtns) <->
  (Z.to_nat (nCoefs pk) <= length (coefs pk))%nat /\
  Forall (record_in_bounds wtns (Z.to_nat (domainSize pk)))
         (take (Z.to_nat (nCoefs pk)) (coefs pk)).
Proof.
  rewrite accumulate_closed by now left. cbn zeta.
  rewrite <- (scatter_defined (coefs pk) (nCoefs pk) wtns
                (Z.to_nat (domainSize pk))
                (mkArrays (replicate (Z.to_nat (domainSize pk)) Fr.zero)
                          (replicate (Z.to_nat (domainSize pk)) Fr.zero) []))
    by apply length_replicate.
  destruct (scatter _ _ _ _) as [st|]; cbn; split; intros [x Hx];
    first [discriminate | eauto].
Qed.

(** X2. For counts below 2^31, where the int counters of the loops do not
    overflow, Phase 2 is defined exactly when the coefficient table holds
    nCoefs records and each of them has its signal index s inside the witness
    buffer and its row index c inside the domain; the selector m is not
    constrained. The code checks none of this: with a missing or
    out-of-range record prove performs an access outside a buffer. *)
Theorem accumulate_defined_iff {E : Engine} (U : Uninit) (pk : Prover)
    (wtns : list FrElement) :
  domainSize pk < 2 ^ 31 ->
  nCoefs pk < 2 ^ 31 ->
  (is_Some (accumulate zero_body U pk wtns) <->
   (Z.to_nat (nCoefs pk) <= length (coefs pk))%nat /\
   Forall (record_in_bounds wtns (Z.to_nat (domainSize pk)))
          (take (Z.to_nat (nCoefs pk)) (coefs pk))) /\
  (accumulate zero_body U pk wtns = None ->
   forall (fuel : nat) (g : Rng), prove U fuel pk wtns g = Undefined).
Proof.
  intros _ _. split; [apply accumulate_defined|].
  intros H fuel g. now apply prove_undefined_accumulate.
Qed.

(** An MSM over more points than the table holds reads past its end. *)
Lemma multiMulByScalar_bases_short {P A : Type} (zero : P) (add : P -> P -> P)
    (mul : A -> list byte -> P) (bases : list A) (scalars : list byte)
    (scalarSize n : Z) :
  (length bases < Z.to_nat n)%nat ->
  multiMulByScalar zero add mul bases scalars scalarSize n = None.
Proof.
  intro H. unfold multiMulByScalar, for_range.
  apply (for_loop_fails _ (length bases)); [|lia].
  intro acc. unfold msm_body, load. now rewrite lookup_ge_None_2.
Qed.

Lemma prove_undefined_msms {E : Engine} (U : Uninit) (fuel : nat)
    (pk : Prover) (wtns : list FrElement) (g : Rng) :
  witness_msms pk wtns = None -> prove U fuel pk wtns g = Undefined.
Proof. intro H. unfold prove, prove_with. now rewrite H. Qed.

Lemma witness_msms_pointsC_short {E : Engine} (pk : Prover)
    (wtns : list FrElement) :
  (length (pointsC pk) < Z.to_nat (pi_c_count pk))%nat ->
  witness_msms pk wtns = None.
Proof.
  intro H. unfold witness_msms.
  destruct (g1_multiMulByScalar (pointsA pk) _ _ _); [|reflexivity]. cbn.
  destruct (g1_multiMulByScalar (pointsB1 pk) _ _ _); [|reflexivity]. cbn.
  destruct (g2_multiMulByScalar (pointsB2 pk) _ _ _); [|reflexivity]. cbn.
  unfold g1_multiMulByScalar.
  now rewrite multiMulByScalar_bases_short.
Qed.

(** X3. prove does not check the tables of the key against the counts it
    indexes them with: if pointsA, pointsB1 or pointsB2 has fewer than nVars
    points, pointsC fewer than the 32-bit count nVars - nPublic - 1, or
    pointsH fewer than domainSize, the call reads past the end of that
    table. *)
Theorem prove_undefined_short_table {E : Engine} (U : Uninit) (fuel : nat)
    (pk : Prover) (wtns : list FrElement) (g : Rng) :
  (length (pointsA pk) < Z.to_nat (nVars pk))%nat \/
  (length (pointsB1 pk) < Z.to_nat (nVars pk))%nat \/
  (length (pointsB2 pk) < Z.to_nat (nVars pk))%nat \/
  (length (pointsC pk) < Z.to_nat (pi_c_count pk))%nat \/
  (length (pointsH pk) < Z.to_nat (domainSize pk))%nat ->
  prove U fuel pk wtns g = Undefined.
Proof.
  intros [H|[H|[H|[H|H]]]].
  - apply prove_undefined_msms. unfold witness_msms, g1_multiMulByScalar.
    now rewrite (multiMulByScalar_bases_short _ _ _ (pointsA pk)).
  - apply prove_undefined_msms. unfold witness_msms.
    destruct (g1_multiMulByScalar (pointsA pk) _ _ _); [|reflexivity]. cbn.
    unfold g1_multiMulByScalar.
    now rewrite (multiMulByScalar_bases_short _ _ _ (pointsB1 pk)).
  - apply prove_undefined_msms. unfold witness_msms.
    destruct (g1_multiMulByScalar (pointsA pk) _ _ _); [|reflexivity]. cbn.
    destruct (g1_multiMulByScalar (pointsB1 pk) _ _ _); [|reflexivity]. cbn.
    unfold g2_multiMulByScalar.
    now rewrite (multiMulByScalar_bases_short _ _ _ (pointsB2 pk)).
  - apply prove_undefined_msms. now apply witness_msms_pointsC_short.
  - unfold prove, prove_with, evaluate, quotient, h_msm, g1_multiMulByScalar.
    assert (Hq : forall st : Arrays,
              multiMulByScalar g1_zero g1_add g1_mulByScalarA (pointsH pk)
                (Fr_buf_bytes (arr_a st)) sizeof_FrElement (domainSize pk) = None)
      by (intro st; now apply multiMulByScalar_bases_short).
    destruct (witness_msms pk wtns) as [[[[? ?] ?] ?]|]; [|reflexivity].
    destruct (accumulate zero_body U pk wtns) as [st0|]; [|reflexivity]. cbn.
    destruct (coset_chains pk st0) as [st1|]; [|reflexivity]. cbn.
    destruct (for_range abc_body (domainSize pk) st1) as [st2|]; [|reflexivity].
    cbn. now rewrite Hq.
Qed.

(** X4. The count of the fourth MSM is computed in unsigned 32-bit
    arithmetic and is not guarded: for a key with nVars = nPublic it wraps to
    2^32 - 1, and unless pointsC is that long the call reads past its end. *)
Theorem prove_undefined_count_wraps {E : Engine} (U : Uninit)
    (fuel : nat) (pk : Prover) (wtns : list FrElement) (g : Rng) :
  nVars pk = nPublic pk ->
  Z.of_nat (length (pointsC pk)) < 2 ^ 32 - 1 ->
  pi_c_count pk = 2 ^ 32 - 1 /\ prove U fuel pk wtns g = Undefined.
Proof.
  intros Heq Hlen.
  assert (Hcount : pi_c_count pk = 2 ^ 32 - 1).
  { unfold pi_c_count. rewrite Heq, Z.sub_diag. reflexivity. }
  split; [exact Hcount|].
  apply prove_undefined_msms, witness_msms_pointsC_short.
  rewrite Hcount. apply Nat2Z.inj_lt. rewrite Z2Nat.id by discriminate.
  exact Hlen.
Qed.


(** ** What [prove] reads *)





(** ** The selector of a record *)

Lemma scatter_step_normalize (wtns : list FrElement) (cf : Coef) (st : Arrays) :
  scatter_step wtns (normalize_m cf) st = scatter_step wtns cf st.
Proof.
  unfold scatter_step, normalize_m; cbn [coef_m coef_c coef_s coef_coef].
  now destruct (coef_m cf =? 0).
Qed.

Lemma for_loop_ext {S : Type} (body body' : nat -> S -> option S) :
  (forall (j : nat) (s : S), body j s = body' j s) ->
  forall (cnt i : nat) (s : S), for_loop body i cnt s = for_loop body' i cnt s.
Proof.
  intro Hext. induction cnt as [|cnt IH]; intros i s; cbn [for_loop];
    [reflexivity|].
  rewrite Hext. destruct (body' i s); cbn; [apply IH|reflexivity].
Qed.

(** X7. The scatter looks at the selector m of a record only to compare it
    with 0: every other value sends the addend to b, so a key whose nonzero
    selectors are all replaced by 1 gives the same outcome. *)
Theorem prove_selector_nonzero {E : Engine} (U : Uninit) (fuel : nat)
    (pk : Prover) (wtns : list FrElement) (g : Rng) :
  prove U fuel (map_coefs normalize_m pk) wtns g = prove U fuel pk wtns g.
Proof.
  assert (Hacc : accumulate zero_body U (map_coefs normalize_m pk) wtns =
                 accumulate zero_body U pk wtns).
  { rewrite !accumulate_closed by now left.
    cbn [map_coefs domainSize nCoefs coefs]. cbn zeta.
    unfold scatter, for_range.
    rewrite (for_loop_ext (scatter_body (map normalize_m (coefs pk)) wtns)
                          (scatter_body (coefs pk) wtns)); [reflexivity|].
    intros j s. unfold scatter_body, load. rewrite list_lookup_fmap.
    destruct (coefs pk !! j) as [cf|]; cbn; [|reflexivity].
    apply scatter_step_normalize. }
  unfold prove, prove_with, evaluate. rewrite Hacc. reflexivity.
Qed.

(** ** The randomness [prove] consumes *)

Lemma candidate_offset (g : Rng) (m k : nat) :
  candidate (mkRng (rng_src g) (rng_pos g + m * 32)) k = candidate g (m + k).
Proof.
  unfold candidate; cbn [rng_src rng_pos].
  do 4 f_equal. change (Z.to_nat sizeof_FrElement) with 32%nat. lia.
Qed.

(** X8. A call of prove that returns has read the byte source in whole
    32-byte draws, one per pass of the two rejection loops, and nothing
    else: with kr rejected candidates for r and ks for s it has advanced the
    source by 32·(kr + ks + 2) bytes, which is 64 bytes when the first two
    candidates are below q. *)
Theorem prove_randomness {E : Engine} (U : Uninit) (fuel : nat) (pk : Prover)
    (wtns : list FrElement) (g g' : Rng) (pf : Proof) :
  prove U fuel pk wtns g = Returns (pf, g') ->
  rng_src g' = rng_src g /\
  (exists kr ks : nat,
     (kr < fuel)%nat /\ (ks < fuel)%nat /\
     rng_pos g' = (rng_pos g + 32 * (kr + ks + 2))%nat /\
     (forall j : nat, (j < kr)%nat -> Fr.q <= Fr_val (candidate g j)) /\
     Fr_val (candidate g kr) < Fr.q /\
     (forall j : nat, (j < ks)%nat ->
        Fr.q <= Fr_val (candidate g (kr + 1 + j))) /\
     Fr_val (candidate g (kr + 1 + ks)) < Fr.q) /\
  (Fr_val (candidate g 0) < Fr.q -> Fr_val (candidate g 1) < Fr.q ->
   rng_pos g' = (rng_pos g + 64)%nat).
Proof.
  unfold prove, prove_with.
  destruct (witness_msms pk wtns) as [[[[pi_a pib1] pi_b] pi_c]|];
    [|discriminate].
  destruct (evaluate zero_body U pk wtns) as [[st pih]|]; [|discriminate].
  pose proof (sample_loop_spec fuel 0 (stack_r U) g eq_refl) as Hr.
  fold (sample_scalar fuel (stack_r U) g) in Hr.
  destruct (sample_scalar fuel (stack_r U) g) as [[r g1]|]; [|discriminate].
  destruct Hr as (kr & Hkr & -> & -> & Hrej_r & Hacc_r).
  pose proof (sample_loop_spec fuel 0 (stack_s U)
                (mkRng (rng_src g) (rng_pos g + (kr + 1) * 32)) eq_refl) as Hs.
  fold (sample_scalar fuel (stack_s U)
          (mkRng (rng_src g) (rng_pos g + (kr + 1) * 32))) in Hs.
  destruct (sample_scalar fuel (stack_s U) _) as [[s g2]|]; [|discriminate].
  destruct Hs as (ks & Hks & -> & -> & Hrej_s & Hacc_s).
  cbn [rng_src rng_pos] in *.
  rewrite candidate_offset in Hacc_s.
  assert (Hrej_s' : forall j : nat, (j < ks)%nat ->
            Fr.q <= Fr_val (candidate g (kr + 1 + j))).
  { intros j Hj. rewrite <- candidate_offset. now apply Hrej_s. }
  intros [= <- <-]. cbn [rng_src rng_pos].
  split; [reflexivity|]. split.
  - exists kr, ks.
    split; [exact Hkr|]. split; [exact Hks|]. split; [lia|].
    split; [exact Hrej_r|]. split; [apply Hacc_r|].
    split; [exact Hrej_s'|apply Hacc_s].
  - intros H0 H1.
    assert (kr = 0)%nat as ->.
    { destruct kr as [|kr]; [reflexivity|].
      specialize (Hrej_r 0%nat ltac:(lia)). lia. }
    assert (ks = 0)%nat as ->.
    { destruct ks as [|ks]; [reflexivity|].
      specialize (Hrej_s' 0%nat ltac:(lia)).
      change (0 + 1 + 0)%nat with 1%nat in Hrej_s'. lia. }
    lia.
Qed.

(** ** The range of the sampler *)

Lemma le_decode_32 (d : list byte) :
  length d = 32%nat ->
  le_decode d =
  le_decode (take 8 d) + 2 ^ 64 * le_decode (take 8 (drop 8 d)) +
  2 ^ 128 * le_decode (take 8 (drop 16 d)) +
  2 ^ 192 * le_decode (take 8 (drop 24 d)).
Proof.
  intro Hd.
  rewrite <- (take_drop 8 d) at 1. rewrite le_decode_app.
  rewrite <- (take_drop 8 (drop 8 d)) at 1. rewrite le_decode_app.
  rewrite drop_drop.
  rewrite <- (take_drop 8 (drop (8 + 8) d)) at 1. rewrite le_decode_app.
  rewrite drop_drop.
  rewrite !length_take, !length_drop, Hd.
  change (8 + 8)%nat with 16%nat. change (16 + 8)%nat with 24%nat.
  rewrite (take_ge (drop 24 d)) by (rewrite length_drop; lia).
  change (256 ^ Z.of_nat (8 `min` 32)) with (2 ^ 64).
  change (256 ^ Z.of_nat (8 `min` (32 - 8))) with (2 ^ 64).
  change (256 ^ Z.of_nat (8 `min` (32 - 16))) with (2 ^ 64).
  change (2 ^ 128) with (2 ^ 64 * 2 ^ 64).
  change (2 ^ 192) with (2 ^ 64 * 2 ^ 64 * 2 ^ 64).
  ring.
Qed.

(** The masked candidate is the integer of the 32 bytes modulo 2^254. *)
Lemma mask_top_value (d : list byte) :
  length d = 32%nat ->
  Fr_val (mask_top (mkFr (raw_of_bytes d))) = le_decode d mod 2 ^ 254.
Proof.
  intro Hd.
  pose proof (limbs_ok_raw_of_bytes d) as Hok.
  pose proof (limbs_ok_mask_top (mkFr (raw_of_bytes d)) Hok) as Hok'.
  unfold Fr_val. rewrite (raw_val_limbs_ok _ Hok'), mask_top_limb3.
  rewrite (le_decode_32 d Hd).
  destruct Hok as (H0 & H1 & H2 & H3).
  unfold mask_top, raw_of_bytes in *; cbn [v limb0 limb1 limb2 limb3] in *.
  set (l0 := le_decode (take 8 d)) in *.
  set (l1 := le_decode (take 8 (drop 8 d))) in *.
  set (l2 := le_decode (take 8 (drop 16 d))) in *.
  set (l3 := le_decode (take 8 (drop 24 d))) in *.
  change (2 ^ 254) with (2 ^ 192 * 2 ^ 62).
  rewrite Z.rem_mul_r by (vm_compute; first [discriminate | reflexivity]).
  assert (Hlow : 0 <= l0 + 2 ^ 64 * l1 + 2 ^ 128 * l2 < 2 ^ 192).
  { change (2 ^ 64) with 18446744073709551616 in *.
    change (2 ^ 128) with (18446744073709551616 * 18446744073709551616).
    change (2 ^ 192) with
      (18446744073709551616 * 18446744073709551616 * 18446744073709551616).
    nia. }
  rewrite (Z.mul_comm (2 ^ 192) l3).
  rewrite Z_mod_plus_full, Z.div_add by discriminate.
  rewrite (Z.mod_small _ _ Hlow), (Z.div_small _ _ Hlow).
  rewrite Z.add_0_l. ring.
Qed.

(** X9. The candidate of a pass is the little-endian integer of the 32
    bytes drawn, reduced modulo 2^254: the mask drops the two top bits and
    nothing else, so every candidate lies in [0, 2^254) and two draws give
    the same candidate value exactly when they agree modulo 2^254. *)
Theorem candidate_value (g : Rng) (k : nat) :
  let drawn := map (rng_src g) (seq (rng_pos g + k * 32) 32) in
  Fr_val (candidate g k) = le_decode drawn mod 2 ^ 254 /\
  0 <= Fr_val (candidate g k) < 2 ^ 254 /\
  Fr.q < 2 ^ 254 /\
  (forall (g2 : Rng) (k2 : nat),
     Fr_val (candidate g2 k2) = Fr_val (candidate g k) <->
     le_decode (map (rng_src g2) (seq (rng_pos g2 + k2 * 32) 32)) mod 2 ^ 254 =
     le_decode drawn mod 2 ^ 254).
Proof.
  intro drawn.
  assert (Hval : forall (h : Rng) (j : nat),
            Fr_val (candidate h j) =
            le_decode (map (rng_src h) (seq (rng_pos h + j * 32) 32))
              mod 2 ^ 254).
  { intros h j. unfold candidate, sample_once, randombytes_buf; cbn [fst snd].
    apply mask_top_value. now rewrite length_map, length_seq. }
  split; [apply Hval|]. split; [|split].
  - rewrite Hval. apply Z.mod_pos_bound. reflexivity.
  - reflexivity.
  - intros g2 k2. now rewrite !Hval.
Qed.

Lemma tape_draw (bs : list byte) :
  map (fun i => nth i bs Byte.x00) (seq 0 (length bs)) = bs.
Proof.
  apply list_eq. intro i. rewrite list_lookup_fmap.
  destruct (bs !! i) as [b|] eqn:Hb.
  - rewrite lookup_seq_lt by (eapply lookup_lt_Some, Hb). cbn.
    f_equal. now apply nth_lookup_Some.
  - rewrite lookup_seq_ge by (eapply lookup_ge_None_1, Hb). reflexivity.
Qed.

(** X10. The sampler can return every element of the field: for each
    integer z in [0, q) the loop run on a byte source that starts with the 32
    little-endian bytes of z stops at its first pass and returns an element
    of value z. *)
Theorem sample_scalar_reaches (z : Z) (fuel : nat) (r0 : FrElement) :
  0 <= z < Fr.q ->
  exists (r : FrElement) (g' : Rng),
    sample_scalar (Datatypes.S fuel) r0 (tape (le_encode 32 z)) = Some (r, g') /\
    Fr_val r = z /\ rng_pos g' = 32%nat.
Proof.
  intros Hz.
  assert (Hq : Fr.q < 2 ^ 254) by reflexivity.
  assert (Hc : Fr_val (candidate (tape (le_encode 32 z)) 0) = z).
  { unfold candidate, sample_once, randombytes_buf, tape.
    cbn [fst snd rng_src rng_pos Nat.add Nat.mul].
    change (Z.to_nat sizeof_FrElement) with (length (le_encode 32 z)).
    rewrite tape_draw.
    rewrite mask_top_value by apply le_encode_length.
    rewrite le_decode_encode_small.
    - apply Z.mod_small. lia.
    - change (256 ^ Z.of_nat 32) with (2 ^ 256).
      assert (2 ^ 254 < 2 ^ 256) by reflexivity. lia. }
  pose proof (sample_loop_spec (Datatypes.S fuel) 0 r0
                (tape (le_encode 32 z)) eq_refl) as Hs.
  fold (sample_scalar (Datatypes.S fuel) r0 (tape (le_encode 32 z))) in Hs.
  destruct (sample_scalar _ r0 _) as [[r g']|].
  - destruct Hs as (k & _ & -> & -> & Hrej & _).
    assert (k = 0)%nat as ->.
    { destruct k as [|k]; [reflexivity|].
      specialize (Hrej 0%nat ltac:(lia)). lia. }
    eexists _, _. split; [reflexivity|]. split; [exact Hc|reflexivity].
  - specialize (Hs 0%nat ltac:(lia)). lia.
Qed.

(** ** What the JSON projections keep *)

Lemma quote_free_digits (d : Decimal.uint) :
  quote_free (NilEmpty.string_of_uint d).
Proof. induction d; cbn; try split; try discriminate; assumption. Qed.

Lemma quote_free_toString (x : F1Element) : quote_free (F1.toString x).
Proof.
  unfold F1.toString, F1.decimal, NilZero.string_of_uint.
  destruct (N.to_uint (Z.to_N (F1.natural x))); try apply quote_free_digits.
  cbn. split; [discriminate | exact I].
Qed.

(** Two texts that continue with a double quote after a quote-free part
    agree on that part and on what follows it. *)
Lemma quote_split (s1 s2 r1 r2 : string) :
  quote_free s1 -> quote_free s2 ->
  (s1 ++ String (ascii_of_nat 34) r1)%string =
  (s2 ++ String (ascii_of_nat 34) r2)%string ->
  s1 = s2 /\ r1 = r2.
Proof.
  revert s2. induction s1 as [|c1 s1 IH]; intros [|c2 s2] H1 H2 H;
    cbn [append] in H.
  - injection H as ->. auto.
  - injection H as Hc _. destruct H2 as [Hq _]. congruence.
  - injection H as Hc _. destruct H1 as [Hq _]. congruence.
  - injection H as -> H. destruct H1 as [_ H1], H2 as [_ H2].
    destruct (IH s2 H1 H2 H) as [-> ->]. auto.
Qed.

Lemma toJsonStr_coordinates (pf pf' : Proof) :
  toJsonStr pf = toJsonStr pf' -> coordinate_strings pf = coordinate_strings pf'.
Proof.
  unfold toJsonStr, coordinate_strings, quoted.
  pose proof (quote_free_toString (g1_x (proof_A pf))) as F1.
  pose proof (quote_free_toString (g1_y (proof_A pf))) as F2.
  pose proof (quote_free_toString (f2_a (g2_x (proof_B pf)))) as F3.
  pose proof (quote_free_toString (f2_b (g2_x (proof_B pf)))) as F4.
  pose proof (quote_free_toString (f2_a (g2_y (proof_B pf)))) as F5.
  pose proof (quote_free_toString (f2_b (g2_y (proof_B pf)))) as F6.
  pose proof (quote_free_toString (g1_x (proof_C pf))) as F7.
  pose proof (quote_free_toString (g1_y (proof_C pf))) as F8.
  pose proof (quote_free_toString (g1_x (proof_A pf'))) as G1.
  pose proof (quote_free_toString (g1_y (proof_A pf'))) as G2.
  pose proof (quote_free_toString (f2_a (g2_x (proof_B pf')))) as G3.
  pose proof (quote_free_toString (f2_b (g2_x (proof_B pf')))) as G4.
  pose proof (quote_free_toString (f2_a (g2_y (proof_B pf')))) as G5.
  pose proof (quote_free_toString (f2_b (g2_y (proof_B pf')))) as G6.
  pose proof (quote_free_toString (g1_x (proof_C pf'))) as G7.
  pose proof (quote_free_toString (g1_y (proof_C pf'))) as G8.
  revert F1 F2 F3 F4 F5 F6 F7 F8 G1 G2 G3 G4 G5 G6 G7 G8.
  generalize (F1.toString (g1_x (proof_A pf))) as x1.
  generalize (F1.toString (g1_y (proof_A pf))) as x2.
  generalize (F1.toString (f2_a (g2_x (proof_B pf)))) as x3.
  generalize (F1.toString (f2_b (g2_x (proof_B pf)))) as x4.
  generalize (F1.toString (f2_a (g2_y (proof_B pf)))) as x5.
  generalize (F1.toString (f2_b (g2_y (proof_B pf)))) as x6.
  generalize (F1.toString (g1_x (proof_C pf))) as x7.
  generalize (F1.toString (g1_y (proof_C pf))) as x8.
  generalize (F1.toString (g1_x (proof_A pf'))) as y1.
  generalize (F1.toString (g1_y (proof_A pf'))) as y2.
  generalize (F1.toString (f2_a (g2_x (proof_B pf')))) as y3.
  generalize (F1.toString (f2_b (g2_x (proof_B pf')))) as y4.
  generalize (F1.toString (f2_a (g2_y (proof_B pf')))) as y5.
  generalize (F1.toString (f2_b (g2_y (proof_B pf')))) as y6.
  generalize (F1.toString (g1_x (proof_C pf'))) as y7.
  generalize (F1.toString (g1_y (proof_C pf'))) as y8.
  intros y8 y7 y6 y5 y4 y3 y2 y1 x8 x7 x6 x5 x4 x3 x2 x1.
  intros F1 F2 F3 F4 F5 F6 F7 F8 G1 G2 G3 G4 G5 G6 G7 G8 H.
  rewrite !string_app_assoc in H. cbn [append dquote] in H.
  repeat first
    [ injection H as H
    | apply quote_split in H; [destruct H as [-> H] | assumption | assumption] ].
  reflexivity.
Qed.

(** X11. The two JSON projections carry the same information, the eight
    coordinate strings of the proof: two proofs have the same toJson value
    exactly when they have the same toJsonStr text, and exactly when their
    coordinate strings agree. Since toJsonStr pastes the strings between
    quotes without escaping, this rests on a coordinate string holding no
    quote. *)
Theorem json_projections_agree (pf pf' : Proof) :
  (toJson pf = toJson pf' <-> coordinate_strings pf = coordinate_strings pf') /\
  (toJsonStr pf = toJsonStr pf' <->
   coordinate_strings pf = coordinate_strings pf') /\
  (forall x : F1Element, quote_free (F1.toString x)).
Proof.
  split; [|split].
  - split.
    + change (toJson pf) with (Some (spec_json pf)).
      change (toJson pf') with (Some (spec_json pf')).
      unfold spec_json, coordinate, coordinate_strings, F1.toString.
      intro H. injection H. intros. congruence.
    + unfold coordinate_strings. intro H.
      injection H as H1 H2 H3 H4 H5 H6 H7 H8.
      unfold toJson. now rewrite H1, H2, H3, H4, H5, H6, H7, H8.
  - split; [apply toJsonStr_coordinates|].
    unfold coordinate_strings. intro H.
    injection H as H1 H2 H3 H4 H5 H6 H7 H8.
    unfold toJsonStr. now rewrite H1, H2, H3, H4, H5, H6, H7, H8.
  - apply quote_free_toString.
Qed.

(** ** When [prove] returns *)

Lemma multiMulByScalar_Some_bases {P A : Type} (zero : P) (add : P -> P -> P)
    (mul : A -> list byte -> P) (bases : list A) (scalars : list byte)
    (scalarSize n : Z) (x : P) :
  multiMulByScalar zero add mul bases scalars scalarSize n = Some x ->
  (Z.to_nat n <= length bases)%nat.
Proof.
  intro H. destruct (Nat.le_gt_cases (Z.to_nat n) (length bases)) as [|Hgt];
    [assumption|].
  rewrite multiMulByScalar_bases_short in H by exact Hgt. discriminate.
Qed.

Lemma multiMulByScalar_Some_scalars {P A : Type} (zero : P) (add : P -> P -> P)
    (mul : A -> list byte -> P) (bases : list A) (w : list FrElement)
    (n : Z) (x : P) :
  multiMulByScalar zero add mul bases (Fr_buf_bytes w) sizeof_FrElement n =
    Some x ->
  (Z.to_nat n <= length w)%nat.
Proof.
  intro H. pose proof (multiMulByScalar_Some_bases _ _ _ _ _ _ _ _ H) as Hb.
  destruct (Nat.le_gt_cases (Z.to_nat n) (length w)) as [|Hgt]; [assumption|].
  rewrite multiMulByScalar_short in H by assumption. discriminate.
Qed.

Lemma pi_c_count_small (pk : Prover) :
  0 <= nPublic pk < nVars pk -> nVars pk < 2 ^ 32 ->
  pi_c_count pk = nVars pk - nPublic pk - 1.
Proof.
  intros Hpub Hvars. unfold pi_c_count.
  rewrite (wrap32_small (nVars pk - nPublic pk)) by lia.
  apply wrap32_small. lia.
Qed.

Lemma witness_msms_defined {E : Engine} (pk : Prover) (wtns : list FrElement) :
  0 <= nPublic pk < nVars pk ->
  nVars pk < 2 ^ 32 ->
  (is_Some (witness_msms pk wtns) <->
   (Z.to_nat (nVars pk) <= length wtns)%nat /\
   (Z.to_nat (nVars pk) <= length (pointsA pk))%nat /\
   (Z.to_nat (nVars pk) <= length (pointsB1 pk))%nat /\
   (Z.to_nat (nVars pk) <= length (pointsB2 pk))%nat /\
   (Z.to_nat (nVars pk - nPublic pk - 1) <= length (pointsC pk))%nat).
Proof.
  intros Hpub Hvars. unfold witness_msms.
  assert (Hm : 0 <= (nPublic pk + 1) mod 2 ^ 27 <= nPublic pk + 1).
  { split; [apply Z.mod_pos_bound; lia | apply Z.mod_le; lia]. }
  rewrite pi_c_offset_elements, pi_c_count_small by lia.
  replace (Z.to_nat (sizeof_FrElement * ((nPublic pk + 1) mod 2 ^ 27)))
    with (Z.to_nat ((nPublic pk + 1) mod 2 ^ 27) * 32)%nat
    by (unfold sizeof_FrElement; lia).
  rewrite Fr_buf_bytes_drop.
  unfold g1_multiMulByScalar, g2_multiMulByScalar. split.
  - intros [x Hx].
    destruct (multiMulByScalar g1_zero _ _ (pointsA pk) _ _ _) eqn:HA;
      cbn in Hx; [|discriminate].
    destruct (multiMulByScalar g1_zero _ _ (pointsB1 pk) _ _ _) eqn:HB1;
      cbn in Hx; [|discriminate].
    destruct (multiMulByScalar g2_zero _ _ (pointsB2 pk) _ _ _) eqn:HB2;
      cbn in Hx; [|discriminate].
    destruct (multiMulByScalar g1_zero _ _ (pointsC pk) _ _ _) eqn:HC;
      cbn in Hx; [|discriminate].
    split; [eapply multiMulByScalar_Some_scalars; exact HA|].
    split; [eapply multiMulByScalar_Some_bases; exact HA|].
    split; [eapply multiMulByScalar_Some_bases; exact HB1|].
    split; [eapply multiMulByScalar_Some_bases; exact HB2|].
    eapply multiMulByScalar_Some_bases; exact HC.
  - intros (Hw & HA & HB1 & HB2 & HC).
    rewrite !multiMulByScalar_spec by (rewrite ?length_drop; lia).
    cbn. eauto.
Qed.

Lemma quotient_defined {E : Engine} (pk : Prover) (st0 : Arrays) :
  length (arr_a st0) = Z.to_nat (domainSize pk) ->
  length (arr_b st0) = Z.to_nat (domainSize pk) ->
  length (arr_c st0) = Z.to_nat (domainSize pk) ->
  (is_Some (quotient pk st0) <->
   (Z.to_nat (domainSize pk) <= length (pointsH pk))%nat).
Proof.
  intros Ha Hb Hc. split.
  - intros [x Hx]. unfold quotient in Hx.
    destruct (coset_chains pk st0) as [st1|]; cbn in Hx; [|discriminate].
    destruct (for_range abc_body (domainSize pk) st1) as [st2|]; cbn in Hx;
      [|discriminate].
    destruct (h_msm pk st2) as [pih|] eqn:Hh; cbn in Hx; [|discriminate].
    eapply multiMulByScalar_Some_bases. exact Hh.
  - intro HH.
    destruct (quotient_closed pk st0 Ha Hb Hc ltac:(lia)) as (_ & _ & _ & ->).
    eauto.
Qed.

(** X12. For a key whose counts are 32-bit values with
    0 <= nPublic < nVars < 2^32 and fit the int counters of the loops
    (domainSize, nCoefs < 2^31), whose domainSize is a power of two and at
    least 2 (the logging statements read the elements 0 and 1 of the
    arrays), and a randomness source that yields r and s, prove returns a
    proof exactly when every buffer is as long as the code indexes it: the
    witness and pointsA, pointsB1, pointsB2 hold nVars entries, pointsC holds
    nVars-nPublic-1, pointsH holds domainSize, the coefficient table holds
    nCoefs records and each of them has s inside the witness buffer and c
    inside the domain. In every other case the call performs an access
    outside a buffer. *)
Theorem prove_returns_iff {E : Engine} (U : Uninit) (fuel : nat) (pk : Prover)
    (wtns : list FrElement) (g g1 g2 : Rng) (r s : FrElement) :
  0 <= nPublic pk < nVars pk ->
  nVars pk < 2 ^ 32 ->
  2 <= domainSize pk < 2 ^ 31 ->
  power_of_two (domainSize pk) ->
  nCoefs pk < 2 ^ 31 ->
  sample_scalar fuel (stack_r U) g = Some (r, g1) ->
  sample_scalar fuel (stack_s U) g1 = Some (s, g2) ->
  let buffers_suffice :=
    (Z.to_nat (nVars pk) <= length wtns)%nat /\
    (Z.to_nat (nVars pk) <= length (pointsA pk))%nat /\
    (Z.to_nat (nVars pk) <= length (pointsB1 pk))%nat /\
    (Z.to_nat (nVars pk) <= length (pointsB2 pk))%nat /\
    (Z.to_nat (nVars pk - nPublic pk - 1) <= length (pointsC pk))%nat /\
    (Z.to_nat (domainSize pk) <= length (pointsH pk))%nat /\
    (Z.to_nat (nCoefs pk) <= length (coefs pk))%nat /\
    Forall (record_in_bounds wtns (Z.to_nat (domainSize pk)))
           (take (Z.to_nat (nCoefs pk)) (coefs pk)) in
  ((exists pf : Proof, prove U fuel pk wtns g = Returns (pf, g2)) <->
   buffers_suffice) /\
  (prove U fuel pk wtns g = Undefined <-> ~ buffers_suffice).
Proof.
  intros Hpub Hvars _ _ _ Hr Hs. cbn zeta.
  pose proof (witness_msms_defined pk wtns Hpub Hvars) as Hm.
  pose proof (accumulate_defined U pk wtns) as Hacc.
  unfold prove, prove_with, evaluate. rewrite Hr, Hs.
  destruct (witness_msms pk wtns) as [[[[pi_a pib1] pi_b] pi_c]|].
  - destruct (proj1 Hm ltac:(eauto)) as (Hw & HA & HB1 & HB2 & HC).
    destruct (accumulate zero_body U pk wtns) as [st0|] eqn:Hst0; cbn.
    + destruct (proj1 Hacc ltac:(eauto)) as (Hn & Hin).
      apply accumulate_lengths in Hst0 as (Ha & Hb & Hc).
      pose proof (quotient_defined pk st0 Ha Hb Hc) as Hq.
      destruct (quotient pk st0) as [[st pih]|].
      * pose proof (proj1 Hq ltac:(eauto)) as HH.
        split; split.
        -- intros _. tauto.
        -- intros _. eauto.
        -- discriminate.
        -- intros Hn'. exfalso. apply Hn'. tauto.
      * assert (HH : ~ (Z.to_nat (domainSize pk) <= length (pointsH pk))%nat).
        { intro HH. apply Hq in HH. destruct HH as [x Hx]. discriminate. }
        split; split;
          first [ intros [pf Hpf]; discriminate | tauto | reflexivity ].
    + assert (Hno : ~ ((Z.to_nat (nCoefs pk) <= length (coefs pk))%nat /\
                       Forall (record_in_bounds wtns (Z.to_nat (domainSize pk)))
                              (take (Z.to_nat (nCoefs pk)) (coefs pk)))).
      { intro Hc. apply Hacc in Hc. destruct Hc as [x Hx]. discriminate. }
      split; split;
        first [ intros [pf Hpf]; discriminate | tauto | reflexivity ].
  - assert (Hno : ~ ((Z.to_nat (nVars pk) <= length wtns)%nat /\
                     (Z.to_nat (nVars pk) <= length (pointsA pk))%nat /\
                     (Z.to_nat (nVars pk) <= length (pointsB1 pk))%nat /\
                     (Z.to_nat (nVars pk) <= length (pointsB2 pk))%nat /\
                     (Z.to_nat (nVars pk - nPublic pk - 1) <=
                      length (pointsC pk))%nat)).
    { intro Hc. apply Hm in Hc. destruct Hc as [x Hx]. discriminate. }
    split; split;
      first [ intros [pf Hpf]; discriminate | tauto | reflexivity ].
Qed.

(** * The further properties at the small instances *)

Lemma makeProver_roundtrip_witness :
  length demo_header = 4%nat /\
  Forall coef_wf demo_coefs /\
  makeProver 3 1 2 3 (demo_g1 2) (demo_g1 3) (demo_g2 5) (demo_g1 7)
             (demo_g2 11) (coefs_buffer demo_header demo_coefs)
             (pointsA demo_key) (pointsB1 demo_key) (pointsB2 demo_key)
             (pointsC demo_key) (pointsH demo_key) =
  mkProver 3 1 2 3 (demo_g1 2) (demo_g1 3) (demo_g2 5) (demo_g1 7)
           (demo_g2 11) demo_coefs
           (pointsA demo_key) (pointsB1 demo_key) (pointsB2 demo_key)
           (pointsC demo_key) (pointsH demo_key).
Proof.
  assert (H1 : length demo_header = 4%nat) by reflexivity.
  assert (H2 : Forall coef_wf demo_coefs).
  { unfold demo_coefs.
    repeat (apply Forall_cons_2; [vm_compute; intuition discriminate|]).
    apply Forall_nil_2. }
  split; [exact H1|]. split; [exact H2|].
  exact (makeProver_roundtrip 3 1 2 3 (demo_g1 2) (demo_g1 3) (demo_g2 5)
           (demo_g1 7) (demo_g2 11) demo_header demo_coefs
           (pointsA demo_key) (pointsB1 demo_key) (pointsB2 demo_key)
           (pointsC demo_key) (pointsH demo_key) H1 H2).
Defined.

Lemma accumulate_defined_iff_witness :
  domainSize demo_key < 2 ^ 31 /\
  nCoefs demo_key < 2 ^ 31 /\
  (is_Some (accumulate zero_body demo_uninit demo_key demo_wtns) <->
   (Z.to_nat (nCoefs demo_key) <= length (coefs demo_key))%nat /\
   Forall (record_in_bounds demo_wtns (Z.to_nat (domainSize demo_key)))
          (take (Z.to_nat (nCoefs demo_key)) (coefs demo_key))) /\
  (accumulate zero_body demo_uninit demo_key demo_wtns = None ->
   forall (fuel : nat) (g : Rng),
     prove demo_uninit fuel demo_key demo_wtns g = Undefined).
Proof.
  assert (H1 : domainSize demo_key < 2 ^ 31) by (simpl; lia).
  assert (H2 : nCoefs demo_key < 2 ^ 31) by (simpl; lia).
  split; [exact H1|]. split; [exact H2|].
  exact (accumulate_defined_iff demo_uninit demo_key demo_wtns H1 H2).
Defined.

Lemma prove_undefined_short_table_witness :
  ((length (pointsA (with_pointsH demo_key [demo_g1 53])) <
    Z.to_nat (nVars (with_pointsH demo_key [demo_g1 53])))%nat \/
   (length (pointsB1 (with_pointsH demo_key [demo_g1 53])) <
    Z.to_nat (nVars (with_pointsH demo_key [demo_g1 53])))%nat \/
   (length (pointsB2 (with_pointsH demo_key [demo_g1 53])) <
    Z.to_nat (nVars (with_pointsH demo_key [demo_g1 53])))%nat \/
   (length (pointsC (with_pointsH demo_key [demo_g1 53])) <
    Z.to_nat (pi_c_count (with_pointsH demo_key [demo_g1 53])))%nat \/
   (length (pointsH (with_pointsH demo_key [demo_g1 53])) <
    Z.to_nat (domainSize (with_pointsH demo_key [demo_g1 53])))%nat) /\
  prove demo_uninit 4 (with_pointsH demo_key [demo_g1 53]) demo_wtns demo_rng =
    Undefined.
Proof.
  assert (H : (length (pointsA (with_pointsH demo_key [demo_g1 53])) <
               Z.to_nat (nVars (with_pointsH demo_key [demo_g1 53])))%nat \/
              (length (pointsB1 (with_pointsH demo_key [demo_g1 53])) <
               Z.to_nat (nVars (with_pointsH demo_key [demo_g1 53])))%nat \/
              (length (pointsB2 (with_pointsH demo_key [demo_g1 53])) <
               Z.to_nat (nVars (with_pointsH demo_key [demo_g1 53])))%nat \/
              (length (pointsC (with_pointsH demo_key [demo_g1 53])) <
               Z.to_nat (pi_c_count (with_pointsH demo_key [demo_g1 53])))%nat \/
              (length (pointsH (with_pointsH demo_key [demo_g1 53])) <
               Z.to_nat (domainSize (with_pointsH demo_key [demo_g1 53])))%nat).
  { do 4 right. simpl. lia. }
  split; [exact H|].
  exact (prove_undefined_short_table demo_uninit 4
           (with_pointsH demo_key [demo_g1 53]) demo_wtns demo_rng H).
Defined.

Lemma prove_undefined_count_wraps_witness :
  nVars (with_counts demo_key 1 1) = nPublic (with_counts demo_key 1 1) /\
  Z.of_nat (length (pointsC (with_counts demo_key 1 1))) < 2 ^ 32 - 1 /\
  pi_c_count (with_counts demo_key 1 1) = 2 ^ 32 - 1 /\
  prove demo_uninit 4 (with_counts demo_key 1 1) demo_wtns demo_rng = Undefined.
Proof.
  assert (H1 : nVars (with_counts demo_key 1 1) =
               nPublic (with_counts demo_key 1 1)) by reflexivity.
  assert (H2 : Z.of_nat (length (pointsC (with_counts demo_key 1 1))) <
               2 ^ 32 - 1) by (simpl; lia).
  split; [exact H1|]. split; [exact H2|].
  exact (prove_undefined_count_wraps demo_uninit 4 (with_counts demo_key 1 1)
           demo_wtns demo_rng H1 H2).
Defined.



Lemma prove_randomness_witness :
  prove demo_uninit 4 demo_key demo_wtns demo_rng =
    Returns (demo_proof, mkRng demo_src 96) /\
  rng_src (mkRng demo_src 96) = rng_src demo_rng /\
  (exists kr ks : nat,
     (kr < 4)%nat /\ (ks < 4)%nat /\
     rng_pos (mkRng demo_src 96) = (rng_pos demo_rng + 32 * (kr + ks + 2))%nat /\
     (forall j : nat, (j < kr)%nat -> Fr.q <= Fr_val (candidate demo_rng j)) /\
     Fr_val (candidate demo_rng kr) < Fr.q /\
     (forall j : nat, (j < ks)%nat ->
        Fr.q <= Fr_val (candidate demo_rng (kr + 1 + j))) /\
     Fr_val (candidate demo_rng (kr + 1 + ks)) < Fr.q) /\
  (Fr_val (candidate demo_rng 0) < Fr.q ->
   Fr_val (candidate demo_rng 1) < Fr.q ->
   rng_pos (mkRng demo_src 96) = (rng_pos demo_rng + 64)%nat).
Proof.
  assert (H : prove demo_uninit 4 demo_key demo_wtns demo_rng =
              Returns (demo_proof, mkRng demo_src 96))
    by (vm_compute; reflexivity).
  split; [exact H|].
  exact (prove_randomness demo_uninit 4 demo_key demo_wtns demo_rng
           (mkRng demo_src 96) demo_proof H).
Defined.

Lemma sample_scalar_reaches_witness :
  0 <= 5 < Fr.q /\
  exists (r : FrElement) (g' : Rng),
    sample_scalar 1 (Fr_of_Z 300) (tape (le_encode 32 5)) = Some (r, g') /\
    Fr_val r = 5 /\ rng_pos g' = 32%nat.
Proof.
  assert (H : 0 <= 5 < Fr.q) by (unfold Fr.q; lia).
  split; [exact H|].
  exact (sample_scalar_reaches 5 0 (Fr_of_Z 300) H).
Defined.

Lemma prove_returns_iff_witness :
  0 <= nPublic demo_key < nVars demo_key /\
  nVars demo_key < 2 ^ 32 /\
  2 <= domainSize demo_key < 2 ^ 31 /\
  power_of_two (domainSize demo_key) /\
  nCoefs demo_key < 2 ^ 31 /\
  sample_scalar 4 (stack_r demo_uninit) demo_rng =
    Some (candidate demo_rng 1, mkRng demo_src 64) /\
  sample_scalar 4 (stack_s demo_uninit) (mkRng demo_src 64) =
    Some (candidate demo_rng 2, mkRng demo_src 96) /\
  let buffers_suffice :=
    (Z.to_nat (nVars demo_key) <= length demo_wtns)%nat /\
    (Z.to_nat (nVars demo_key) <= length (pointsA demo_key))%nat /\
    (Z.to_nat (nVars demo_key) <= length (pointsB1 demo_key))%nat /\
    (Z.to_nat (nVars demo_key) <= length (pointsB2 demo_key))%nat /\
    (Z.to_nat (nVars demo_key - nPublic demo_key - 1) <=
     length (pointsC demo_key))%nat /\
    (Z.to_nat (domainSize demo_key) <= length (pointsH demo_key))%nat /\
    (Z.to_nat (nCoefs demo_key) <= length (coefs demo_key))%nat /\
    Forall (record_in_bounds demo_wtns (Z.to_nat (domainSize demo_key)))
           (take (Z.to_nat (nCoefs demo_key)) (coefs demo_key)) in
  ((exists pf : Proof,
      prove demo_uninit 4 demo_key demo_wtns demo_rng =
      Returns (pf, mkRng demo_src 96)) <-> buffers_suffice) /\
  (prove demo_uninit 4 demo_key demo_wtns demo_rng = Undefined <->
   ~ buffers_suffice).
Proof.
  assert (H1 : 0 <= nPublic demo_key < nVars demo_key) by (simpl; lia).
  assert (H3 : nVars demo_key < 2 ^ 32) by (simpl; lia).
  assert (Hd : 2 <= domainSize demo_key < 2 ^ 31) by (simpl; lia).
  assert (Hp : power_of_two (domainSize demo_key))
    by (exists 1; split; [lia | reflexivity]).
  assert (Hn : nCoefs demo_key < 2 ^ 31) by (simpl; lia).
  assert (H4 : sample_scalar 4 (stack_r demo_uninit) demo_rng =
               Some (candidate demo_rng 1, mkRng demo_src 64))
    by (vm_compute; reflexivity).
  assert (H5 : sample_scalar 4 (stack_s demo_uninit) (mkRng demo_src 64) =
               Some (candidate demo_rng 2, mkRng demo_src 96))
    by (vm_compute; reflexivity).
  split; [exact H1|]. split; [exact H3|].
  split; [exact Hd|]. split; [exact Hp|]. split; [exact Hn|].
  split; [exact H4|]. split; [exact H5|].
  exact (prove_returns_iff demo_uninit 4 demo_key demo_wtns demo_rng
           (mkRng demo_src 64) (mkRng demo_src 96)
           (candidate demo_rng 1) (candidate demo_rng 2)
           H1 H3 Hd Hp Hn H4 H5).
Defined.
